(** * make_27_star_svg: a shallow embedding and its verified properties

    The development follows [src/resources/make_27_star_svg.py]:
    Python strings, binary64 floats, the 2D affine matrix helpers, the
    transform-attribute parser, the ElementTree document and the [main]
    pipeline (locate, centre, delete, stamp). *)

From Stdlib Require Import ZArith NArith QArith Qabs Qround Lia List ListSet String Ascii Bool.
From Stdlib Require Import Reals Qreals Lra Floats.SpecFloat.
Import ListNotations.

Local Open Scope string_scope.
Local Open Scope Z_scope.

(** ** Errors and results

    Every [raise ValueError(...)] site of the source gets a constructor, so
    that the place an exception comes from stays visible. *)

Inductive error : Type :=
| BadNumber (token : string)
      (* float(p): could not convert string to float *)
| InvalidArguments (cmd : string) (got : nat)
      (* "<cmd> expects ... values, got <n>" *)
| UnsupportedCommand (cmd : string)
      (* "Unsupported transform cmd: <cmd>" *)
| NonInvertible
      (* "Non-invertible transform matrix" *)
| MathDomainError
      (* math.cos(x), math.sin(x) at an infinite x: "math domain error" *)
| NotAChild
      (* list.remove(x): x not in list *)
| Diverged.
      (* a [while] loop of the source ran out of the fuel the model gives it *)

Inductive result (A : Type) : Type :=
| Ok (a : A)
| Raise (e : error).
Arguments Ok {A} a.
Arguments Raise {A} e.

Definition bind {A B} (r : result A) (k : A -> result B) : result B :=
  match r with
  | Ok a => k a
  | Raise e => Raise e
  end.

Declare Scope result_scope.
Delimit Scope result_scope with result.
Notation "x <- r ;; k" := (bind r (fun x => k))
  (at level 61, r at next level, right associativity) : result_scope.
Notation "' p <- r ;; k" := (bind r (fun x => let p := x in k))
  (at level 61, p pattern, r at next level, right associativity) : result_scope.
Local Open Scope result_scope.

Fixpoint mapM {A B} (f : A -> result B) (l : list A) : result (list B) :=
  match l with
  | [] => Ok []
  | a :: l' => b <- f a ;; bs <- mapM f l' ;; Ok (b :: bs)
  end.

(** ** Python strings

    A [str] is modelled by [string]; a character is a code point below 256.
    The classes below are the ones the source relies on: [\s] and
    [str.strip] use [str.isspace], [[a-zA-Z]] and [str.lower] act on the
    ASCII letters. *)

Definition code (c : ascii) : nat := nat_of_ascii c.

Definition between (lo hi : nat) (c : ascii) : bool :=
  (Nat.leb lo (code c) && Nat.leb (code c) hi)%bool.

(* str.isspace on code points below 256: \t \n \v \f \r, 0x1c-0x1f, space,
   0x85 and 0xa0. *)
Definition is_space (c : ascii) : bool :=
  (between 9 13 c || between 28 32 c
   || Nat.eqb (code c) 133 || Nat.eqb (code c) 160)%bool.

Definition is_upper (c : ascii) : bool := between 65 90 c.
Definition is_lower (c : ascii) : bool := between 97 122 c.
Definition is_alpha (c : ascii) : bool := (is_upper c || is_lower c)%bool.
Definition is_digit (c : ascii) : bool := between 48 57 c.

Definition lower_char (c : ascii) : ascii :=
  if is_upper c then ascii_of_nat (code c + 32) else c.

Fixpoint lower (s : string) : string :=
  match s with
  | EmptyString => EmptyString
  | String c s' => String (lower_char c) (lower s')
  end.

Fixpoint lstrip (s : string) : string :=
  match s with
  | EmptyString => EmptyString
  | String c s' => if is_space c then lstrip s' else s
  end.

Fixpoint rstrip (s : string) : string :=
  match s with
  | EmptyString => EmptyString
  | String c s' =>
      match rstrip s' with
      | EmptyString => if is_space c then EmptyString else String c EmptyString
      | r => String c r
      end
  end.

Definition strip (s : string) : string := rstrip (lstrip s).

Definition is_empty (s : string) : bool :=
  match s with EmptyString => true | _ => false end.

Fixpoint string_forall (p : ascii -> bool) (s : string) : bool :=
  match s with
  | EmptyString => true
  | String c s' => (p c && string_forall p s')%bool
  end.

(* the longest prefix whose characters satisfy p, and what follows it *)
Fixpoint take_while (p : ascii -> bool) (s : string) : string * string :=
  match s with
  | String c s' =>
      if p c then let '(t, r) := take_while p s' in (String c t, r)
      else (EmptyString, s)
  | EmptyString => (EmptyString, EmptyString)
  end.

Fixpoint repeat_string (c : ascii) (n : nat) : string :=
  match n with
  | O => EmptyString
  | S n' => String c (repeat_string c n')
  end.

(** Decimal digits of a natural number, most significant first: the
    [str(n)] of a non-negative [int]. *)

Definition digit_char (d : N) : ascii := ascii_of_N (48 + d).

Fixpoint digits_fuel (fuel : nat) (n : N) (acc : string) : string :=
  match fuel with
  | O => acc
  | S fuel' =>
      let acc' := String (digit_char (n mod 10)) acc in
      if (n <? 10)%N then acc' else digits_fuel fuel' (n / 10) acc'
  end.

Definition str_of_N (n : N) : string :=
  digits_fuel (S (N.to_nat (N.log2 n))) n EmptyString.

Definition str_of_nat (n : nat) : string := str_of_N (N.of_nat n).

(* f"{i:02d}": at least two digits, padded with zeros on the left. *)
Definition format_02d (i : nat) : string :=
  let s := str_of_nat i in
  if Nat.ltb (String.length s) 2 then repeat_string "0" (2 - String.length s) ++ s
  else s.

(** ** Python floats: IEEE-754 binary64

    A [float] is a [spec_float] of the Standard Library at precision 53 and
    exponent bound 1024; arithmetic is the library's.  Conversions from
    exact values (literals, [float(str)], [int] to [float]) round to the
    nearest double, ties to even. *)

Definition float : Type := spec_float.
Definition prec : Z := 53.
Definition emax : Z := 1024.

Definition fadd : float -> float -> float := SFadd prec emax.
Definition fsub : float -> float -> float := SFsub prec emax.
Definition fmul : float -> float -> float := SFmul prec emax.
Definition fdiv : float -> float -> float := SFdiv prec emax.
Definition fneg : float -> float := SFopp.
Definition fabs : float -> float := SFabs.
Definition flt : float -> float -> bool := SFltb.
Definition feq : float -> float -> bool := SFeqb.

(* (n/d) / 2^e as a fraction of integers *)
Definition scale2 (n d e : Z) : Z * Z :=
  if 0 <=? e then (n, d * 2 ^ e) else (n * 2 ^ (- e), d).

(* (n/d) / 10^p as a fraction of integers *)
Definition scale10 (n d p : Z) : Z * Z :=
  if 0 <=? p then (n, d * 10 ^ p) else (n * 10 ^ (- p), d).

(* the integer nearest to n/d, ties to the even one (n >= 0, d > 0) *)
Definition round_half_even (n d : Z) : Z :=
  let q := n / d in
  match (2 * (n mod d)) ?= d with
  | Lt => q
  | Gt => q + 1
  | Eq => if Z.even q then q else q + 1
  end.

(* floor (log2 (n/d)) for n, d > 0 *)
Definition ilog2_ratio (n d : Z) : Z :=
  let l := Z.log2 n - Z.log2 d in
  let '(n', d') := scale2 n d l in
  if d' <=? n' then l else l - 1.

(* the double nearest to (-1)^s * n/d, for n >= 0 and d > 0 *)
Definition round_binary64 (s : bool) (n d : Z) : float :=
  if n =? 0 then S754_zero s
  else
    let e := Z.max (ilog2_ratio n d - 52) (-1074) in
    let '(n', d') := scale2 n d e in
    let m := round_half_even n' d' in
    let '(m, e) := if m =? 2 ^ 53 then (2 ^ 52, e + 1) else (m, e) in
    match m with
    | Zpos p => if e <=? 971 then S754_finite s p e else S754_infinity s
    | _ => S754_zero s
    end.

Definition float_of_Q (q : Q) : float :=
  round_binary64 (Qnum q <? 0) (Z.abs (Qnum q)) (Zpos (Qden q)).

(* float(i) for an int i *)
Definition float_of_Z (z : Z) : float := round_binary64 (z <? 0) (Z.abs z) 1.

(* the exact value of a finite double; 0 for the others *)
Definition F2Q (x : float) : Q :=
  match x with
  | S754_finite s m e =>
      let '(n, d) := scale2 (Zpos m) 1 (- e) in
      (if s then - n else n) # Z.to_pos d
  | _ => 0%Q
  end.

Definition is_finite (x : float) : bool :=
  match x with
  | S754_finite _ _ _ | S754_zero _ => true
  | _ => false
  end.

Definition is_infinite (x : float) : bool :=
  match x with
  | S754_infinity _ => true
  | _ => false
  end.

(** *** float(str) *)

(* Underscores may only stand between two digits; they are dropped. *)
Fixpoint strip_underscores (prev : ascii) (s : string) : option string :=
  match s with
  | EmptyString => if Ascii.eqb prev "_" then None else Some EmptyString
  | String c s' =>
      if Ascii.eqb c "_" then
        if is_digit prev then strip_underscores c s' else None
      else if (Ascii.eqb prev "_" && negb (is_digit c))%bool then None
      else option_map (String c) (strip_underscores c s')
  end.

(* an optional sign: (negative?, rest) *)
Definition parse_sign (s : string) : bool * string :=
  match s with
  | String "-" r => (true, r)
  | String "+" r => (false, r)
  | _ => (false, s)
  end.

Definition take_digits : string -> string * string := take_while is_digit.

Fixpoint digits_value_acc (acc : Z) (ds : string) : Z :=
  match ds with
  | EmptyString => acc
  | String c ds' => digits_value_acc (10 * acc + (Z.of_nat (code c) - 48)) ds'
  end.

Definition digits_value (ds : string) : Z := digits_value_acc 0 ds.

(* [e|E] [sign] digits, to the end of the string; an absent exponent is 0 *)
Definition parse_exponent (s : string) : option Z :=
  match s with
  | EmptyString => Some 0
  | String c r =>
      if (Ascii.eqb c "e" || Ascii.eqb c "E")%bool then
        let '(neg, r1) := parse_sign r in
        let '(ds, r2) := take_digits r1 in
        if (is_empty ds || negb (is_empty r2))%bool then None
        else Some (if neg then - digits_value ds else digits_value ds)
      else None
  end.

(* digits [. digits] [exponent], with a digit on one side of the point at
   least: (D, k) stands for the value D * 10^k *)
Definition parse_decimal (s : string) : option (Z * Z) :=
  let '(ip, r1) := take_digits s in
  let '(fp, r2) :=
    match r1 with
    | String "." r => take_digits r
    | _ => (EmptyString, r1)
    end in
  if (is_empty ip && is_empty fp)%bool then None
  else
    match parse_exponent r2 with
    | Some ex => Some (digits_value (ip ++ fp), ex - Z.of_nat (String.length fp))
    | None => None
    end.

(* the double nearest to D * 10^k *)
Definition float_of_decimal (neg : bool) (D k : Z) : float :=
  let '(n, d) := scale10 D 1 (- k) in round_binary64 neg n d.

Definition float_of_string (s : string) : option float :=
  match strip_underscores zero (strip s) with
  | None => None
  | Some t =>
      let '(neg, body) := parse_sign t in
      let l := lower body in
      if (String.eqb l "inf" || String.eqb l "infinity")%bool
      then Some (S754_infinity neg)
      else if String.eqb l "nan" then Some S754_nan
      else
        match parse_decimal body with
        | Some (D, k) => Some (float_of_decimal neg D k)
        | None => None
        end
  end.

(** *** format(x, ".12g") *)

(* n >= d > 0: the largest X with d * 10^X <= n *)
Fixpoint ilog10_up (fuel : nat) (n d : Z) : Z :=
  match fuel with
  | O => 0
  | S fuel' => if n <? 10 * d then 0 else 1 + ilog10_up fuel' n (10 * d)
  end.

(* 0 < n < d: the least k with d <= n * 10^k *)
Fixpoint ilog10_down (fuel : nat) (n d : Z) : Z :=
  match fuel with
  | O => 0
  | S fuel' => if d <=? 10 * n then 1 else 1 + ilog10_down fuel' (10 * n) d
  end.

(* floor (log10 (n/d)) for n, d > 0 *)
Definition ilog10_ratio (n d : Z) : Z :=
  if d <=? n then ilog10_up (S (Z.to_nat (Z.log2 n))) n d
  else - ilog10_down (S (Z.to_nat (Z.log2 d))) n d.

(* n/d > 0 correctly rounded to [nd] significant digits: (D, X) with
   10^(nd-1) <= D < 10^nd, standing for D * 10^(X - (nd-1)) *)
Definition round_sig (nd : Z) (n d : Z) : Z * Z :=
  let X := ilog10_ratio n d in
  let '(n', d') := scale10 n d (X - (nd - 1)) in
  let D := round_half_even n' d' in
  if D =? 10 ^ nd then (10 ^ (nd - 1), X + 1) else (D, X).

Fixpoint rstrip_zeros (s : string) : string :=
  match s with
  | EmptyString => EmptyString
  | String c s' =>
      match rstrip_zeros s' with
      | EmptyString => if Ascii.eqb c "0" then EmptyString else String c EmptyString
      | r => String c r
      end
  end.

(* ".ddd" with the trailing zeros removed, or nothing when none is left *)
Definition fraction_part (ds : string) : string :=
  match rstrip_zeros ds with
  | EmptyString => EmptyString
  | r => String "." r
  end.

Definition sign_string (s : bool) : string := if s then "-" else "".

(* the first k characters, and the others *)
Fixpoint split_at (k : nat) (s : string) : string * string :=
  match k, s with
  | S k', String c s' => let '(a, b) := split_at k' s' in (String c a, b)
  | _, _ => (EmptyString, s)
  end.

(* the 'g' layout of the digits D (nd of them) with decimal exponent X:
   fixed notation when -4 <= X < nd, scientific otherwise; the trailing
   zeros of the fraction are dropped, and the point with them when nothing
   is left *)
Definition layout_g (nd : Z) (D X : Z) : string :=
  let ds := str_of_N (Z.to_N D) in
  if ((-4 <=? X) && (X <? nd))%bool then
    if 0 <=? X then
      let '(ip, fp) := split_at (Z.to_nat (X + 1)) ds in
      ip ++ fraction_part fp
    else
      "0." ++ repeat_string "0" (Z.to_nat (- X - 1)) ++ rstrip_zeros ds
  else
    let '(ip, fp) := split_at 1 ds in
    ip ++ fraction_part fp
    ++ "e" ++ (if X <? 0 then "-" else "+") ++ format_02d (Z.to_nat (Z.abs X)).

Definition format_g (nd : Z) (x : float) : string :=
  match x with
  | S754_nan => "nan"
  | S754_infinity s => sign_string s ++ "inf"
  | S754_zero s => sign_string s ++ "0"
  | S754_finite s m e =>
      let '(n, d) := scale2 (Zpos m) 1 (- e) in
      let '(D, X) := round_sig nd n d in
      sign_string s ++ layout_g nd D X
  end.

Definition format_12g : float -> string := format_g 12.

(** ** The numbers of the matrix helpers

    [mat_mul], [mat_inv] and [mat_apply] are written with the operators
    [+ - * /], [abs] and [<] and with float literals.  They are embedded
    over this interface, whose instance is the binary64 arithmetic that
    [main] runs them on. *)

Class Number (F : Type) : Type := {
  add : F -> F -> F;
  sub : F -> F -> F;
  mul : F -> F -> F;
  div : F -> F -> F;
  neg : F -> F;
  absolute : F -> F;
  less : F -> F -> bool;
  lit : Q -> F       (* the literal whose exact value is the rational *)
}.

Declare Scope num_scope.
Delimit Scope num_scope with num.
Infix "+" := add : num_scope.
Infix "-" := sub : num_scope.
Infix "*" := mul : num_scope.
Infix "/" := div : num_scope.
Notation "- x" := (neg x) : num_scope.

#[export] Instance float_Number : Number float := {
  add := fadd; sub := fsub; mul := fmul; div := fdiv;
  neg := fneg; absolute := fabs; less := flt; lit := float_of_Q
}.

(** ** Transform math (2D affine)

    A matrix is the list of its three rows, [[a, c, e], [b, d, f],
    [0, 0, 1]]. *)

Definition row (F : Type) : Type := (F * F * F)%type.
Definition matrix (F : Type) : Type := (row F * row F * row F)%type.

Section Affine.
Context {F : Type} {num : Number F}.
Local Open Scope num_scope.

Definition zero_ : F := lit 0.
Definition one_ : F := lit 1.

Definition mat_identity : matrix F :=
  ((one_, zero_, zero_),
   (zero_, one_, zero_),
   (zero_, zero_, one_)).

Definition mat_mul (a b : matrix F) : matrix F :=
  let '((a00, a01, a02), (a10, a11, a12), _) := a in
  let '((b00, b01, b02), (b10, b11, b12), (b20, b21, b22)) := b in
  ((a00*b00 + a01*b10 + a02*b20,
    a00*b01 + a01*b11 + a02*b21,
    a00*b02 + a01*b12 + a02*b22),
   (a10*b00 + a11*b10 + a12*b20,
    a10*b01 + a11*b11 + a12*b21,
    a10*b02 + a11*b12 + a12*b22),
   (zero_, zero_, one_)).

Definition mat_translate (tx ty : F) : matrix F :=
  ((one_, zero_, tx),
   (zero_, one_, ty),
   (zero_, zero_, one_)).

Definition mat_scale (sx sy : F) : matrix F :=
  ((sx, zero_, zero_),
   (zero_, sy, zero_),
   (zero_, zero_, one_)).

Definition mat_apply (m : matrix F) (x y : F) : F * F :=
  let '((m00, m01, m02), (m10, m11, m12), _) := m in
  (m00*x + m01*y + m02,
   m10*x + m11*y + m12).

Definition det2 (m : matrix F) : F :=
  let '((a, c, e), (b, d, f), _) := m in a*d - b*c.

Definition mat_inv (m : matrix F) : result (matrix F) :=
  let '((a, c, e), (b, d, f), _) := m in
  let det := a*d - b*c in
  if less (absolute det) (lit (1 # 1000000000000)) then Raise NonInvertible
  else
    let inv_det := one_ / det in
    let ai := d * inv_det in
    let bi := (- b) * inv_det in
    let ci := (- c) * inv_det in
    let di := a * inv_det in
    let ei := - (ai*e + ci*f) in
    let fi := - (bi*e + di*f) in
    Ok ((ai, ci, ei), (bi, di, fi), (zero_, zero_, one_)).
End Affine.

(** [math.cos] and [math.sin] call the C library's [cos] and [sin], which
    the model takes as parameters, and raise [ValueError] ("math domain
    error") where the C function is not defined: at an infinite argument.
    A NaN argument is passed on and gives a NaN.  [math.radians] multiplies
    by the double [pi / 180]. *)

Class Libm : Type := {
  cos : float -> float;
  sin : float -> float
}.

Definition math_cos {libm : Libm} (x : float) : result float :=
  if is_infinite x then Raise MathDomainError else Ok (cos x).

Definition math_sin {libm : Libm} (x : float) : result float :=
  if is_infinite x then Raise MathDomainError else Ok (sin x).

(* A libm for closed examples: none of them evaluates a rotate command
   at a finite angle, so no call reaches it. *)
Definition example_libm : Libm := {| cos := fun x => x; sin := fun x => x |}.

Definition radians (x : float) : float :=
  fmul x (fdiv (float_of_Q (314159265358979323846 # 100000000000000000000))
               (float_of_Q 180)).

Definition matrix_to_svg (m : matrix float) : string :=
  let '((a, c, e), (b, d, f), _) := m in
  "matrix(" ++ format_12g a ++ " " ++ format_12g b ++ " " ++ format_12g c
  ++ " " ++ format_12g d ++ " " ++ format_12g e ++ " " ++ format_12g f ++ ")".

(** ** The transform parser *)

(* _transform_cmd_re tried at the start of s: one or more ASCII letters
   (group 1), any white space, an opening parenthesis, any characters but
   a closing parenthesis (group 2), a closing parenthesis.  The result is
   the name, the argument text and what follows the match.  Each greedy
   run is followed by a character outside its class, so giving characters
   back never turns a failure into a match. *)
Definition match_cmd (s : string) : option (string * string * string) :=
  let '(name, r1) := take_while is_alpha s in
  if is_empty name then None
  else
    let '(_, r2) := take_while is_space r1 in
    match r2 with
    | String "(" r3 =>
        let '(args, r4) := take_while (fun c => negb (Ascii.eqb c ")")) r3 in
        match r4 with
        | String ")" rest => Some (name, args, rest)
        | _ => None
        end
    | _ => None
    end.

(* re.findall: the matches from left to right, none overlapping; the
   search resumes after a match, or one character further when the
   pattern does not match here. *)
Fixpoint findall_fuel (fuel : nat) (s : string) : list (string * string) :=
  match fuel with
  | O => []
  | S fuel' =>
      match s with
      | EmptyString => []
      | String _ s' =>
          match match_cmd s with
          | Some (name, args, rest) => (name, args) :: findall_fuel fuel' rest
          | None => findall_fuel fuel' s'
          end
      end
  end.

Definition findall (s : string) : list (string * string) :=
  findall_fuel (String.length s) s.

Definition is_sep (c : ascii) : bool := (Ascii.eqb c "," || is_space c)%bool.

(* re.split(r"[,\s]+", s): the pieces between the runs of separators, the
   empty ones at both ends included *)
Fixpoint re_split (s cur : string) (in_run : bool) : list string :=
  match s with
  | EmptyString => [cur]
  | String c s' =>
      if is_sep c then
        if in_run then re_split s' EmptyString true
        else cur :: re_split s' EmptyString true
      else re_split s' (cur ++ String c EmptyString) false
  end.

Definition to_float (p : string) : result float :=
  match float_of_string p with
  | Some x => Ok x
  | None => Raise (BadNumber p)
  end.

Definition parse_number_list (s : string) : result (list float) :=
  let parts := re_split (strip s) EmptyString false in
  mapM to_float (filter (fun p => negb (is_empty p)) parts).

Section Parser.
Context {libm : Libm}.

Definition mat_rotate (angle_deg : float) : result (matrix float) :=
  let a := radians angle_deg in
  c <- math_cos a ;;
  s <- math_sin a ;;
  Ok ((c, fneg s, zero_),
      (s, c, zero_),
      (zero_, zero_, one_)).

(* the if/elif chain of the loop body: the matrix m of one command *)
Definition command_matrix (cmd : string) (vals : list float)
  : result (matrix float) :=
  let c := lower cmd in
  if String.eqb c "matrix" then
    match vals with
    | [a; b; cc; d; e; f] => Ok ((a, cc, e), (b, d, f), (zero_, zero_, one_))
    | _ => Raise (InvalidArguments "matrix" (List.length vals))
    end
  else if String.eqb c "translate" then
    match vals with
    | [tx] => Ok (mat_translate tx zero_)
    | [tx; ty] => Ok (mat_translate tx ty)
    | _ => Raise (InvalidArguments "translate" (List.length vals))
    end
  else if String.eqb c "rotate" then
    match vals with
    | [ang] => mat_rotate ang
    | [ang; cx; cy] =>
        let t := mat_translate cx cy in
        r <- mat_rotate ang ;;
        Ok (mat_mul t (mat_mul r (mat_translate (fneg cx) (fneg cy))))
    | _ => Raise (InvalidArguments "rotate" (List.length vals))
    end
  else if String.eqb c "scale" then
    match vals with
    | [s] => Ok (mat_scale s s)
    | [sx; sy] => Ok (mat_scale sx sy)
    | _ => Raise (InvalidArguments "scale" (List.length vals))
    end
  else Raise (UnsupportedCommand cmd).

(* one turn of the loop: the numbers first, then the command, then
   result = mat_mul(result, m) *)
Definition transform_step (acc : matrix float) (cmd_args : string * string)
  : result (matrix float) :=
  vals <- parse_number_list (snd cmd_args) ;;
  m <- command_matrix (fst cmd_args) vals ;;
  Ok (mat_mul acc m).

Fixpoint run_commands (acc : matrix float) (cmds : list (string * string))
  : result (matrix float) :=
  match cmds with
  | [] => Ok acc
  | c :: cmds' => acc' <- transform_step acc c ;; run_commands acc' cmds'
  end.

Definition parse_transform (transform : option string)
  : result (matrix float) :=
  match transform with
  | None => Ok mat_identity
  | Some t =>
      if (is_empty t || is_empty (strip t))%bool then Ok mat_identity
      else run_commands mat_identity (findall t)
  end.
End Parser.

(** ** The ElementTree document

    An element has a tag, its attributes in insertion order, text, tail and
    children.  An [Element] value is the content of an object; the object
    itself is named by its position: the path of child indices from the
    root of the tree it hangs in.  A reference to an object, as [iter]
    yields it and as the parent map stores it, is the pair of its path and
    of its content at that time.  [copy.deepcopy] of an element is its
    value. *)

Unset Elimination Schemes.
Inductive Element : Type :=
  mkElement {
    tag : string;
    attrib : list (string * string);
    text : option string;
    tail : option string;
    children : list Element
  }.
Set Elimination Schemes.

Definition path : Type := list nat.

(* dict.get and dict.__setitem__ on an insertion-ordered dict *)
Fixpoint dict_get {K V} (eqb : K -> K -> bool) (k : K) (d : list (K * V))
  : option V :=
  match d with
  | [] => None
  | (k', v) :: d' => if eqb k k' then Some v else dict_get eqb k d'
  end.

Fixpoint dict_set {K V} (eqb : K -> K -> bool) (k : K) (v : V)
  (d : list (K * V)) : list (K * V) :=
  match d with
  | [] => [(k, v)]
  | (k', v') :: d' =>
      if eqb k k' then (k, v) :: d' else (k', v') :: dict_set eqb k v d'
  end.

(* elem.get(key) and elem.set(key, value) *)
Definition elem_get (e : Element) (key : string) : option string :=
  dict_get String.eqb key (attrib e).

Definition elem_set (e : Element) (key value : string) : Element :=
  mkElement (tag e) (dict_set String.eqb key value (attrib e))
            (text e) (tail e) (children e).

(* ET.Element(tag) *)
Definition new_element (t : string) : Element :=
  mkElement t [] None None [].

Definition with_children (e : Element) (cs : list Element) : Element :=
  mkElement (tag e) (attrib e) (text e) (tail e) cs.

(* root.iter(): the elements in document order, each with its path *)
Fixpoint iter (e : Element) : list (path * Element) :=
  match e with
  | mkElement _ _ _ _ cs =>
      ([], e) ::
      (fix iter_children (i : nat) (cs : list Element) : list (path * Element) :=
         match cs with
         | [] => []
         | c :: cs' =>
             (map (fun pe => (i :: fst pe, snd pe)) (iter c)
              ++ iter_children (S i) cs')%list
         end) 0%nat cs
  end.

(* the element at a path, if the path leads to one *)
Fixpoint get_at (e : Element) (p : path) : option Element :=
  match p with
  | [] => Some e
  | i :: p' =>
      match nth_error (children e) i with
      | Some c => get_at c p'
      | None => None
      end
  end.

Fixpoint update_nth {A} (f : A -> A) (i : nat) (l : list A) : list A :=
  match l, i with
  | [], _ => []
  | a :: l', O => f a :: l'
  | a :: l', S i' => a :: update_nth f i' l'
  end.

Fixpoint remove_nth {A} (i : nat) (l : list A) : list A :=
  match l, i with
  | [], _ => []
  | _ :: l', O => l'
  | a :: l', S i' => a :: remove_nth i' l'
  end.

(* the tree with the element at the path replaced by its image under f *)
Fixpoint update_at (f : Element -> Element) (e : Element) (p : path)
  : Element :=
  match p with
  | [] => f e
  | i :: p' =>
      with_children e (update_nth (fun c => update_at f c p') i (children e))
  end.

(* parent.append(child) *)
Definition append (parent child : Element) : Element :=
  with_children parent (children parent ++ [child])%list.

(* the index i when elem is the i-th child of par *)
Fixpoint child_index (par elem : path) : option nat :=
  match par, elem with
  | [], [i] => Some i
  | j :: par', k :: elem' => if Nat.eqb j k then child_index par' elem' else None
  | _, _ => None
  end.

Definition path_eqb (p q : path) : bool :=
  if list_eq_dec Nat.eq_dec p q then true else false.

Definition ref : Type := (path * Element)%type.

(* {child: parent for parent in root.iter() for child in parent} *)
Definition build_parent_map (root : Element) : list (path * ref) :=
  fold_left
    (fun d parent =>
       fold_left
         (fun d i => dict_set path_eqb (fst parent ++ [i])%list parent d)
         (seq 0 (List.length (children (snd parent)))) d)
    (iter root) [].

(* the first element in document order that carries the id: the object
   (its path) and its content *)
Definition find_element_by_id (root : Element) (elem_id : string)
  : option ref :=
  List.find
    (fun pe =>
       match elem_get (snd pe) "id" with
       | Some v => String.eqb v elem_id
       | None => false
       end) (iter root).

Definition find_all_ids (root : Element) : set string :=
  fold_left
    (fun out pe =>
       match elem_get (snd pe) "id" with
       | Some eid => if is_empty eid then out else set_add string_dec eid out
       | None => out
       end) (iter root) [].

(** ** Cumulative transforms *)

Section Document.
Context {libm : Libm}.

(* the while loop that climbs from a node to the root through the parent
   map, then chain.reverse() *)
Fixpoint chain_to_root (fuel : nat) (pmap : list (path * ref))
  (cur : option ref) (chain : list ref) : result (list ref) :=
  match cur with
  | None => Ok (rev chain)
  | Some c =>
      match fuel with
      | O => Raise Diverged
      | S fuel' =>
          chain_to_root fuel' pmap (dict_get path_eqb (fst c) pmap)
            (chain ++ [c])%list
      end
  end.

Fixpoint compose_chain (m : matrix float) (chain : list ref)
  : result (matrix float) :=
  match chain with
  | [] => Ok m
  | node :: chain' =>
      t <- parse_transform (elem_get (snd node) "transform") ;;
      compose_chain (mat_mul m t) chain'
  end.

Definition cumulative_transform_to_element (elem : ref)
  (pmap : list (path * ref)) : result (matrix float) :=
  chain <- chain_to_root (S (List.length (fst elem))) pmap (Some elem) [] ;;
  compose_chain mat_identity chain.

Definition cumulative_transform_to_parent (parent : ref)
  (pmap : list (path * ref)) : result (matrix float) :=
  chain <- chain_to_root (S (List.length (fst parent))) pmap (Some parent) [] ;;
  compose_chain mat_identity chain.

(** ** main *)

Definition TEMPLATE_ID : string := "g16532".

Definition STAR_IDS_TO_DELETE : list string :=
  ["g16722"; "g16712"; "g16702"; "g16692"; "g16682"; "g16672"; "g16662";
   "g16652"; "g16642"; "g16632"; "g16622"; "g16612"; "g16602"; "g16592";
   "g16582"; "g16572"; "g16562"; "g16552"; "g16542"].

Definition GLOBAL_CENTER_X : float := float_of_Q 750.
Definition GLOBAL_CENTER_Y : float := float_of_Q 515.

Definition TOTAL_STARS : nat := 27.
Definition STEP_DEG : float :=
  fdiv (float_of_Q 360) (float_of_Z (Z.of_nat TOTAL_STARS)).
Definition DIRECTION : Z := 1.

Definition SVG_NS : string := "http://www.w3.org/2000/svg".

(* The variable star_parent names an object.  While that object hangs in
   the document it is found at a path of the root; once an ancestor (or
   the object itself) has been removed it lives on in the removed
   subtree, out of the document. *)
Inductive parent_ref : Type :=
| Attached (p : path)
| Detached (fragment : Element) (p : path).

(* where the object at path p is once the element at path q is removed;
   None when it is removed with it *)
Fixpoint after_removal (q p : path) : option path :=
  match q, p with
  | [], _ => None
  | _ :: _, [] => Some []
  | i :: q', j :: p' =>
      if Nat.eqb j i then option_map (cons j) (after_removal q' p')
      else
        match q' with
        | [] => if Nat.ltb i j then Some (Nat.pred j :: p') else Some p
        | _ => Some p
        end
  end.

(* the objects main holds on to while it edits the tree: the document
   and star_parent *)
Record store : Type := mkStore {
  doc : Element;
  star_parent : parent_ref
}.

Definition parent_element (s : store) : option Element :=
  match star_parent s with
  | Attached p => get_at (doc s) p
  | Detached fragment p => get_at fragment p
  end.

(* par.remove(elem): the child is taken out of par, and star_parent
   follows the object it names *)
Definition remove_elem (s : store) (par elem : path) : result store :=
  match child_index par elem, get_at (doc s) par, get_at (doc s) elem with
  | Some i, Some _, Some fragment =>
      Ok (mkStore
            (update_at (fun e => with_children e (remove_nth i (children e)))
               (doc s) par)
            (match star_parent s with
             | Attached p =>
                 match after_removal elem p with
                 | Some p' => Attached p'
                 | None => Detached fragment (skipn (List.length elem) p)
                 end
             | Detached f p => Detached f p
             end))
  | _, _, _ => Raise NotAChild
  end.

(* star_parent.append(wrapper) *)
Definition append_to_parent (s : store) (wrapper : Element) : store :=
  match star_parent s with
  | Attached p =>
      mkStore (update_at (fun e => append e wrapper) (doc s) p) (Attached p)
  | Detached fragment p =>
      mkStore (doc s)
              (Detached (update_at (fun e => append e wrapper) fragment p) p)
  end.

(* one turn of the deletion loop *)
Definition delete_one (st : store * nat) (sid : string)
  : result (store * nat) :=
  let '(s, deleted) := st in
  match find_element_by_id (doc s) sid with
  | None => Ok st
  | Some elem =>
      let pmap := build_parent_map (doc s) in
      match dict_get path_eqb (fst elem) pmap with
      | None => Ok st
      | Some par =>
          s' <- remove_elem s (fst par) (fst elem) ;;
          Ok (s', S deleted)
      end
  end.

Fixpoint delete_loop (st : store * nat) (all_to_delete : list string)
  : result (store * nat) :=
  match all_to_delete with
  | [] => Ok st
  | sid :: rest => st' <- delete_one st sid ;; delete_loop st' rest
  end.

Definition delete_phase (s : store) (all_to_delete : list string)
  : result (store * nat) :=
  delete_loop (s, 0%nat) all_to_delete.

(* while star_id in existing_ids: star_id = base_suffix; suffix += 1 *)
Fixpoint fresh_star_id (fuel : nat) (existing_ids : set string)
  (base star_id : string) (suffix : nat) : result string :=
  if set_mem string_dec star_id existing_ids then
    match fuel with
    | O => Raise Diverged
    | S fuel' =>
        fresh_star_id fuel' existing_ids base
          (base ++ "_" ++ str_of_nat suffix) (S suffix)
    end
  else Ok star_id.

(* while wrapper_id in existing_ids: wrapper_id += "_x" *)
Fixpoint fresh_wrapper_id (fuel : nat) (existing_ids : set string)
  (wrapper_id : string) : result string :=
  if set_mem string_dec wrapper_id existing_ids then
    match fuel with
    | O => Raise Diverged
    | S fuel' => fresh_wrapper_id fuel' existing_ids (wrapper_id ++ "_x")
    end
  else Ok wrapper_id.

Definition angle_of (i : nat) : float :=
  fmul (fmul (float_of_Z DIRECTION) STEP_DEG) (float_of_Z (Z.of_nat i)).

Definition rotate_attribute (angle local_cx local_cy : float) : string :=
  "rotate(" ++ format_12g angle ++ " " ++ format_12g local_cx ++ " "
  ++ format_12g local_cy ++ ")".

(* one turn of the stamping loop *)
Definition stamp_one (template_snapshot : Element) (local_cx local_cy : float)
  (st : store * set string) (i : nat) : result (store * set string) :=
  let '(s, existing_ids) := st in
  let angle := angle_of i in
  let star := template_snapshot in
  let base := TEMPLATE_ID ++ "_new" ++ format_02d i in
  star_id <- fresh_star_id (S (List.length existing_ids)) existing_ids
               base base 2 ;;
  let star := elem_set star "id" star_id in
  let existing_ids := set_add string_dec star_id existing_ids in
  let wrapper := new_element ("{" ++ SVG_NS ++ "}g") in
  wrapper_id <- fresh_wrapper_id (S (List.length existing_ids)) existing_ids
                  (star_id ++ "_wrap") ;;
  let wrapper := elem_set wrapper "id" wrapper_id in
  let existing_ids := set_add string_dec wrapper_id existing_ids in
  let wrapper :=
    elem_set wrapper "transform" (rotate_attribute angle local_cx local_cy) in
  let wrapper := append wrapper star in
  Ok (append_to_parent s wrapper, existing_ids).

Fixpoint stamp_loop (template_snapshot : Element) (local_cx local_cy : float)
  (st : store * set string) (indices : list nat)
  : result (store * set string) :=
  match indices with
  | [] => Ok st
  | i :: indices' =>
      st' <- stamp_one template_snapshot local_cx local_cy st i ;;
      stamp_loop template_snapshot local_cx local_cy st' indices'
  end.

Definition stamp_phase (template_snapshot : Element)
  (local_cx local_cy : float) (s : store) : result store :=
  st <- stamp_loop template_snapshot local_cx local_cy
          (s, find_all_ids (doc s)) (seq 0 TOTAL_STARS) ;;
  Ok (fst st).

(* global ring center -> star_parent local coordinates *)
Definition rotation_center (parent : ref) (pmap : list (path * ref))
  : result (float * float) :=
  parent_to_global <- cumulative_transform_to_parent parent pmap ;;
  global_to_parent <- mat_inv parent_to_global ;;
  Ok (mat_apply global_to_parent GLOBAL_CENTER_X GLOBAL_CENTER_Y).

(* How main ends once the two file names are given: return 1 after an
   error message, or the tree written and return 0.  An exception that
   escapes is a [Raise]. *)
Inductive exit : Type :=
| TemplateNotFound
| TemplateHasNoParent
| Written (s : store) (center : float * float) (deleted : nat).

Definition main (root : Element) : result exit :=
  match find_element_by_id root TEMPLATE_ID with
  | None => Ok TemplateNotFound
  | Some template_live =>
      let template_snapshot := snd template_live in
      let pmap := build_parent_map root in
      match dict_get path_eqb (fst template_live) pmap with
      | None => Ok TemplateHasNoParent
      | Some parent =>
          '(local_cx, local_cy) <- rotation_center parent pmap ;;
          let all_to_delete := (STAR_IDS_TO_DELETE ++ [TEMPLATE_ID])%list in
          '(s, deleted) <-
            delete_phase (mkStore root (Attached (fst parent))) all_to_delete ;;
          s' <- stamp_phase template_snapshot local_cx local_cy s ;;
          Ok (Written s' (local_cx, local_cy) deleted)
      end
  end.
End Document.

(** * The vocabulary of the statements

    Predicates, observations and example documents that the theorems
    below are stated with. *)

Definition no_open (c : ascii) : bool := negb (Ascii.eqb c "(").
Definition no_close (c : ascii) : bool := negb (Ascii.eqb c ")").

(** Text that cannot take part in a match: it holds no opening
    parenthesis, it does not end in a letter, and what follows it is empty
    or begins with a letter. *)
Fixpoint ends_outside_name (g : string) : bool :=
  match g with
  | EmptyString => true
  | String c EmptyString => negb (is_alpha c)
  | String _ g' => ends_outside_name g'
  end.

Definition begins_with_letter (s : string) : bool :=
  match s with
  | EmptyString => true
  | String c _ => is_alpha c
  end.

Definition known_command (cmd : string) : bool :=
  let c := lower cmd in
  (String.eqb c "matrix" || String.eqb c "translate"
   || String.eqb c "rotate" || String.eqb c "scale")%bool.

(* c is the letter n or the character 32 code points below it, which for
   a small letter n is its capital *)
Definition letter_matches (n c : ascii) : bool :=
  (Ascii.eqb c n || Nat.eqb (code c + 32) (code n))%bool.

(* cmd spells the name, letter by letter, in small or capital letters *)
Fixpoint spells (name cmd : string) : bool :=
  match name, cmd with
  | EmptyString, EmptyString => true
  | String n name', String c cmd' =>
      (letter_matches n c && spells name' cmd')%bool
  | _, _ => false
  end.

Definition all_chars : list ascii := map ascii_of_nat (seq 0 256).

Definition affine_part {F} (M : matrix F) : row F * row F := fst M.

(* a == b on the six free entries, as Python compares floats *)
Definition affine_eq (M N : matrix float) : bool :=
  let '((a, c, e), (b, d, f), _) := M in
  let '((a', c', e'), (b', d', f'), _) := N in
  (feq a a' && feq b b' && feq c c' && feq d d' && feq e e' && feq f f')%bool.

Definition element (t : string) (attrs : list (string * string))
  (cs : list Element) : Element := mkElement t attrs None None cs.

(* <svg><g transform="translate(100,100)"><g id="g16532"/></g></svg> *)
Definition scenario_document : Element :=
  element "svg" []
    [element "g" [("transform", "translate(100,100)")]
       [element "g" [("id", "g16532")] []]].

(* <svg><g id="g16532" transform="translate(100,100)"/></svg> *)
Definition own_transform_document : Element :=
  element "svg" []
    [element "g" [("id", "g16532"); ("transform", "translate(100,100)")] []].

(* the elements below a list of siblings, the first sibling having index i *)
Fixpoint iter_list (i : nat) (cs : list Element) : list (path * Element) :=
  match cs with
  | [] => []
  | c :: cs' =>
      (map (fun pe => (i :: fst pe, snd pe)) (iter c) ++ iter_list (S i) cs')%list
  end.

(* every binding sends a child to the element it hangs under *)
Definition child_binding (root : Element) (b : path * ref) : Prop :=
  exists i c,
    fst b = (fst (snd b) ++ [i])%list
    /\ get_at root (fst (snd b)) = Some (snd (snd b))
    /\ nth_error (children (snd (snd b))) i = Some c.

(* the parent without its child of index i *)
Definition without_child (i : nat) (e : Element) : Element :=
  with_children e (remove_nth i (children e)).

Definition parent_resolves (s : store) : Prop :=
  exists x, parent_element s = Some x.

Definition id_of (e : Element) : list string :=
  match elem_get e "id" with
  | Some v => [v]
  | None => []
  end.

Definition all_ids (e : Element) : list string :=
  flat_map (fun pe => id_of (snd pe)) (iter e).

(* nothing is left to delete for this identifier: no element carries it,
   or the root does, and the root has no parent to be removed from *)
Definition settled (d : Element) (sid : string) : Prop :=
  find_element_by_id d sid = None
  \/ exists e, find_element_by_id d sid = Some ([], e).

(* the wrapper of index i: a fresh g element with an id, the rotation and
   one child, the copy of the template under a new id *)
Definition is_wrapper (template : Element) (cx cy : float) (i : nat)
  (w : Element) : Prop :=
  exists star_id wrapper_id,
    w = mkElement ("{" ++ SVG_NS ++ "}g")
          [("id", wrapper_id);
           ("transform", rotate_attribute (angle_of i) cx cy)]
          None None
          [elem_set template "id" star_id].

(* the element with every id attribute dropped, at all depths *)
Fixpoint erase_ids (e : Element) : Element :=
  match e with
  | mkElement t a tx tl cs =>
      mkElement t (filter (fun kv => negb (String.eqb (fst kv) "id")) a) tx tl
                (map erase_ids cs)
  end.

(* the last TOTAL_STARS children of star_parent when main ends *)
Definition generated_wrappers (s : store) : list Element :=
  match parent_element s with
  | Some pe =>
      skipn (List.length (children pe) - TOTAL_STARS) (children pe)
  | None => []
  end.

(* <svg id="g16532"/>: the template is the root *)
Definition root_template_document : Element :=
  element "svg" [("id", "g16532")] [].

(* <svg><g id="g16532"><path id="p1"/></g></svg> *)
Definition template_with_child_id_document : Element :=
  element "svg" []
    [element "g" [("id", "g16532")] [element "path" [("id", "p1")] []]].

Definition ratio (n d : Z) : R := IZR n / IZR d.

(* the real value of a finite double; 0 for the others *)
Definition F2R (x : float) : R :=
  match x with
  | S754_finite s m e =>
      (if s then -1 else 1) * IZR (Zpos m) * powerRZ 2 e
  | _ => 0
  end.

Definition sign_factor (s : bool) : R := if s then -1 else 1.

(* the characters of a finite number written by [format_g] *)
Definition is_num_char (c : ascii) : bool :=
  (is_digit c || Ascii.eqb c "." || Ascii.eqb c "e" || Ascii.eqb c "-"
   || Ascii.eqb c "+")%bool.

Definition not_space (c : ascii) : bool := negb (is_space c).
Definition not_underscore (c : ascii) : bool := negb (Ascii.eqb c "_").
Definition not_sep (c : ascii) : bool := negb (is_sep c).

Definition is_zero (x : float) : bool :=
  match x with S754_zero _ => true | _ => false end.

(* same value: equal, or two zeros *)
Definition same_value (x y : float) : Prop :=
  x = y \/ (is_zero x = true /\ is_zero y = true).

Definition finite_double (x : float) : Prop :=
  valid_binary prec emax x = true /\ is_finite x = true.

Fixpoint unwords (ts : list string) : string :=
  match ts with
  | [] => EmptyString
  | t :: ts' =>
      match ts' with
      | [] => t
      | _ :: _ => t ++ " " ++ unwords ts'
      end
  end.

(* a piece that [re.split] leaves whole: not empty, no comma, no space *)
Definition is_token (t : string) : Prop :=
  t <> EmptyString /\ string_forall not_sep t = true.

(* the six free entries, in the order matrix(a b c d e f) *)
Definition free_entries (M : matrix float) : list float :=
  let '((a, c, e), (b, d, f), _) := M in [a; b; c; d; e; f].

(* a finite double of magnitude below 1000 *)
Definition small (x : float) : bool :=
  (is_finite x && negb (Qle_bool 1000 (Qabs (F2Q x))))%bool.

(* two finite doubles at most eps apart *)
Definition within (eps : Q) (x y : float) : bool :=
  (is_finite x && is_finite y && Qle_bool (Qabs (F2Q y - F2Q x)) eps)%bool.

Definition entries_within (eps : Q) (M M' : matrix float) : bool :=
  forallb (fun xy => within eps (fst xy) (snd xy))
          (combine (free_entries M) (free_entries M')).

(* the angle a wrapper carries: the first number of the one rotate
   command of its transform attribute *)
Definition carried_angle (w : Element) : option float :=
  match elem_get w "transform" with
  | Some t =>
      match findall t with
      | [(name, args)] =>
          if String.eqb (lower name) "rotate" then
            match parse_number_list args with
            | Ok (a :: _) => Some a
            | _ => None
            end
          else None
      | _ => None
      end
  | None => None
  end.

(* i x (360/27) x direction, multiplied in that order on doubles *)
Definition claimed_angle (i : nat) : float :=
  fmul (fmul (float_of_Z (Z.of_nat i)) STEP_DEG) (float_of_Z DIRECTION).

(* i x (360/27) x direction, in exact arithmetic *)
Definition exact_angle (i : nat) : Q :=
  inject_Z (Z.of_nat i) * (360 / 27) * inject_Z DIRECTION.

(* the text written for the angle of index i, read as a number *)
Definition written_angle (i : nat) : option float :=
  float_of_string (format_12g (angle_of i)).

(* the 27 numbers the wrappers carry *)
Definition rendered_angles : list float :=
  flat_map (fun i => match written_angle i with Some a => [a] | None => [] end)
           (seq 0 TOTAL_STARS).

Definition mod360 (q : Q) : Q := q - 360 * inject_Z (Qfloor (q / 360)).

Fixpoint all_distinct (l : list Q) : bool :=
  match l with
  | [] => true
  | q :: l' => (forallb (fun r => negb (Qeq_bool q r)) l' && all_distinct l')%bool
  end.

(* the pieces parse_number_list converts: the maximal runs of characters
   that are neither a comma nor white space; cur is the piece being read *)
Fixpoint pieces (s cur : string) : list string :=
  match s with
  | EmptyString => if is_empty cur then [] else [cur]
  | String c s' =>
      if is_sep c then
        if is_empty cur then pieces s' EmptyString
        else cur :: pieces s' EmptyString
      else pieces s' (cur ++ String c EmptyString)
  end.

(* pieces written one after the other, each followed by its separators *)
Fixpoint spaced (items : list (string * string)) : string :=
  match items with
  | [] => EmptyString
  | (t, sep) :: items' => t ++ sep ++ spaced items'
  end.

(* each piece is a token and is followed by a run of commas and white
   space, which only after the last piece may be empty *)
Fixpoint separated (items : list (string * string)) : Prop :=
  match items with
  | [] => True
  | (t, sep) :: items' =>
      is_token t /\ string_forall is_sep sep = true
      /\ match items' with
         | [] => True
         | _ :: _ => sep <> EmptyString
         end
      /\ separated items'
  end.

(* a matrix with integer entries near 2^30: its determinant is 984, and
   768 as the doubles compute it *)
Definition ill_conditioned_matrix : matrix float :=
  ((float_of_Q 1080305244, float_of_Q 1765300164, zero_),
   (float_of_Q 1070991865, float_of_Q 1750081401, zero_),
   (zero_, zero_, one_)).

(* mat_mul(M, mat_inv(M)) *)
Definition product_with_inverse (M : matrix float) : result (matrix float) :=
  Mi <- mat_inv M ;; Ok (mat_mul M Mi).

Definition is_nan (x : float) : bool :=
  match x with S754_nan => true | _ => false end.

(* the numbers of values each command takes *)
Definition accepted_count (c : string) (n : nat) : bool :=
  if String.eqb c "matrix" then Nat.eqb n 6
  else if String.eqb c "translate" then (Nat.eqb n 1 || Nat.eqb n 2)%bool
  else if String.eqb c "rotate" then (Nat.eqb n 1 || Nat.eqb n 3)%bool
  else if String.eqb c "scale" then (Nat.eqb n 1 || Nat.eqb n 2)%bool
  else false.

(* a rotate command whose angle, in radians, is infinite *)
Definition infinite_rotation (c : string) (vals : list float) : bool :=
  (String.eqb c "rotate"
   && match vals with
      | ang :: _ => is_infinite (radians ang)
      | [] => false
      end)%bool.

(* a finite double below 2^1022 in magnitude *)
Definition moderate (x : float) : bool :=
  (is_finite x && negb (Qle_bool (inject_Z (2 ^ 1022)) (Qabs (F2Q x))))%bool.

(* y is finite and within six parts in 10^12 of the finite x, up to half
   the least positive double *)
Definition within_12_digits (x y : float) : bool :=
  (is_finite x && is_finite y
   && Qle_bool (Qabs (F2Q y - F2Q x))
               (Qabs (F2Q x) * (6 # 1000000000000) + (1 # 2 ^ 1075)))%bool.

(* the elements met from e down along the path p, e first, each with its
   path from the root when e hangs at prefix *)
Fixpoint ancestors (prefix : path) (e : Element) (p : path) : list ref :=
  (prefix, e) ::
  match p with
  | [] => []
  | i :: p' =>
      match nth_error (children e) i with
      | Some c => ancestors (prefix ++ [i])%list c p'
      | None => []
      end
  end.

(* the wrapper of index i: a g element with the wrapper's id and the
   rotation, holding the copy of the template under the star's id; ids is
   the pair (star_id, wrapper_id) *)
Definition wrapper_of (template : Element) (cx cy : float) (i : nat)
  (ids : string * string) : Element :=
  mkElement ("{" ++ SVG_NS ++ "}g")
    [("id", snd ids); ("transform", rotate_attribute (angle_of i) cx cy)]
    None None
    [elem_set template "id" (fst ids)].

(* the identifiers minted for a list of (star_id, wrapper_id) pairs *)
Definition minted (ids : list (string * string)) : list string :=
  flat_map (fun p => [fst p; snd p]) ids.

(* "_x" written k times *)
Fixpoint x_suffix (k : nat) : string :=
  match k with
  | O => EmptyString
  | S k' => "_x" ++ x_suffix k'
  end.

(* the ValueErrors of the source: a number that does not convert, a
   wrong number of values, an unknown command, a singular matrix, the
   cosine or sine of an infinite angle *)
Definition is_value_error (e : error) : bool :=
  match e with
  | BadNumber _ | InvalidArguments _ _ | UnsupportedCommand _
  | NonInvertible | MathDomainError => true
  | _ => false
  end.

(* the parent with the elements ws appended to its children *)
Definition with_appended (ws : list Element) (e : Element) : Element :=
  with_children e (children e ++ ws)%list.

(* the identifiers carried below the root of the template *)
Definition descendant_ids (template : Element) : list string :=
  flat_map all_ids (children template).

(** * Properties *)

(** ** Characters and strings *)

Lemma space_not_alpha : forall c, is_space c = true -> is_alpha c = false.
Proof. intros [[] [] [] [] [] [] [] []]; vm_compute; congruence. Qed.

Lemma paren_not_alpha : is_alpha "(" = false.
Proof. reflexivity. Qed.

Lemma space_not_paren : forall c, is_space c = true -> Ascii.eqb c "(" = false.
Proof. intros [[] [] [] [] [] [] [] []]; vm_compute; congruence. Qed.

Lemma alpha_not_paren : forall c, is_alpha c = true -> Ascii.eqb c "(" = false.
Proof. intros [[] [] [] [] [] [] [] []]; vm_compute; congruence. Qed.

Lemma append_nil_r : forall s : string, s ++ "" = s.
Proof. induction s; simpl; congruence. Qed.

Lemma append_assoc : forall a b c : string, (a ++ b) ++ c = a ++ (b ++ c).
Proof. induction a; simpl; intros; congruence. Qed.

Lemma length_append : forall a b : string,
  String.length (a ++ b) = (String.length a + String.length b)%nat.
Proof. induction a; simpl; intros; auto. Qed.

Lemma string_forall_app : forall p a b,
  string_forall p (a ++ b) = (string_forall p a && string_forall p b)%bool.
Proof.
  induction a; simpl; intros; auto.
  rewrite IHa. now rewrite andb_assoc.
Qed.

(** [take_while] splits the string, the prefix is in the class and what
    follows does not begin in it. *)
Lemma take_while_split : forall p s t r,
  take_while p s = (t, r) ->
  s = t ++ r /\ string_forall p t = true /\
  match r with String c _ => p c = false | EmptyString => True end.
Proof.
  induction s as [|c s IH]; simpl; intros t r H.
  - inversion H; subst. auto.
  - destruct (p c) eqn:Hc.
    + destruct (take_while p s) as [t' r'] eqn:Ht. inversion H; subst.
      destruct (IH _ _ eq_refl) as (-> & Hall & Hr). simpl. rewrite Hc, Hall. auto.
    + inversion H; subst. simpl. auto.
Qed.

Lemma take_while_app : forall p g rest,
  take_while p (g ++ rest) =
  if string_forall p g
  then let '(t, r) := take_while p rest in (g ++ t, r)
  else let '(t, r) := take_while p g in (t, r ++ rest).
Proof.
  induction g as [|c g IH]; simpl; intros.
  - destruct (take_while p rest); reflexivity.
  - destruct (p c) eqn:Hc; simpl; [|reflexivity].
    rewrite IH. destruct (string_forall p g).
    + destruct (take_while p rest); reflexivity.
    + destruct (take_while p g); reflexivity.
Qed.

Lemma take_while_stop : forall p s,
  match s with String c _ => p c = false | EmptyString => True end ->
  take_while p s = (EmptyString, s).
Proof. destruct s; simpl; intros H; [reflexivity | now rewrite H]. Qed.

Lemma take_while_length : forall p s t r,
  take_while p s = (t, r) -> (String.length r <= String.length s)%nat.
Proof.
  intros p s t r H. apply take_while_split in H as (-> & _ & _).
  rewrite length_append. lia.
Qed.

(** ** The command pattern *)

Lemma match_cmd_shorter : forall s name args rest,
  match_cmd s = Some (name, args, rest) ->
  (String.length rest < String.length s)%nat.
Proof.
  unfold match_cmd. intros s name args rest H.
  destruct (take_while is_alpha s) as [n r1] eqn:H1.
  destruct (is_empty n); [discriminate|].
  destruct (take_while is_space r1) as [w r2] eqn:H2.
  destruct r2 as [|c r3]; [discriminate|].
  destruct (Ascii.eqb_spec c "("); [subst c|].
  2:{ destruct c as [[] [] [] [] [] [] [] []]; try discriminate. congruence. }
  destruct (take_while (fun c => negb (Ascii.eqb c ")")) r3) as [a r4] eqn:H3.
  destruct r4 as [|c4 r5]; [discriminate|].
  destruct (Ascii.eqb_spec c4 ")"); [subst c4|].
  2:{ destruct c4 as [[] [] [] [] [] [] [] []]; try discriminate. congruence. }
  inversion H; subst.
  apply take_while_length in H1, H2, H3. simpl in *. lia.
Qed.

(** The text of one command, whatever follows it, is matched as a whole. *)
Lemma match_cmd_command : forall name ws args rest,
  name <> EmptyString ->
  string_forall is_alpha name = true ->
  string_forall is_space ws = true ->
  string_forall no_close args = true ->
  match_cmd (name ++ ws ++ "(" ++ args ++ ")" ++ rest) = Some (name, args, rest).
Proof.
  intros name ws args rest Hne Hn Hw Ha. unfold match_cmd.
  rewrite take_while_app, Hn.
  assert (Hstop : take_while is_alpha (ws ++ "(" ++ args ++ ")" ++ rest)
                  = (EmptyString, ws ++ "(" ++ args ++ ")" ++ rest)).
  { apply take_while_stop. destruct ws as [|c ws]; simpl; [reflexivity|].
    simpl in Hw. apply andb_true_iff in Hw as [Hc _]. now apply space_not_alpha. }
  rewrite Hstop, append_nil_r.
  destruct name as [|c0 name]; [congruence|]. simpl is_empty. cbv iota.
  rewrite take_while_app, Hw. simpl.
  fold no_close. rewrite take_while_app, Ha. simpl. now rewrite append_nil_r.
Qed.

Lemma match_cmd_needs_open : forall s,
  string_forall no_open s = true -> match_cmd s = None.
Proof.
  unfold match_cmd. intros s Hs.
  destruct (take_while is_alpha s) as [n r1] eqn:H1.
  destruct (is_empty n); [reflexivity|].
  destruct (take_while is_space r1) as [w r2] eqn:H2.
  apply take_while_split in H1 as (-> & _ & _).
  apply take_while_split in H2 as (-> & _ & _).
  rewrite !string_forall_app in Hs.
  apply andb_true_iff in Hs as [_ Hs]. apply andb_true_iff in Hs as [_ Hs].
  destruct r2 as [|c r3]; [reflexivity|]. simpl in Hs.
  apply andb_true_iff in Hs as [Hc _]. unfold no_open in Hc.
  destruct c as [[] [] [] [] [] [] [] []]; try reflexivity; discriminate.
Qed.

Lemma findall_fuel_irrelevant : forall n m s,
  (String.length s <= n)%nat -> (String.length s <= m)%nat ->
  findall_fuel n s = findall_fuel m s.
Proof.
  induction n as [|n IH]; intros m s Hn Hm.
  - destruct s; simpl in Hn; [|lia]. destruct m; reflexivity.
  - destruct m as [|m]; [destruct s; simpl in Hm; [reflexivity | lia]|].
    destruct s as [|c s]; [reflexivity|]. cbn [findall_fuel].
    destruct (match_cmd (String c s)) as [[[name args] rest]|] eqn:Hm'.
    + apply match_cmd_shorter in Hm'. simpl in *. f_equal. apply IH; lia.
    + simpl in *. apply IH; lia.
Qed.

(** The two equations of [re.findall]. *)
Lemma findall_match : forall s name args rest,
  match_cmd s = Some (name, args, rest) ->
  findall s = (name, args) :: findall rest.
Proof.
  intros s name args rest H. unfold findall.
  pose proof (match_cmd_shorter _ _ _ _ H) as Hlen.
  destruct s as [|c s]; [simpl in Hlen; lia|].
  cbn [String.length findall_fuel]. rewrite H. f_equal.
  apply findall_fuel_irrelevant; simpl in *; lia.
Qed.

Lemma findall_skip : forall c s,
  match_cmd (String c s) = None -> findall (String c s) = findall s.
Proof.
  intros c s H. unfold findall. cbn [String.length findall_fuel]. now rewrite H.
Qed.

Lemma findall_command : forall name ws args rest,
  name <> EmptyString ->
  string_forall is_alpha name = true ->
  string_forall is_space ws = true ->
  string_forall no_close args = true ->
  findall (name ++ ws ++ "(" ++ args ++ ")" ++ rest)
  = (name, args) :: findall rest.
Proof.
  intros. apply findall_match. now apply match_cmd_command.
Qed.

Lemma findall_no_open : forall s,
  string_forall no_open s = true -> findall s = [].
Proof.
  induction s as [|c s IH]; intros H; [reflexivity|].
  rewrite findall_skip by now apply match_cmd_needs_open.
  apply IH. simpl in H. now apply andb_true_iff in H as [_ H].
Qed.

Lemma ends_outside_name_tail : forall c g,
  ends_outside_name (String c g) = true -> ends_outside_name g = true.
Proof. intros c [|c' g]; simpl; auto. Qed.

Lemma ends_outside_name_not_all_alpha : forall g,
  g <> EmptyString -> ends_outside_name g = true ->
  string_forall is_alpha g = false.
Proof.
  induction g as [|c g IH]; intros Hne H; [congruence|].
  destruct g as [|c' g].
  - simpl in *. destruct (is_alpha c); [discriminate | reflexivity].
  - change (string_forall is_alpha (String c (String c' g)))
      with (is_alpha c && string_forall is_alpha (String c' g))%bool.
    rewrite IH; [apply andb_false_r | discriminate | exact H].
Qed.

Lemma match_cmd_garbage : forall g rest,
  g <> EmptyString ->
  string_forall no_open g = true ->
  ends_outside_name g = true ->
  begins_with_letter rest = true ->
  match_cmd (g ++ rest) = None.
Proof.
  intros g rest Hne Hno Hend Hrest. unfold match_cmd.
  rewrite take_while_app, (ends_outside_name_not_all_alpha g Hne Hend).
  destruct (take_while is_alpha g) as [n r1] eqn:H1.
  destruct (is_empty n); [reflexivity|].
  apply take_while_split in H1 as (-> & _ & _).
  rewrite string_forall_app in Hno. apply andb_true_iff in Hno as [_ Hno].
  rewrite take_while_app.
  destruct (string_forall is_space r1) eqn:Hsp.
  - destruct rest as [|c rest].
    + simpl. reflexivity.
    + simpl in Hrest. simpl.
      destruct (is_space c) eqn:Hc.
      { apply space_not_alpha in Hc. congruence. }
      apply alpha_not_paren in Hrest.
      destruct c as [[] [] [] [] [] [] [] []]; try reflexivity; discriminate.
  - destruct (take_while is_space r1) as [w r2] eqn:H2.
    pose proof (take_while_split _ _ _ _ H2) as (E & Hw & Hr2).
    destruct r2 as [|c r2].
    + rewrite E, append_nil_r in Hsp. congruence.
    + subst r1. rewrite string_forall_app in Hno.
      apply andb_true_iff in Hno as [_ Hno]. simpl in Hno.
      apply andb_true_iff in Hno as [Hc _]. unfold no_open in Hc. simpl.
      destruct c as [[] [] [] [] [] [] [] []]; try reflexivity; discriminate.
Qed.

Lemma findall_garbage : forall g rest,
  string_forall no_open g = true ->
  ends_outside_name g = true ->
  begins_with_letter rest = true ->
  findall (g ++ rest) = findall rest.
Proof.
  induction g as [|c g IH]; intros rest Hno Hend Hrest; [reflexivity|].
  change (String c g ++ rest) with (String c (g ++ rest)).
  rewrite findall_skip.
  - apply IH; auto.
    + simpl in Hno. now apply andb_true_iff in Hno as [_ Hno].
    + now apply ends_outside_name_tail in Hend.
  - change (String c (g ++ rest)) with (String c g ++ rest).
    apply match_cmd_garbage; auto. discriminate.
Qed.

(** ** Blank strings *)

Lemma rstrip_empty : forall s,
  rstrip s = EmptyString -> string_forall is_space s = true.
Proof.
  induction s as [|c s IH]; simpl; intros H; [reflexivity|].
  destruct (rstrip s) eqn:Hr; [|discriminate].
  destruct (is_space c); [|discriminate]. simpl. now apply IH.
Qed.

Lemma lstrip_split : forall s,
  exists w, s = w ++ lstrip s /\ string_forall is_space w = true.
Proof.
  induction s as [|c s [w [E Hw]]]; simpl.
  - exists EmptyString. auto.
  - destruct (is_space c) eqn:Hc.
    + exists (String c w). simpl. rewrite Hc, Hw. split; [congruence | reflexivity].
    + exists EmptyString. auto.
Qed.

Lemma blank_all_space : forall s,
  is_empty (strip s) = true -> string_forall is_space s = true.
Proof.
  intros s H. unfold strip in H.
  destruct (rstrip (lstrip s)) eqn:Hr; [|discriminate].
  apply rstrip_empty in Hr. destruct (lstrip_split s) as [w [E Hw]].
  rewrite E, string_forall_app, Hw, Hr. reflexivity.
Qed.

Lemma all_space_no_open : forall s,
  string_forall is_space s = true -> string_forall no_open s = true.
Proof.
  induction s as [|c s IH]; simpl; intros H; [reflexivity|].
  apply andb_true_iff in H as [Hc Hs]. unfold no_open at 1.
  rewrite (space_not_paren c Hc). simpl. now apply IH.
Qed.

Lemma blank_no_match : forall s,
  (is_empty s || is_empty (strip s))%bool = true -> findall s = [].
Proof.
  intros s H. apply findall_no_open. apply orb_true_iff in H as [H|H].
  - destruct s; [reflexivity | discriminate].
  - now apply all_space_no_open, blank_all_space.
Qed.

(** ** The parser is a fold over the matches *)

Section ParserFacts.
Context {libm : Libm}.

Lemma parse_transform_findall : forall t,
  parse_transform (Some t) = run_commands mat_identity (findall t).
Proof.
  intros t. unfold parse_transform.
  destruct (is_empty t || is_empty (strip t))%bool eqn:E; [|reflexivity].
  now rewrite (blank_no_match t E).
Qed.

Lemma run_commands_app : forall pre post acc,
  run_commands acc (pre ++ post)
  = (acc' <- run_commands acc pre ;; run_commands acc' post).
Proof.
  induction pre as [|c pre IH]; intros post acc; [reflexivity|].
  simpl. destruct (transform_step acc c); simpl; [apply IH | reflexivity].
Qed.

Lemma command_matrix_lower : forall cmd cmd' vals,
  lower cmd = lower cmd' -> known_command cmd = true ->
  command_matrix cmd vals = command_matrix cmd' vals.
Proof.
  unfold known_command, command_matrix. intros cmd cmd' vals E H.
  rewrite <- E.
  destruct (String.eqb (lower cmd) "matrix"); [reflexivity|].
  destruct (String.eqb (lower cmd) "translate"); [reflexivity|].
  destruct (String.eqb (lower cmd) "rotate"); [reflexivity|].
  destruct (String.eqb (lower cmd) "scale"); [reflexivity|discriminate].
Qed.

Lemma command_matrix_unknown : forall cmd vals,
  known_command cmd = false ->
  command_matrix cmd vals = Raise (UnsupportedCommand cmd).
Proof.
  unfold known_command, command_matrix. intros cmd vals H.
  destruct (String.eqb (lower cmd) "matrix"); [discriminate|].
  destruct (String.eqb (lower cmd) "translate"); [discriminate|].
  destruct (String.eqb (lower cmd) "rotate"); [discriminate|].
  destruct (String.eqb (lower cmd) "scale"); [discriminate|reflexivity].
Qed.

Lemma mat_rotate_cases : forall a,
  (is_infinite (radians a) = true /\ mat_rotate a = Raise MathDomainError)
  \/ (is_infinite (radians a) = false
      /\ mat_rotate a
         = Ok ((cos (radians a), fneg (sin (radians a)), zero_),
               (sin (radians a), cos (radians a), zero_),
               (zero_, zero_, one_))).
Proof.
  intros a. unfold mat_rotate, math_cos, math_sin.
  destruct (is_infinite (radians a)); [left | right]; split; reflexivity.
Qed.

Lemma command_matrix_known : forall cmd vals c,
  known_command cmd = true ->
  command_matrix cmd vals <> Raise (UnsupportedCommand c).
Proof.
  unfold known_command, command_matrix. intros cmd vals c H.
  destruct (String.eqb (lower cmd) "matrix").
  { destruct vals as [|? [|? [|? [|? [|? [|? [|? ?]]]]]]]; discriminate. }
  destruct (String.eqb (lower cmd) "translate").
  { destruct vals as [|? [|? [|? ?]]]; discriminate. }
  destruct (String.eqb (lower cmd) "rotate").
  { destruct vals as [|a [|? [|? [|? ?]]]]; try discriminate;
      destruct (mat_rotate_cases a) as [[_ E]|[_ E]]; rewrite E;
      discriminate. }
  destruct (String.eqb (lower cmd) "scale").
  { destruct vals as [|? [|? [|? ?]]]; discriminate. }
  discriminate.
Qed.

End ParserFacts.

Lemma alpha_lower_char : forall c, is_alpha (lower_char c) = is_alpha c.
Proof. intros [[] [] [] [] [] [] [] []]; reflexivity. Qed.

Lemma alpha_lower : forall s,
  string_forall is_alpha (lower s) = string_forall is_alpha s.
Proof.
  induction s as [|c s IH]; simpl; [reflexivity|].
  now rewrite alpha_lower_char, IH.
Qed.

Lemma lower_nonempty : forall s t,
  lower s = t -> t <> EmptyString -> s <> EmptyString.
Proof. intros [|c s] t E H; simpl in E; congruence. Qed.

(** Lowering a command and comparing it with a name in small letters is
    spelling the name in any mix of small and capital letters. *)

Lemma in_all_chars : forall c, In c all_chars.
Proof.
  intros c. unfold all_chars. rewrite <- (ascii_nat_embedding c).
  apply in_map, in_seq. pose proof (nat_ascii_bounded c). lia.
Qed.

Lemma lower_char_matches : forall n c,
  is_lower n = true -> Ascii.eqb (lower_char c) n = letter_matches n c.
Proof.
  assert (H : forallb (fun n =>
                forallb (fun c =>
                  implb (is_lower n)
                    (Bool.eqb (Ascii.eqb (lower_char c) n) (letter_matches n c)))
                  all_chars) all_chars = true) by (vm_compute; reflexivity).
  intros n c Hn. rewrite forallb_forall in H.
  specialize (H n (in_all_chars n)). rewrite forallb_forall in H.
  specialize (H c (in_all_chars c)). rewrite Hn in H. cbn [implb] in H.
  now apply eqb_prop in H.
Qed.

Lemma lower_spells : forall name cmd,
  string_forall is_lower name = true ->
  String.eqb (lower cmd) name = spells name cmd.
Proof.
  induction name as [|n name IH]; intros [|c cmd] H; try reflexivity.
  cbn [string_forall] in H. apply andb_true_iff in H as [Hn H].
  cbn [lower spells String.eqb]. rewrite (lower_char_matches n c Hn).
  destruct (letter_matches n c); cbn [andb]; [now apply IH | reflexivity].
Qed.

Section ParserClaims.
Context {libm : Libm}.

(** A string that is one command: its parse is one turn of the loop. *)
Lemma parse_single_command : forall cmd ws args,
  cmd <> EmptyString ->
  string_forall is_alpha cmd = true ->
  string_forall is_space ws = true ->
  string_forall no_close args = true ->
  parse_transform (Some (cmd ++ ws ++ "(" ++ args ++ ")"))
  = transform_step mat_identity (cmd, args).
Proof.
  intros cmd ws args Hne Ha Hw Hc.
  rewrite parse_transform_findall.
  replace (cmd ++ ws ++ "(" ++ args ++ ")")
    with (cmd ++ ws ++ "(" ++ args ++ ")" ++ "") by reflexivity.
  rewrite findall_command by assumption.
  change (findall "") with (@nil (string * string)). simpl.
  destruct (transform_step mat_identity (cmd, args)); reflexivity.
Qed.

(** C9. Text outside the matches of the command pattern is ignored: a
    string with no match, in particular one with no opening parenthesis
    such as a bare command name, parses to the identity; garbage before a
    command, and garbage between a well-formed command and the next one,
    changes nothing and raises nothing. *)
Theorem unmatched_text_is_ignored :
  (forall t, findall t = [] -> parse_transform (Some t) = Ok mat_identity)
  /\ (forall t, string_forall no_open t = true ->
        parse_transform (Some t) = Ok mat_identity)
  /\ (forall g rest,
        string_forall no_open g = true ->
        ends_outside_name g = true ->
        begins_with_letter rest = true ->
        parse_transform (Some (g ++ rest)) = parse_transform (Some rest))
  /\ (forall name ws args g rest,
        name <> EmptyString ->
        string_forall is_alpha name = true ->
        string_forall is_space ws = true ->
        string_forall no_close args = true ->
        string_forall no_open g = true ->
        ends_outside_name g = true ->
        begins_with_letter rest = true ->
        parse_transform (Some (name ++ ws ++ "(" ++ args ++ ")" ++ g ++ rest))
        = parse_transform (Some (name ++ ws ++ "(" ++ args ++ ")" ++ rest))).
Proof.
  split; [|split; [|split]].
  - intros t H. now rewrite parse_transform_findall, H.
  - intros t H. now rewrite parse_transform_findall, findall_no_open.
  - intros g rest Hg He Hr.
    now rewrite !parse_transform_findall, findall_garbage.
  - intros name ws args g rest Hne Hn Hw Ha Hg He Hr.
    rewrite !parse_transform_findall, !findall_command by assumption.
    now rewrite findall_garbage.
Qed.

(** C7, as the code has it.  A command is one of the four exactly when
    it spells matrix, translate, rotate or scale in any mix of small and
    capital letters, and it then does what the name in small letters
    does.  A command with any other name is never skipped: it raises
    UnsupportedCommand when its argument text converts to numbers, and
    the conversion error of that text when it does not, since the numbers
    are converted before the name is looked at.  skewX(10) raises
    UnsupportedCommand. *)
Theorem unsupported_command_is_refused :
  (forall cmd,
      known_command cmd = true <->
      (spells "matrix" cmd = true \/ spells "translate" cmd = true
       \/ spells "rotate" cmd = true \/ spells "scale" cmd = true))
  /\ (forall name cmd vals,
        In name ["matrix"; "translate"; "rotate"; "scale"] ->
        spells name cmd = true ->
        command_matrix cmd vals = command_matrix name vals)
  /\ (forall cmd,
        known_command cmd = true <->
        (lower cmd = "matrix" \/ lower cmd = "translate"
         \/ lower cmd = "rotate" \/ lower cmd = "scale"))
  /\ (forall cmd cmd' vals,
        lower cmd = lower cmd' -> known_command cmd = true ->
        command_matrix cmd vals = command_matrix cmd' vals)
  /\ (forall cmd vals,
        known_command cmd = true <->
        command_matrix cmd vals <> Raise (UnsupportedCommand cmd))
  /\ (forall acc cmd args,
        known_command cmd = false ->
        (exists vals,
            parse_number_list args = Ok vals
            /\ transform_step acc (cmd, args) = Raise (UnsupportedCommand cmd))
        \/ (exists e,
              parse_number_list args = Raise e
              /\ transform_step acc (cmd, args) = Raise e))
  /\ (forall t pre cmd args post acc vals,
        findall t = (pre ++ (cmd, args) :: post)%list ->
        run_commands mat_identity pre = Ok acc ->
        parse_number_list args = Ok vals ->
        known_command cmd = false ->
        parse_transform (Some t) = Raise (UnsupportedCommand cmd))
  /\ parse_transform (Some "skewX(10)") = Raise (UnsupportedCommand "skewX").
Proof.
  assert (Hspell : forall cmd,
            known_command cmd
            = (spells "matrix" cmd || spells "translate" cmd
               || spells "rotate" cmd || spells "scale" cmd)%bool).
  { intros cmd. unfold known_command.
    now rewrite !lower_spells by reflexivity. }
  split; [|split; [|split; [|split; [|split; [|split; [|split]]]]]].
  - intros cmd. rewrite Hspell, !orb_true_iff. tauto.
  - intros name cmd vals Hin Hs.
    apply command_matrix_lower.
    + assert (Hl : string_forall is_lower name = true)
        by (destruct Hin as [<-|[<-|[<-|[<-|[]]]]]; reflexivity).
      rewrite <- (lower_spells name cmd Hl) in Hs.
      apply String.eqb_eq in Hs. rewrite Hs.
      destruct Hin as [<-|[<-|[<-|[<-|[]]]]]; reflexivity.
    + rewrite Hspell.
      destruct Hin as [<-|[<-|[<-|[<-|[]]]]]; rewrite Hs;
        rewrite ?orb_true_r; reflexivity.
  - intros cmd. unfold known_command.
    rewrite !orb_true_iff, !String.eqb_eq. tauto.
  - apply command_matrix_lower.
  - intros cmd vals. split.
    + intros H. now apply command_matrix_known.
    + intros H. destruct (known_command cmd) eqn:E; [reflexivity|].
      exfalso. apply H. now apply command_matrix_unknown.
  - intros acc cmd args H. unfold transform_step. cbn [fst snd].
    destruct (parse_number_list args) as [vals|e]; cbn [bind].
    + left. exists vals. split; [reflexivity|].
      now rewrite command_matrix_unknown.
    + right. exists e. split; reflexivity.
  - intros t pre cmd args post acc vals Hf Hpre Hargs Hk.
    rewrite parse_transform_findall, Hf, run_commands_app, Hpre. simpl.
    unfold transform_step. simpl. rewrite Hargs. simpl.
    now rewrite command_matrix_unknown.
  - vm_compute. reflexivity.
Qed.

(** C7 as the spec states it fails: a parsed command with another name
    does not always end in UnsupportedCommand.  In skewX(10deg) the
    argument text is converted first, and float raises on 10deg. *)
Lemma unsupported_command_with_bad_number :
  ~ (forall (libm : Libm) t pre cmd args post acc,
        findall t = (pre ++ (cmd, args) :: post)%list ->
        run_commands mat_identity pre = Ok acc ->
        known_command cmd = false ->
        parse_transform (Some t) = Raise (UnsupportedCommand cmd)).
Proof.
  intros H.
  specialize (H example_libm "skewX(10deg)" [] "skewX" "10deg" [] mat_identity
                eq_refl eq_refl eq_refl).
  vm_compute in H. discriminate.
Qed.

(** C10. translate with one argument tx is translate(tx, 0), and scale
    with one argument s is scale(s, s): in the loop body, and for the whole
    string of such a command against any spelling of the two-argument
    one. *)
Theorem single_argument_defaults :
  forall (cmd ws args args2 : string) (v : float) (acc : matrix float),
  string_forall is_space ws = true ->
  string_forall no_close args = true ->
  string_forall no_close args2 = true ->
  parse_number_list args = Ok [v] ->
  (lower cmd = "translate" ->
     transform_step acc (cmd, args) = Ok (mat_mul acc (mat_translate v zero_))
     /\ parse_transform (Some (cmd ++ ws ++ "(" ++ args ++ ")"))
        = Ok (mat_mul mat_identity (mat_translate v zero_))
     /\ (parse_number_list args2 = Ok [v; zero_] ->
         parse_transform (Some (cmd ++ ws ++ "(" ++ args ++ ")"))
         = parse_transform (Some (cmd ++ ws ++ "(" ++ args2 ++ ")"))))
  /\ (lower cmd = "scale" ->
     transform_step acc (cmd, args) = Ok (mat_mul acc (mat_scale v v))
     /\ parse_transform (Some (cmd ++ ws ++ "(" ++ args ++ ")"))
        = Ok (mat_mul mat_identity (mat_scale v v))
     /\ (parse_number_list args2 = Ok [v; v] ->
         parse_transform (Some (cmd ++ ws ++ "(" ++ args ++ ")"))
         = parse_transform (Some (cmd ++ ws ++ "(" ++ args2 ++ ")")))).
Proof.
  intros cmd ws args args2 v acc Hw Ha Ha2 Hv.
  assert (Hstep : forall name m a,
             lower cmd = name -> name <> EmptyString ->
             string_forall is_alpha name = true ->
             command_matrix cmd [v] = Ok m ->
             transform_step a (cmd, args) = Ok (mat_mul a m)).
  { intros name m a _ _ _ Hm. unfold transform_step. simpl.
    rewrite Hv. simpl. now rewrite Hm. }
  assert (Hwf : forall name, lower cmd = name -> name <> EmptyString ->
             string_forall is_alpha name = true ->
             cmd <> EmptyString /\ string_forall is_alpha cmd = true).
  { intros name E Hne Hal. split; [eapply lower_nonempty; eauto|].
    now rewrite <- alpha_lower, E. }
  split; intros E.
  - assert (Hm : command_matrix cmd [v] = Ok (mat_translate v zero_)).
    { unfold command_matrix. now rewrite E. }
    destruct (Hwf _ E) as [Hne Hal]; [discriminate | reflexivity |].
    split; [|split].
    + eapply Hstep; eauto. discriminate.
    + rewrite parse_single_command by assumption.
      eapply Hstep; eauto. discriminate.
    + intros Hv2. rewrite !parse_single_command by assumption.
      erewrite Hstep by (eauto; discriminate).
      unfold transform_step. simpl. rewrite Hv2. simpl.
      unfold command_matrix. now rewrite E.
  - assert (Hm : command_matrix cmd [v] = Ok (mat_scale v v)).
    { unfold command_matrix. now rewrite E. }
    destruct (Hwf _ E) as [Hne Hal]; [discriminate | reflexivity |].
    split; [|split].
    + eapply Hstep; eauto. discriminate.
    + rewrite parse_single_command by assumption.
      eapply Hstep; eauto. discriminate.
    + intros Hv2. rewrite !parse_single_command by assumption.
      erewrite Hstep by (eauto; discriminate).
      unfold transform_step. simpl. rewrite Hv2. simpl.
      unfold command_matrix. now rewrite E.
Qed.

End ParserClaims.

Lemma unmatched_text_is_ignored_witness :
  parse_transform (libm := example_libm) (Some "translate") = Ok mat_identity
  /\ parse_transform (libm := example_libm)
       (Some "translate(10), junk; scale(2)")
     = parse_transform (libm := example_libm) (Some "translate(10)scale(2)").
Proof.
  split.
  - apply (proj1 (proj2 (unmatched_text_is_ignored (libm := example_libm)))).
    reflexivity.
  - apply (proj2 (proj2 (proj2 (unmatched_text_is_ignored (libm := example_libm))))
             "translate" "" "10" ", junk; " "scale(2)");
      first [ reflexivity | discriminate ].
Defined.

Lemma unsupported_command_is_refused_witness :
  known_command "skewX" = false
  /\ parse_transform (libm := example_libm) (Some "scale(2) skewX(10) junk(")
     = Raise (UnsupportedCommand "skewX")
  /\ command_matrix (libm := example_libm) "TransLATE" [float_of_Q 5]
     = command_matrix (libm := example_libm) "translate" [float_of_Q 5].
Proof.
  split; [reflexivity|]. split.
  - apply (proj1 (proj2 (proj2 (proj2 (proj2 (proj2 (proj2
             (unsupported_command_is_refused (libm := example_libm))))))))
             _ [("scale", "2")] "skewX" "10" []
             (mat_scale (float_of_Q 2) (float_of_Q 2))
             [float_of_Q 10]);
      vm_compute; reflexivity.
  - apply (proj1 (proj2 (unsupported_command_is_refused (libm := example_libm)))
             "translate" "TransLATE" [float_of_Q 5]).
    + right. left. reflexivity.
    + reflexivity.
Defined.

Lemma single_argument_defaults_witness :
  parse_number_list "5" = Ok [float_of_Q 5]
  /\ parse_transform (libm := example_libm) (Some "Translate(5)")
     = parse_transform (libm := example_libm) (Some "Translate(5, 0)")
  /\ parse_transform (libm := example_libm) (Some "scale (5)")
     = parse_transform (libm := example_libm) (Some "scale (5 5)").
Proof.
  assert (H5 : parse_number_list "5" = Ok [float_of_Q 5])
    by (vm_compute; reflexivity).
  split; [exact H5|]. split.
  - apply (proj1 (single_argument_defaults (libm := example_libm)
                    "Translate" "" "5" "5, 0" (float_of_Q 5) mat_identity
                    eq_refl eq_refl eq_refl H5) eq_refl).
    vm_compute. reflexivity.
  - apply (proj2 (single_argument_defaults (libm := example_libm)
                    "scale" " " "5" "5 5" (float_of_Q 5) mat_identity
                    eq_refl eq_refl eq_refl H5) eq_refl).
    vm_compute. reflexivity.
Defined.

(** ** Inversion *)

Section InverseGuard.
Context {F : Type} {num : Number F}.

Lemma mat_inv_guard : forall M : matrix F,
  mat_inv M = Raise NonInvertible
  <-> less (absolute (det2 M)) (lit (1 # 1000000000000)) = true.
Proof.
  intros [[[[a c] e] [[b d] f]] r2]. unfold mat_inv, det2.
  destruct (less _ _); split; intros H; try reflexivity; discriminate.
Qed.

Lemma mat_inv_returns : forall M : matrix F,
  less (absolute (det2 M)) (lit (1 # 1000000000000)) = false ->
  exists Mi, mat_inv M = Ok Mi.
Proof.
  intros [[[[a c] e] [[b d] f]] r2]. unfold mat_inv, det2.
  intros ->. eauto.
Qed.

Lemma mat_inv_only_error : forall (M : matrix F) err,
  mat_inv M = Raise err -> err = NonInvertible.
Proof.
  intros [[[[a c] e] [[b d] f]] r2] err. unfold mat_inv.
  destruct (less _ _); intros H; inversion H; reflexivity.
Qed.
End InverseGuard.

(** ** The rotation centre *)

Lemma feq_finite : forall x s m e,
  feq x (S754_finite s m e) = true -> x = S754_finite s m e.
Proof.
  intros [sx|sx| |sx mx ex] s m e; unfold feq, SFeqb; simpl;
    try discriminate.
  - destruct s; discriminate.
  - destruct sx; discriminate.
  - change (PosDef.Pos.compare_cont Eq mx m) with (Pos.compare mx m).
    destruct sx, s; try discriminate;
      destruct (Z.compare_spec ex e); try discriminate; subst;
      destruct (Pos.compare_spec mx m); try discriminate; now subst.
Qed.

Lemma feq_zero : forall x s,
  feq x (S754_zero s) = true -> x = S754_zero true \/ x = S754_zero false.
Proof.
  intros [sx|sx| |sx mx ex] s; unfold feq, SFeqb; simpl; try discriminate.
  - destruct sx; auto.
  - destruct sx; discriminate.
  - destruct sx; discriminate.
Qed.

Section Centre.
Context {libm : Libm}.

Lemma center_of_translation : forall M : matrix float,
  affine_eq M (mat_translate (float_of_Q 100) (float_of_Q 100)) = true ->
  (global_to_parent <- mat_inv M ;;
   Ok (mat_apply global_to_parent GLOBAL_CENTER_X GLOBAL_CENTER_Y))
  = Ok (float_of_Q 650, float_of_Q 415).
Proof.
  intros [[[[a c] e] [[b d] f]] r2] H. unfold affine_eq in H.
  change (mat_translate (float_of_Q 100) (float_of_Q 100))
    with (((float_of_Q 1, float_of_Q 0, float_of_Q 100),
           (float_of_Q 0, float_of_Q 1, float_of_Q 100),
           (float_of_Q 0, float_of_Q 0, float_of_Q 1)) : matrix float) in H.
  cbv iota beta in H.
  repeat (apply andb_true_iff in H; destruct H as [H ?]).
  repeat match goal with
         | E : feq _ (float_of_Q ?q) = true |- _ =>
             let x := eval vm_compute in (float_of_Q q) in
             change (float_of_Q q) with x in E;
             first [ apply feq_finite in E | apply feq_zero in E; destruct E ];
             subst
         end;
  vm_compute; reflexivity.
Qed.

(** C2, as the code has it.  When the cumulative transform of the
    template's parent, the element the wrappers are appended to, equals
    translate(100,100), the centre (750,515) becomes (650.0, 415.0) in the
    parent's coordinates, and it is the centre a completed run reports. *)
Theorem center_under_translated_parent :
  forall (root : Element) (template parent : ref) (M : matrix float),
  find_element_by_id root TEMPLATE_ID = Some template ->
  dict_get path_eqb (fst template) (build_parent_map root) = Some parent ->
  cumulative_transform_to_parent parent (build_parent_map root) = Ok M ->
  affine_eq M (mat_translate (float_of_Q 100) (float_of_Q 100)) = true ->
  rotation_center parent (build_parent_map root)
  = Ok (float_of_Q 650, float_of_Q 415)
  /\ (forall s c d,
        main root = Ok (Written s c d) -> c = (float_of_Q 650, float_of_Q 415)).
Proof.
  intros root template parent M Hfind Hpar Hcum Heq.
  assert (Hc : rotation_center parent (build_parent_map root)
               = Ok (float_of_Q 650, float_of_Q 415)).
  { unfold rotation_center. rewrite Hcum.
    exact (center_of_translation M Heq). }
  split; [exact Hc|].
  intros s c d Hmain. unfold main in Hmain.
  rewrite Hfind, Hpar, Hc in Hmain. cbn [bind] in Hmain.
  destruct (delete_phase _ _) as [[s1 n]|] in Hmain; [|discriminate].
  cbn [bind] in Hmain.
  destruct (stamp_phase _ _ _ _) in Hmain; [|discriminate].
  cbn [bind] in Hmain. now inversion Hmain.
Qed.

End Centre.

Lemma center_under_translated_parent_witness :
  find_element_by_id scenario_document TEMPLATE_ID
  = Some ([0; 0]%nat, element "g" [("id", "g16532")] [])
  /\ rotation_center (libm := example_libm)
       ([0%nat],
        element "g" [("transform", "translate(100,100)")]
          [element "g" [("id", "g16532")] []])
       (build_parent_map scenario_document)
     = Ok (float_of_Q 650, float_of_Q 415).
Proof.
  split; [reflexivity|].
  refine (proj1 (center_under_translated_parent (libm := example_libm)
            scenario_document _ _ _ _ _ _ _)).
  - reflexivity.
  - vm_compute. reflexivity.
  - vm_compute. reflexivity.
  - vm_compute. reflexivity.
Defined.

(** C2 as the spec states it fails: here the template's own local-to-global
    transform is translate(100,100), through its own transform attribute,
    its parent is the root, and the centre stays (750, 515). *)
Lemma center_ignores_template_transform :
  ~ (forall (libm : Libm) (root : Element) (template parent : ref)
       (M : matrix float),
       find_element_by_id root TEMPLATE_ID = Some template ->
       dict_get path_eqb (fst template) (build_parent_map root) = Some parent ->
       cumulative_transform_to_element template (build_parent_map root) = Ok M ->
       affine_eq M (mat_translate (float_of_Q 100) (float_of_Q 100)) = true ->
       rotation_center parent (build_parent_map root)
       = Ok (float_of_Q 650, float_of_Q 415)).
Proof.
  intros H.
  specialize (H example_libm own_transform_document
                ([0%nat],
                 element "g" [("id", "g16532");
                              ("transform", "translate(100,100)")] [])
                ([], own_transform_document)
                (mat_translate (float_of_Q 100) (float_of_Q 100))).
  assert (E : rotation_center (libm := example_libm) ([], own_transform_document)
                (build_parent_map own_transform_document)
              = Ok (float_of_Q 750, float_of_Q 515)) by (vm_compute; reflexivity).
  rewrite E in H.
  assert (Hf : Ok (float_of_Q 750, float_of_Q 515)
               = Ok (float_of_Q 650, float_of_Q 415)).
  { apply H; vm_compute; reflexivity. }
  vm_compute in Hf. discriminate.
Qed.

(** ** Trees and paths *)

Lemma Element_induction : forall P : Element -> Prop,
  (forall t a tx tl cs, Forall P cs -> P (mkElement t a tx tl cs)) ->
  forall e, P e.
Proof.
  intros P H. fix IH 1. intros [t a tx tl cs]. apply H.
  induction cs as [|c cs IHcs]; constructor; [apply IH | exact IHcs].
Qed.

Lemma iter_unfold : forall e, iter e = ([], e) :: iter_list 0 (children e).
Proof.
  intros [t a tx tl cs]. simpl. apply f_equal. generalize 0%nat.
  induction cs as [|c cs IH]; intros i; simpl; [reflexivity|].
  now rewrite IH.
Qed.

Lemma iter_list_in : forall cs i p e,
  In (p, e) (iter_list i cs) ->
  exists j c p', p = (i + j)%nat :: p' /\ nth_error cs j = Some c
                 /\ In (p', e) (iter c).
Proof.
  induction cs as [|c cs IH]; intros i p e H; simpl in H; [contradiction|].
  apply in_app_or in H as [H|H].
  - apply in_map_iff in H as [[p' e'] [E Hin]]. inversion E; subst.
    exists 0%nat, c, p'. rewrite Nat.add_0_r. auto.
  - apply IH in H as (j & c' & p' & -> & Hn & Hin).
    exists (S j), c', p'. split; [f_equal; lia | auto].
Qed.

Lemma in_iter_list : forall cs i j c p e,
  nth_error cs j = Some c -> In (p, e) (iter c) ->
  In ((i + j)%nat :: p, e) (iter_list i cs).
Proof.
  induction cs as [|c0 cs IH]; intros i j c p e Hn Hin.
  - destruct j; discriminate.
  - simpl. apply in_or_app. destruct j as [|j]; simpl in Hn.
    + inversion Hn; subst. left. rewrite Nat.add_0_r.
      apply in_map_iff. exists (p, e). auto.
    + right. replace (i + S j)%nat with (S i + j)%nat by lia. eapply IH; eauto.
Qed.

(** What [iter] yields is what hangs at the path. *)
Lemma iter_get_at : forall root p e,
  In (p, e) (iter root) -> get_at root p = Some e.
Proof.
  induction root as [t a tx tl cs IH] using Element_induction.
  intros p e H. rewrite iter_unfold in H. destruct H as [H|H].
  - inversion H; subst. reflexivity.
  - apply iter_list_in in H as (j & c & p' & -> & Hn & Hin).
    simpl in *. rewrite Hn. rewrite Forall_forall in IH.
    apply IH; [eapply nth_error_In; eauto | exact Hin].
Qed.

Lemma get_at_iter : forall root p e,
  get_at root p = Some e -> In (p, e) (iter root).
Proof.
  induction root as [t a tx tl cs IH] using Element_induction.
  intros p e H. rewrite iter_unfold. destruct p as [|j p]; simpl in H.
  - inversion H. now left.
  - right. destruct (nth_error cs j) as [c|] eqn:Hn; [|discriminate].
    rewrite Forall_forall in IH.
    apply (in_iter_list cs 0 j c p e Hn).
    apply IH; [eapply nth_error_In; eauto | exact H].
Qed.

Lemma find_element_by_id_get_at : forall root sid elem,
  find_element_by_id root sid = Some elem ->
  get_at root (fst elem) = Some (snd elem)
  /\ elem_get (snd elem) "id" = Some sid.
Proof.
  unfold find_element_by_id. intros root sid [p e] H.
  apply find_some in H as [Hin Hid]. simpl in *. split.
  - now apply iter_get_at.
  - destruct (elem_get e "id") as [v|]; [|discriminate].
    apply String.eqb_eq in Hid. now subst.
Qed.

(** ** The parent map *)

Lemma path_eqb_eq : forall p q, path_eqb p q = true <-> p = q.
Proof.
  intros p q. unfold path_eqb.
  destruct (list_eq_dec Nat.eq_dec p q); split; intros; congruence.
Qed.

Lemma dict_set_forall : forall (P : path * ref -> Prop) k v d,
  P (k, v) -> Forall P d -> Forall P (dict_set path_eqb k v d).
Proof.
  intros P k v d Hkv. induction d as [|[k' v'] d IH]; intros H; simpl.
  - constructor; auto.
  - inversion H; subst. destruct (path_eqb k k'); constructor; auto.
Qed.

Lemma dict_get_in : forall k (d : list (path * ref)) v,
  dict_get path_eqb k d = Some v -> In (k, v) d.
Proof.
  induction d as [|[k' v'] d IH]; intros v H; simpl in H; [discriminate|].
  destruct (path_eqb k k') eqn:E.
  - apply path_eqb_eq in E. inversion H; subst. now left.
  - right. auto.
Qed.

Lemma build_parent_map_bindings : forall root,
  Forall (child_binding root) (build_parent_map root).
Proof.
  intros root. unfold build_parent_map.
  assert (Hgen : forall l d,
             (forall pe, In pe l -> get_at root (fst pe) = Some (snd pe)) ->
             Forall (child_binding root) d ->
             Forall (child_binding root)
               (fold_left
                  (fun d parent =>
                     fold_left
                       (fun d i =>
                          dict_set path_eqb (fst parent ++ [i])%list parent d)
                       (seq 0 (List.length (children (snd parent)))) d)
                  l d)).
  { induction l as [|parent l IH]; intros d Hl Hd; simpl; [exact Hd|].
    apply IH; [intros; apply Hl; now right|].
    assert (Hp : get_at root (fst parent) = Some (snd parent))
      by (apply Hl; now left).
    assert (Hin : forall idxs d0,
               (forall i, In i idxs ->
                          (i < List.length (children (snd parent)))%nat) ->
               Forall (child_binding root) d0 ->
               Forall (child_binding root)
                 (fold_left
                    (fun d i =>
                       dict_set path_eqb (fst parent ++ [i])%list parent d)
                    idxs d0)).
    { induction idxs as [|i idxs IHis]; intros d0 His Hd0; simpl; [exact Hd0|].
      apply IHis; [intros; apply His; now right|].
      apply dict_set_forall; [|exact Hd0].
      destruct (nth_error (children (snd parent)) i) as [c|] eqn:Hn.
      - exists i, c. simpl. auto.
      - apply nth_error_None in Hn. specialize (His i (or_introl eq_refl)). lia. }
    apply Hin; [|exact Hd].
    intros i Hi. apply in_seq in Hi. exact (proj2 Hi). }
  apply Hgen; [|constructor].
  intros [p e] H. now apply iter_get_at.
Qed.

(** What the parent map answers for an element is the element it is a
    child of, in the tree the map was built from. *)
Lemma parent_map_get : forall root k par,
  dict_get path_eqb k (build_parent_map root) = Some par ->
  exists i c,
    k = (fst par ++ [i])%list
    /\ get_at root (fst par) = Some (snd par)
    /\ nth_error (children (snd par)) i = Some c
    /\ get_at root k = Some c.
Proof.
  intros root k par H. apply dict_get_in in H.
  pose proof (build_parent_map_bindings root) as Hall.
  rewrite Forall_forall in Hall. destruct (Hall _ H) as (i & c & E & Hg & Hn).
  simpl in *. exists i, c. repeat split; auto. subst k.
  clear H Hall. revert Hg. generalize (fst par) as p. generalize root as r.
  intros r p. revert r. induction p as [|j p IH]; intros r Hg; simpl in *.
  - inversion Hg; subst. now rewrite Hn.
  - destruct (nth_error (children r) j); [auto | discriminate].
Qed.

Lemma parent_map_root : forall root,
  dict_get path_eqb [] (build_parent_map root) = None.
Proof.
  intros root. destruct (dict_get path_eqb [] (build_parent_map root)) eqn:E;
    [|reflexivity].
  apply parent_map_get in E as (i & c & E & _). destruct (fst r); discriminate.
Qed.

(** ** Editing the tree *)

Lemma nth_error_remove_nth_lt : forall {A} (l : list A) i j,
  (j < i)%nat -> nth_error (remove_nth i l) j = nth_error l j.
Proof.
  induction l as [|a l IH]; intros i j H; [destruct i; reflexivity|].
  destruct i as [|i]; [lia|]. destruct j as [|j]; simpl; [reflexivity|].
  apply IH. lia.
Qed.

Lemma nth_error_remove_nth_ge : forall {A} (l : list A) i j,
  (i <= j)%nat -> nth_error (remove_nth i l) j = nth_error l (S j).
Proof.
  induction l as [|a l IH]; intros i j H.
  - simpl. destruct i, j; reflexivity.
  - destruct i as [|i]; [reflexivity|]. destruct j as [|j]; [lia|].
    simpl. apply IH. lia.
Qed.

Lemma nth_error_update_nth_eq : forall {A} (f : A -> A) (l : list A) i,
  nth_error (update_nth f i l) i = option_map f (nth_error l i).
Proof.
  induction l as [|a l IH]; intros [|i]; simpl; auto.
Qed.

Lemma nth_error_update_nth_neq : forall {A} (f : A -> A) (l : list A) i j,
  i <> j -> nth_error (update_nth f i l) j = nth_error l j.
Proof.
  induction l as [|a l IH]; intros [|i] [|j] H; simpl; auto; congruence.
Qed.

Lemma get_at_update_at : forall f p e x,
  get_at e p = Some x -> get_at (update_at f e p) p = Some (f x).
Proof.
  induction p as [|i p IH]; intros e x H; simpl in *.
  - now inversion H.
  - rewrite nth_error_update_nth_eq.
    destruct (nth_error (children e) i) as [c|]; [|discriminate].
    simpl. now apply IH.
Qed.

Lemma child_index_app : forall par elem i,
  child_index par elem = Some i <-> elem = (par ++ [i])%list.
Proof.
  induction par as [|j par IH]; intros elem i; simpl.
  - destruct elem as [|k [|k' elem]]; split; intros H; try discriminate;
      congruence.
  - destruct elem as [|k elem]; [split; discriminate|].
    destruct (Nat.eqb_spec j k).
    + subst. rewrite IH. split; intros H; congruence.
    + split; intros H; [discriminate | congruence].
Qed.

(** Removing the child of index i of the element at par: whatever hung at
    a path p is found again where [after_removal] says, in the document or
    in the removed subtree. *)
Lemma after_removal_tracks : forall par i e p x,
  get_at e p = Some x ->
  match after_removal (par ++ [i])%list p with
  | Some p' => exists x', get_at (update_at (without_child i) e par) p' = Some x'
  | None =>
      exists fragment,
        get_at e (par ++ [i])%list = Some fragment
        /\ get_at fragment (skipn (List.length (par ++ [i])%list) p) = Some x
  end.
Proof.
  induction par as [|k par IH]; intros i e p x H.
  - destruct p as [|j p]; simpl; [eauto|].
    simpl in H. destruct (nth_error (children e) j) as [c|] eqn:Hn; [|discriminate].
    destruct (Nat.eqb_spec j i).
    + subst. simpl. rewrite Hn. eauto.
    + destruct (Nat.ltb_spec i j).
      * exists x. simpl. rewrite nth_error_remove_nth_ge by lia.
        replace (S (Nat.pred j)) with j by lia. now rewrite Hn.
      * exists x. simpl. rewrite nth_error_remove_nth_lt by lia. now rewrite Hn.
  - destruct p as [|j p]; simpl; [eauto|].
    simpl in H. destruct (nth_error (children e) j) as [c|] eqn:Hn; [|discriminate].
    destruct (Nat.eqb_spec j k).
    + subst. specialize (IH i c p x H).
      destruct (after_removal (par ++ [i])%list p) as [p'|]; simpl.
      * destruct IH as [x' IH]. exists x'.
        rewrite nth_error_update_nth_eq, Hn. exact IH.
      * destruct IH as (fragment & Hf & Hx). exists fragment.
        rewrite Hn. auto.
    + destruct (par ++ [i])%list eqn:E; [destruct par; discriminate|].
      exists x. simpl. rewrite nth_error_update_nth_neq by congruence.
      now rewrite Hn.
Qed.

(** ** The deletion phase never raises *)

Lemma remove_elem_ok : forall s par elem i fragment pe,
  elem = (par ++ [i])%list ->
  get_at (doc s) par = Some pe ->
  get_at (doc s) elem = Some fragment ->
  parent_resolves s ->
  exists s', remove_elem s par elem = Ok s' /\ parent_resolves s'
             /\ doc s' = update_at (without_child i) (doc s) par.
Proof.
  intros s par elem i fragment pe E Hpar Helem [x Hx]. unfold remove_elem.
  apply child_index_app in E as Hci. rewrite Hci, Hpar, Helem.
  eexists. split; [reflexivity|]. split; [|reflexivity].
  unfold parent_resolves, parent_element in *. simpl.
  destruct (star_parent s) as [p|f p]; [|eauto].
  pose proof (after_removal_tracks par i (doc s) p x Hx) as Ht. subst elem.
  destruct (after_removal (par ++ [i])%list p) as [p'|].
  - exact Ht.
  - destruct Ht as (fragment' & Hf & Hx'). rewrite Helem in Hf.
    inversion Hf; subst. eauto.
Qed.

Lemma delete_one_ok : forall s n sid,
  parent_resolves s ->
  exists s' n', delete_one (s, n) sid = Ok (s', n') /\ parent_resolves s'.
Proof.
  intros s n sid Hs. unfold delete_one.
  destruct (find_element_by_id (doc s) sid) as [elem|] eqn:Hf; [|eauto].
  destruct (dict_get path_eqb (fst elem) (build_parent_map (doc s)))
    as [par|] eqn:Hp; [|eauto].
  apply parent_map_get in Hp as (i & c & E & Hpar & Hn & Hc).
  destruct (remove_elem_ok s (fst par) (fst elem) i c (snd par) E Hpar Hc Hs)
    as (s' & Hr & Hs' & _).
  rewrite Hr. simpl. eauto.
Qed.

Lemma delete_loop_ok : forall ids s n,
  parent_resolves s ->
  exists s' n', delete_loop (s, n) ids = Ok (s', n') /\ parent_resolves s'.
Proof.
  induction ids as [|sid ids IH]; intros s n Hs; cbn [delete_loop]; [eauto|].
  destruct (delete_one_ok s n sid Hs) as (s1 & n1 & H1 & Hs1).
  rewrite H1. cbn [bind]. apply IH. exact Hs1.
Qed.

Lemma remove_elem_total : forall s par elem i fragment pe,
  elem = (par ++ [i])%list ->
  get_at (doc s) par = Some pe ->
  get_at (doc s) elem = Some fragment ->
  exists s', remove_elem s par elem = Ok s'
             /\ doc s' = update_at (without_child i) (doc s) par.
Proof.
  intros s par elem i fragment pe E Hpar Helem. unfold remove_elem.
  apply child_index_app in E as Hci. rewrite Hci, Hpar, Helem.
  eexists. split; reflexivity.
Qed.

Lemma delete_one_total : forall st sid, exists st', delete_one st sid = Ok st'.
Proof.
  intros [s n] sid. unfold delete_one.
  destruct (find_element_by_id (doc s) sid) as [elem|] eqn:Hf; [|eauto].
  destruct (dict_get path_eqb (fst elem) (build_parent_map (doc s)))
    as [par|] eqn:Hp; [|eauto].
  apply parent_map_get in Hp as (i & c & E & Hpar & Hn & Hc).
  destruct (remove_elem_total s (fst par) (fst elem) i c (snd par) E Hpar Hc)
    as (s' & Hr & _).
  rewrite Hr. simpl. eauto.
Qed.

Lemma delete_loop_total : forall ids st, exists st', delete_loop st ids = Ok st'.
Proof.
  induction ids as [|sid ids IH]; intros st; cbn [delete_loop]; [eauto|].
  destruct (delete_one_total st sid) as [st1 H1]. rewrite H1. cbn [bind].
  apply IH.
Qed.

(** ** Identifiers in document order *)

Lemma all_ids_iter_list : forall cs i,
  flat_map (fun pe => id_of (snd pe)) (iter_list i cs) = flat_map all_ids cs.
Proof.
  induction cs as [|c cs IH]; intros i; simpl; [reflexivity|].
  rewrite flat_map_app, IH. f_equal. unfold all_ids.
  rewrite !flat_map_concat_map, map_map. reflexivity.
Qed.

Lemma all_ids_unfold : forall e,
  all_ids e = (id_of e ++ flat_map all_ids (children e))%list.
Proof.
  intros e. unfold all_ids at 1. rewrite iter_unfold. simpl.
  now rewrite all_ids_iter_list.
Qed.

Lemma in_all_ids : forall root sid,
  In sid (all_ids root) <->
  exists pe, In pe (iter root) /\ elem_get (snd pe) "id" = Some sid.
Proof.
  intros root sid. unfold all_ids. rewrite in_flat_map. split.
  - intros [pe [Hin Hid]]. exists pe. split; [exact Hin|].
    unfold id_of in Hid. destruct (elem_get (snd pe) "id"); simpl in Hid.
    + destruct Hid as [->|[]]. reflexivity.
    + contradiction.
  - intros [pe [Hin Hid]]. exists pe. split; [exact Hin|].
    unfold id_of. rewrite Hid. now left.
Qed.

Lemma find_none_iff : forall root sid,
  find_element_by_id root sid = None <-> ~ In sid (all_ids root).
Proof.
  intros root sid. unfold find_element_by_id. split.
  - intros H Hin. apply in_all_ids in Hin as [pe [Hin Hid]].
    pose proof (find_none _ _ H pe Hin) as Hf. simpl in Hf.
    rewrite Hid, String.eqb_refl in Hf. discriminate.
  - intros H. destruct (find _ (iter root)) as [pe|] eqn:Hf; [|reflexivity].
    exfalso. apply H. apply find_some in Hf as [Hin Hid].
    apply in_all_ids. exists pe. split; [exact Hin|].
    destruct (elem_get (snd pe) "id") as [v|]; [|discriminate].
    apply String.eqb_eq in Hid. now subst.
Qed.

Lemma nth_error_split_remove : forall {A} (l : list A) i x,
  nth_error l i = Some x ->
  exists l1 l2, l = (l1 ++ x :: l2)%list /\ remove_nth i l = (l1 ++ l2)%list.
Proof.
  induction l as [|a l IH]; intros [|i] x H; simpl in H; try discriminate.
  - inversion H; subst. exists [], l. auto.
  - destruct (IH i x H) as (l1 & l2 & -> & E).
    exists (a :: l1), l2. simpl. now rewrite E.
Qed.

Lemma nth_error_split_update : forall {A} (f : A -> A) (l : list A) i x,
  nth_error l i = Some x ->
  exists l1 l2, l = (l1 ++ x :: l2)%list
                /\ update_nth f i l = (l1 ++ f x :: l2)%list.
Proof.
  induction l as [|a l IH]; intros [|i] x H; simpl in H; try discriminate.
  - inversion H; subst. exists [], l. auto.
  - destruct (IH i x H) as (l1 & l2 & -> & E).
    exists (a :: l1), l2. simpl. now rewrite E.
Qed.

Lemma id_of_with_children : forall e cs, id_of (with_children e cs) = id_of e.
Proof. reflexivity. Qed.

(** Removing a subtree removes its identifiers from the document order and
    leaves the others as they stand. *)
Lemma all_ids_removal : forall par i e fragment,
  get_at e (par ++ [i])%list = Some fragment ->
  exists A B,
    all_ids e = (A ++ all_ids fragment ++ B)%list
    /\ all_ids (update_at (without_child i) e par) = (A ++ B)%list.
Proof.
  induction par as [|k par IH]; intros i e fragment H; simpl in H.
  - destruct (nth_error (children e) i) as [c|] eqn:Hn; [|discriminate].
    inversion H; subst c.
    destruct (nth_error_split_remove _ _ _ Hn) as (l1 & l2 & E1 & E2).
    exists (id_of e ++ flat_map all_ids l1)%list, (flat_map all_ids l2).
    simpl. unfold without_child. rewrite (all_ids_unfold e).
    rewrite (all_ids_unfold (with_children _ _)), id_of_with_children.
    cbn [children with_children]. rewrite E2, E1, !flat_map_app. simpl.
    now rewrite <- !app_assoc.
  - destruct (nth_error (children e) k) as [c|] eqn:Hn; [|discriminate].
    destruct (IH i c fragment H) as (A & B & EA & EB).
    destruct (nth_error_split_update
                (fun c => update_at (without_child i) c par) _ _ _ Hn)
      as (l1 & l2 & E1 & E2).
    exists (id_of e ++ flat_map all_ids l1 ++ A)%list,
           (B ++ flat_map all_ids l2)%list.
    simpl. rewrite (all_ids_unfold e).
    rewrite (all_ids_unfold (with_children _ _)), id_of_with_children.
    cbn [children with_children]. rewrite E2, E1, !flat_map_app. simpl.
    rewrite EA, EB. now rewrite <- !app_assoc.
Qed.

Lemma nodup_middle : forall {A} (l1 m l2 : list A),
  NoDup (l1 ++ m ++ l2) ->
  NoDup (l1 ++ l2) /\ forall x, In x m -> ~ In x (l1 ++ l2).
Proof.
  intros A l1 m. induction m as [|y m IH]; intros l2 H; simpl in *.
  - split; [exact H | intros x []].
  - apply NoDup_remove in H as [H Hy]. destruct (IH l2 H) as [Hnd Hm].
    split; [exact Hnd|]. intros x [->|Hx]; [|auto].
    intros Hin. apply Hy. apply in_app_or in Hin as [Hin|Hin];
      apply in_or_app; [now left | right; apply in_or_app; now right].
Qed.

Lemma get_at_snoc : forall p i e x,
  get_at e (p ++ [i])%list = Some x ->
  exists parent, get_at e p = Some parent
                 /\ nth_error (children parent) i = Some x.
Proof.
  induction p as [|k p IH]; intros i e x H; simpl in *.
  - destruct (nth_error (children e) i) as [c|] eqn:Hn; [|discriminate].
    inversion H; subst. eauto.
  - destruct (nth_error (children e) k) as [c|]; [eauto | discriminate].
Qed.

Lemma dict_get_set_same : forall k (v : ref) d,
  dict_get path_eqb k (dict_set path_eqb k v d) = Some v.
Proof.
  intros k v. assert (Hkk : path_eqb k k = true) by now apply path_eqb_eq.
  induction d as [|[k' v'] d IH]; simpl; [now rewrite Hkk|].
  destruct (path_eqb k k') eqn:E; simpl; [now rewrite Hkk | now rewrite E].
Qed.

Lemma dict_get_set_keeps : forall k k' (v : ref) d,
  dict_get path_eqb k d <> None ->
  dict_get path_eqb k (dict_set path_eqb k' v d) <> None.
Proof.
  intros k k' v. induction d as [|[k0 v0] d IH]; simpl; intros H; [congruence|].
  destruct (path_eqb k' k0) eqn:E'; simpl.
  - apply path_eqb_eq in E'. subst k0.
    destruct (path_eqb k k'); [discriminate | exact H].
  - destruct (path_eqb k k0); [discriminate | auto].
Qed.

(** Every element but the root has its parent in the map. *)
Lemma parent_map_complete : forall root p i e,
  get_at root (p ++ [i])%list = Some e ->
  dict_get path_eqb (p ++ [i])%list (build_parent_map root) <> None.
Proof.
  intros root p i e H. destruct (get_at_snoc _ _ _ _ H) as (parent & Hp & Hn).
  apply get_at_iter in Hp. unfold build_parent_map.
  assert (Hinner : forall idxs d,
             In i idxs \/ dict_get path_eqb (p ++ [i])%list d <> None ->
             dict_get path_eqb (p ++ [i])%list
               (fold_left
                  (fun d j => dict_set path_eqb (p ++ [j])%list (p, parent) d)
                  idxs d) <> None).
  { induction idxs as [|j idxs IH]; intros d Hd; simpl.
    - destruct Hd as [[]|Hd]; exact Hd.
    - apply IH. destruct Hd as [[->|Hd]|Hd]; [right | now left | right].
      + rewrite dict_get_set_same. discriminate.
      + now apply dict_get_set_keeps. }
  assert (Hkeep : forall (q : ref) idxs d,
             dict_get path_eqb (p ++ [i])%list d <> None ->
             dict_get path_eqb (p ++ [i])%list
               (fold_left
                  (fun d j => dict_set path_eqb (fst q ++ [j])%list q d)
                  idxs d) <> None).
  { intros q. induction idxs as [|j idxs IH]; intros d Hd; simpl; [exact Hd|].
    apply IH. now apply dict_get_set_keeps. }
  assert (Houter : forall l d,
             In (p, parent) l \/ dict_get path_eqb (p ++ [i])%list d <> None ->
             dict_get path_eqb (p ++ [i])%list
               (fold_left
                  (fun d q =>
                     fold_left
                       (fun d j => dict_set path_eqb (fst q ++ [j])%list q d)
                       (seq 0 (List.length (children (snd q)))) d)
                  l d) <> None).
  { induction l as [|q l IH]; intros d Hd; simpl.
    - destruct Hd as [[]|Hd]; exact Hd.
    - apply IH. destruct Hd as [[->|Hd]|Hd]; [right | now left | right].
      + apply Hinner. left. apply in_seq. simpl.
        split; [lia|]. apply nth_error_Some. simpl. congruence.
      + now apply Hkeep. }
  apply Houter. now left.
Qed.

Lemma parentless_is_root : forall root p e,
  get_at root p = Some e ->
  dict_get path_eqb p (build_parent_map root) = None -> p = [].
Proof.
  intros root p e H Hnone. destruct p as [|k p]; [reflexivity|].
  destruct (@exists_last _ (k :: p)) as (q & i & E); [discriminate|].
  rewrite E in H, Hnone. now apply parent_map_complete in H.
Qed.

(** ** Deleting twice *)

Lemma settled_skip : forall s n sid,
  settled (doc s) sid -> delete_one (s, n) sid = Ok (s, n).
Proof.
  intros s n sid [H|[e H]]; unfold delete_one; rewrite H; [reflexivity|].
  simpl. now rewrite parent_map_root.
Qed.

Lemma find_root : forall e sid,
  elem_get e "id" = Some sid -> find_element_by_id e sid = Some ([], e).
Proof.
  intros e sid H. unfold find_element_by_id. rewrite iter_unfold. simpl.
  now rewrite H, String.eqb_refl.
Qed.

Lemma update_at_keeps_id : forall i par e,
  elem_get (update_at (without_child i) e par) "id" = elem_get e "id".
Proof. intros i [|k par] e; reflexivity. Qed.

Lemma settled_after_removal : forall par i e fragment sid,
  get_at e (par ++ [i])%list = Some fragment ->
  settled e sid ->
  settled (update_at (without_child i) e par) sid.
Proof.
  intros par i e fragment sid Hg [H|[x H]].
  - left. apply find_none_iff. apply find_none_iff in H.
    destruct (all_ids_removal par i e fragment Hg) as (A & B & EA & EB).
    rewrite EB. rewrite EA in H. intros Hin. apply H.
    apply in_app_or in Hin as [Hin|Hin]; apply in_or_app;
      [now left | right; apply in_or_app; now right].
  - right. apply find_element_by_id_get_at in H as [Hx Hid]. simpl in *.
    inversion Hx; subst x. eexists. apply find_root.
    now rewrite update_at_keeps_id.
Qed.

(* what one turn of the deletion loop does to the document *)
Lemma delete_one_effect : forall s n sid s' n',
  delete_one (s, n) sid = Ok (s', n') ->
  (s' = s /\ n' = n /\ settled (doc s) sid)
  \/ (exists par i fragment,
        find_element_by_id (doc s) sid = Some ((par ++ [i])%list, fragment)
        /\ get_at (doc s) (par ++ [i])%list = Some fragment
        /\ doc s' = update_at (without_child i) (doc s) par
        /\ n' = S n).
Proof.
  intros s n sid s' n' H. unfold delete_one in H.
  destruct (find_element_by_id (doc s) sid) as [[p x]|] eqn:Hf.
  2:{ inversion H; subst. left. repeat split. now left. }
  pose proof (find_element_by_id_get_at _ _ _ Hf) as [Hx Hid]. simpl in *.
  destruct (dict_get path_eqb p (build_parent_map (doc s))) as [par|] eqn:Hp.
  2:{ inversion H; subst. left. repeat split. right.
      apply (parentless_is_root _ _ _ Hx) in Hp. subst p. eauto. }
  apply parent_map_get in Hp as (i & c & E & Hpar & Hn & Hc).
  destruct (remove_elem_total s (fst par) p i c (snd par) E Hpar Hc)
    as (s1 & Hr & Hd).
  rewrite Hr in H. simpl in H. inversion H; subst s1 n'. right.
  exists (fst par), i, x. subst p. rewrite Hx in Hc. inversion Hc; subst c.
  auto.
Qed.

Lemma delete_loop_settles : forall ids s n s' n',
  NoDup (all_ids (doc s)) ->
  delete_loop (s, n) ids = Ok (s', n') ->
  NoDup (all_ids (doc s'))
  /\ forall sid, settled (doc s) sid \/ In sid ids -> settled (doc s') sid.
Proof.
  induction ids as [|sid ids IH]; intros s n s' n' Hnd H; cbn [delete_loop] in H.
  - inversion H; subst. split; [exact Hnd|]. intros x [Hx|[]]. exact Hx.
  - destruct (delete_one (s, n) sid) as [[s1 n1]|] eqn:H1; [|discriminate].
    cbn [bind] in H.
    assert (Hstep : NoDup (all_ids (doc s1))
                    /\ settled (doc s1) sid
                    /\ forall x, settled (doc s) x -> settled (doc s1) x).
    { apply delete_one_effect in H1
        as [(-> & _ & Hs)|(par & i & fragment & Hf & Hg & Hd & _)].
      - auto.
      - rewrite Hd.
        destruct (all_ids_removal par i (doc s) fragment Hg) as (A & B & EA & EB).
        rewrite EA in Hnd. destruct (nodup_middle _ _ _ Hnd) as [Hnd' Hmid].
        split; [now rewrite EB|]. split.
        + left. apply find_none_iff. rewrite EB. apply Hmid.
          apply find_element_by_id_get_at in Hf as [_ Hid]. simpl in Hid.
          rewrite all_ids_unfold. apply in_or_app. left.
          unfold id_of. rewrite Hid. now left.
        + intros x Hx. eapply settled_after_removal; eauto. }
    destruct Hstep as (Hnd1 & Hsid & Hkeep).
    destruct (IH s1 n1 s' n' Hnd1 H) as [Hnd' Hall].
    split; [exact Hnd'|]. intros x [Hx|[->|Hx]]; apply Hall; auto.
Qed.

Lemma delete_loop_settled : forall ids s n,
  (forall sid, In sid ids -> settled (doc s) sid) ->
  delete_loop (s, n) ids = Ok (s, n).
Proof.
  induction ids as [|sid ids IH]; intros s n H; cbn [delete_loop]; [reflexivity|].
  rewrite settled_skip by (apply H; now left). cbn [bind].
  apply IH. intros x Hx. apply H. now right.
Qed.

(** C8. The deletion phase raises on no document and no list of
    identifiers; an identifier that no element carries is skipped and
    leaves everything as it is; deleting identifiers that are all absent
    changes nothing; and on a document with pairwise distinct identifiers
    a second run of the phase, after a first one, changes nothing. *)
Theorem deletion_tolerates_missing_ids :
  (forall s ids, exists s' deleted, delete_phase s ids = Ok (s', deleted))
  /\ (forall s n sid,
        find_element_by_id (doc s) sid = None ->
        delete_one (s, n) sid = Ok (s, n))
  /\ (forall s ids,
        (forall sid, In sid ids -> find_element_by_id (doc s) sid = None) ->
        delete_phase s ids = Ok (s, 0%nat))
  /\ (forall s ids s' deleted,
        NoDup (all_ids (doc s)) ->
        delete_phase s ids = Ok (s', deleted) ->
        delete_phase s' ids = Ok (s', 0%nat)).
Proof.
  split; [|split; [|split]].
  - intros s ids. unfold delete_phase.
    destruct (delete_loop_total ids (s, 0%nat)) as [[s' n'] H]. eauto.
  - intros s n sid H. apply settled_skip. now left.
  - intros s ids H. unfold delete_phase. apply delete_loop_settled.
    intros sid Hin. left. now apply H.
  - intros s ids s' deleted Hnd H. unfold delete_phase in *.
    apply delete_loop_settled. intros sid Hin.
    apply (proj2 (delete_loop_settles ids s 0%nat s' deleted Hnd H)). now right.
Qed.

Lemma deletion_tolerates_missing_ids_witness :
  delete_phase (mkStore scenario_document (Attached [0%nat]))
    ["g16722"; "g16712"]
  = Ok (mkStore scenario_document (Attached [0%nat]), 0%nat).
Proof.
  apply (proj1 (proj2 (proj2 deletion_tolerates_missing_ids))).
  intros sid [<-|[<-|[]]]; reflexivity.
Defined.

(** ** Decimal digits *)

Lemma digit_char_value : forall d,
  (d < 10)%N ->
  Z.of_nat (code (digit_char d)) - 48 = Z.of_N d /\ is_digit (digit_char d) = true.
Proof.
  intros d H.
  assert (E : d = 0%N \/ d = 1%N \/ d = 2%N \/ d = 3%N \/ d = 4%N \/ d = 5%N
              \/ d = 6%N \/ d = 7%N \/ d = 8%N \/ d = 9%N) by lia.
  repeat (destruct E as [->|E]; [split; reflexivity|]). subst. split; reflexivity.
Qed.

Lemma digits_value_acc_app : forall s t a,
  digits_value_acc a (s ++ t) = digits_value_acc (digits_value_acc a s) t.
Proof. induction s as [|c s IH]; intros t a; simpl; auto. Qed.

Lemma digits_fuel_spec : forall f n acc,
  (n < 2 ^ N.of_nat f)%N -> (0 < f)%nat ->
  exists s,
    digits_fuel f n acc = s ++ acc
    /\ s <> EmptyString
    /\ string_forall is_digit s = true
    /\ forall a,
         digits_value_acc a s = a * 10 ^ Z.of_nat (String.length s) + Z.of_N n.
Proof.
  induction f as [|f IH]; intros n acc Hn Hf; [lia|].
  cbn [digits_fuel].
  assert (Hmod : (n mod 10 < 10)%N) by (apply N.mod_lt; lia).
  destruct (digit_char_value _ Hmod) as [Hval Hdig].
  destruct (N.ltb_spec n 10) as [Hlt|Hge].
  - exists (String (digit_char (n mod 10)) EmptyString).
    rewrite N.mod_small in * by lia.
    repeat split; [discriminate | simpl; now rewrite Hdig |].
    intros a. cbn [digits_value_acc String.length]. rewrite Hval.
    change (10 ^ Z.of_nat 1) with 10. lia.
  - rewrite Nat2N.inj_succ, N.pow_succ_r' in Hn.
    assert (Hdiv : (n / 10 < 2 ^ N.of_nat f)%N).
    { apply N.Div0.div_lt_upper_bound. lia. }
    assert (Hf' : (0 < f)%nat).
    { destruct f; [|lia]. simpl in Hdiv.
      assert (1 <= n / 10)%N by (apply N.div_le_lower_bound; lia). lia. }
    destruct (IH (n / 10)%N (String (digit_char (n mod 10)) acc) Hdiv Hf')
      as (s & E & Hne & Hall & Hv).
    exists (s ++ String (digit_char (n mod 10)) EmptyString).
    rewrite E, append_assoc. simpl.
    repeat split.
    + destruct s; [congruence | discriminate].
    + rewrite string_forall_app, Hall. simpl. now rewrite Hdig.
    + intros a. rewrite digits_value_acc_app, Hv.
      cbn [digits_value_acc]. rewrite Hval.
      rewrite length_append. cbn [String.length].
      replace (Z.of_nat (String.length s + 1)) with (Z.of_nat (String.length s) + 1)
        by lia.
      rewrite Z.pow_add_r by lia.
      pose proof (N.div_mod n 10 ltac:(lia)) as Hdm.
      assert (Z.of_N n = 10 * Z.of_N (n / 10) + Z.of_N (n mod 10)) by lia.
      lia.
Qed.

Lemma str_of_N_spec : forall n,
  str_of_N n <> EmptyString
  /\ string_forall is_digit (str_of_N n) = true
  /\ forall a,
       digits_value_acc a (str_of_N n)
       = a * 10 ^ Z.of_nat (String.length (str_of_N n)) + Z.of_N n.
Proof.
  intros n. unfold str_of_N.
  destruct (digits_fuel_spec (S (N.to_nat (N.log2 n))) n EmptyString)
    as (s & E & Hne & Hall & Hv).
  - rewrite Nat2N.inj_succ, N2Nat.id.
    destruct (N.eq_dec n 0) as [->|Hpos]; [reflexivity|].
    apply N.log2_spec. lia.
  - lia.
  - rewrite E, append_nil_r. auto.
Qed.

Lemma str_of_nat_injective : forall i j,
  str_of_nat i = str_of_nat j -> i = j.
Proof.
  intros i j H. unfold str_of_nat in H.
  destruct (str_of_N_spec (N.of_nat i)) as (_ & _ & Hi).
  destruct (str_of_N_spec (N.of_nat j)) as (_ & _ & Hj).
  specialize (Hi 0). specialize (Hj 0). rewrite H in Hi. lia.
Qed.

(** ** Minting identifiers *)

Lemma set_mem_true : forall x (l : set string),
  set_mem string_dec x l = true <-> In x l.
Proof.
  intros x l. split; [apply set_mem_correct1 | apply set_mem_correct2].
Qed.

Lemma set_mem_false : forall x (l : set string),
  set_mem string_dec x l = false <-> ~ In x l.
Proof.
  intros x l. split; [apply set_mem_complete1 | apply set_mem_complete2].
Qed.

Lemma append_inj_l : forall s a b : string, s ++ a = s ++ b -> a = b.
Proof.
  induction s as [|c s IH]; simpl; intros a b H; [exact H | inversion H; auto].
Qed.

Lemma append_longer : forall s t : string, t <> EmptyString -> s ++ t <> s.
Proof.
  intros s t Ht E. apply (f_equal String.length) in E.
  rewrite length_append in E. destruct t; [congruence | simpl in E; lia].
Qed.

(** The first loop ends: the candidates are pairwise distinct, so at most
    as many of them as there are identifiers can be taken. *)
Lemma fresh_star_id_ok : forall fuel existing base star_id suffix tried,
  NoDup tried -> incl tried existing -> ~ In star_id tried ->
  (forall j, (suffix <= j)%nat ->
             ~ In (base ++ "_" ++ str_of_nat j) tried
             /\ base ++ "_" ++ str_of_nat j <> star_id) ->
  (List.length existing <= fuel + List.length tried)%nat ->
  exists r, fresh_star_id fuel existing base star_id suffix = Ok r
            /\ ~ In r existing.
Proof.
  induction fuel as [|fuel IH];
    intros existing base star_id suffix tried Hnd Hincl Hnew Hnext Hlen;
    cbn [fresh_star_id];
    destruct (set_mem string_dec star_id existing) eqn:Hm;
    try (apply set_mem_false in Hm; eauto).
  - apply set_mem_true in Hm.
    assert (Hle : (List.length (star_id :: tried) <= List.length existing)%nat).
    { apply NoDup_incl_length; [now constructor|].
      intros x [->|Hx]; auto. }
    simpl in Hle. lia.
  - apply set_mem_true in Hm.
    apply (IH existing base _ (S suffix) (star_id :: tried)).
    + now constructor.
    + intros x [->|Hx]; auto.
    + intros [E|Hin].
      * symmetry in E. now apply (Hnext suffix (le_n _)) in E.
      * now apply (Hnext suffix (le_n _)) in Hin.
    + intros j Hj. split.
      * intros [E|Hin].
        -- symmetry in E. apply (Hnext j) in E; [exact E | lia].
        -- apply (Hnext j) in Hin; [exact Hin | lia].
      * intros E. apply append_inj_l in E. simpl in E.
        inversion E as [E']. apply str_of_nat_injective in E'. lia.
    + simpl. lia.
Qed.

(** The second loop ends: every candidate is longer than the ones before. *)
Lemma fresh_wrapper_id_ok : forall fuel existing wrapper_id tried,
  NoDup tried -> incl tried existing ->
  (forall t, In t tried -> (String.length t < String.length wrapper_id)%nat) ->
  (List.length existing <= fuel + List.length tried)%nat ->
  exists r, fresh_wrapper_id fuel existing wrapper_id = Ok r /\ ~ In r existing.
Proof.
  induction fuel as [|fuel IH];
    intros existing wrapper_id tried Hnd Hincl Hshort Hlen;
    cbn [fresh_wrapper_id];
    destruct (set_mem string_dec wrapper_id existing) eqn:Hm;
    try (apply set_mem_false in Hm; eauto);
    apply set_mem_true in Hm;
    assert (Hnew : ~ In wrapper_id tried)
      by (intros Hin; apply Hshort in Hin; lia).
  - assert (Hle : (List.length (wrapper_id :: tried)
                   <= List.length existing)%nat).
    { apply NoDup_incl_length; [now constructor|].
      intros x [->|Hx]; auto. }
    simpl in Hle. lia.
  - apply (IH existing _ (wrapper_id :: tried)).
    + now constructor.
    + intros x [->|Hx]; auto.
    + intros t [<-|Hin]; rewrite length_append; simpl.
      * lia.
      * apply Hshort in Hin. lia.
    + simpl. lia.
Qed.

(** ** The stamping phase *)

Lemma update_nth_ext : forall {A} (f g : A -> A) i l,
  (forall x, f x = g x) -> update_nth f i l = update_nth g i l.
Proof.
  intros A f g i l H. revert i.
  induction l as [|a l IH]; intros [|i]; simpl; auto; congruence.
Qed.

Lemma update_nth_compose : forall {A} (f g : A -> A) i l,
  update_nth f i (update_nth g i l) = update_nth (fun x => f (g x)) i l.
Proof.
  intros A f g i l. revert i.
  induction l as [|a l IH]; intros [|i]; simpl; auto. now rewrite IH.
Qed.

Lemma update_at_ext : forall f g p e,
  (forall x, f x = g x) -> update_at f e p = update_at g e p.
Proof.
  intros f g. induction p as [|i p IH]; intros e H; cbn [update_at]; [apply H|].
  f_equal. apply update_nth_ext. intros c. now apply IH.
Qed.

Lemma update_at_compose : forall f g p e,
  update_at f (update_at g e p) p = update_at (fun x => f (g x)) e p.
Proof.
  intros f g. induction p as [|i p IH]; intros e; cbn [update_at]; [reflexivity|].
  unfold with_children. cbn [tag attrib text tail children].
  f_equal. rewrite update_nth_compose.
  apply update_nth_ext. intros c. apply IH.
Qed.

Lemma update_nth_same : forall {A} i (l : list A),
  update_nth (fun x => x) i l = l.
Proof.
  intros A i l. revert i.
  induction l as [|a l IH]; intros [|i]; simpl; auto. now rewrite IH.
Qed.

Lemma update_at_same : forall p e, update_at (fun x => x) e p = e.
Proof.
  induction p as [|i p IH]; intros e; cbn [update_at]; [reflexivity|].
  rewrite (update_nth_ext _ (fun c => c)) by (intros c; apply IH).
  rewrite update_nth_same. now destruct e.
Qed.

Lemma with_appended_nil : forall e, with_appended [] e = e.
Proof.
  intros [t a tx tl cs]. unfold with_appended, with_children.
  cbn [tag attrib text tail children]. now rewrite app_nil_r.
Qed.

Lemma with_appended_cons : forall w ws e,
  with_appended ws (append e w) = with_appended (w :: ws) e.
Proof.
  intros w ws e. unfold with_appended, append, with_children.
  cbn [tag attrib text tail children]. now rewrite <- app_assoc.
Qed.

Section Stamping.
Context {libm : Libm}.

Lemma parent_after_append : forall s w pe,
  parent_element s = Some pe ->
  parent_element (append_to_parent s w) = Some (append pe w).
Proof.
  intros [d [p|f p]] w pe H; unfold parent_element, append_to_parent in *;
    simpl in *; now apply (get_at_update_at (fun e => append e w)).
Qed.

Lemma stamp_one_ok : forall template cx cy s existing i pe,
  parent_element s = Some pe ->
  exists s' existing' w,
    stamp_one template cx cy (s, existing) i = Ok (s', existing')
    /\ s' = append_to_parent s w
    /\ is_wrapper template cx cy i w.
Proof.
  intros template cx cy s existing i pe Hpe. unfold stamp_one.
  set (base := TEMPLATE_ID ++ "_new" ++ format_02d i).
  destruct (fresh_star_id_ok (S (List.length existing)) existing base base 2 [])
    as (star_id & Hs & Hfresh).
  - constructor.
  - intros x [].
  - intros [].
  - intros j Hj. split; [intros []|]. apply append_longer. discriminate.
  - simpl. lia.
  - rewrite Hs. cbn [bind].
    set (existing1 := set_add string_dec star_id existing).
    destruct (fresh_wrapper_id_ok (S (List.length existing1)) existing1
                (star_id ++ "_wrap") [])
      as (wrapper_id & Hw & Hfresh').
    + constructor.
    + intros x [].
    + intros t [].
    + simpl. lia.
    + rewrite Hw. cbn [bind]. do 3 eexists. split; [reflexivity|].
      split; [reflexivity|]. exists star_id, wrapper_id. reflexivity.
Qed.

Lemma with_children_append : forall pe w ws,
  with_children (append pe w) (children (append pe w) ++ ws)%list
  = with_children pe (children pe ++ w :: ws)%list.
Proof.
  intros pe w ws. unfold append, with_children. simpl.
  now rewrite <- app_assoc.
Qed.

Lemma stamp_loop_ok : forall template cx cy indices s existing pe,
  parent_element s = Some pe ->
  exists s' existing' ws,
    stamp_loop template cx cy (s, existing) indices = Ok (s', existing')
    /\ parent_element s' = Some (with_children pe (children pe ++ ws)%list)
    /\ Forall2 (is_wrapper template cx cy) indices ws.
Proof.
  induction indices as [|i indices IH]; intros s existing pe Hpe;
    cbn [stamp_loop].
  - exists s, existing, []. split; [reflexivity|]. split; [|constructor].
    rewrite app_nil_r. destruct pe; exact Hpe.
  - destruct (stamp_one_ok template cx cy s existing i pe Hpe)
      as (s1 & existing1 & w & H1 & Hs1 & Hw).
    rewrite H1. cbn [bind].
    assert (Hpe1 : parent_element s1 = Some (append pe w))
      by (subst s1; now apply parent_after_append).
    destruct (IH s1 existing1 (append pe w) Hpe1)
      as (s' & existing' & ws & H & Hp & Hws).
    exists s', existing', (w :: ws). split; [exact H|]. split.
    + now rewrite Hp, with_children_append.
    + now constructor.
Qed.

(* the stamping loop while star_parent hangs in the document: the
   wrappers are appended there, and nothing else changes *)
Lemma stamp_loop_in_document : forall template cx cy indices s existing p pe,
  star_parent s = Attached p ->
  get_at (doc s) p = Some pe ->
  exists s' existing' ws,
    stamp_loop template cx cy (s, existing) indices = Ok (s', existing')
    /\ star_parent s' = Attached p
    /\ doc s' = update_at (with_appended ws) (doc s) p
    /\ Forall2 (is_wrapper template cx cy) indices ws.
Proof.
  induction indices as [|i indices IH]; intros s existing p pe Hp Hpe;
    cbn [stamp_loop].
  - exists s, existing, []. split; [reflexivity|]. split; [exact Hp|].
    split; [|constructor].
    rewrite (update_at_ext _ (fun e => e)) by apply with_appended_nil.
    now rewrite update_at_same.
  - assert (Hpar : parent_element s = Some pe)
      by (unfold parent_element; now rewrite Hp).
    destruct (stamp_one_ok template cx cy s existing i pe Hpar)
      as (s1 & existing1 & w & H1 & Hs1 & Hw).
    rewrite H1. cbn [bind].
    assert (Hp1 : star_parent s1 = Attached p)
      by (subst s1; unfold append_to_parent; now rewrite Hp).
    assert (Hd1 : doc s1 = update_at (fun e => append e w) (doc s) p)
      by (subst s1; unfold append_to_parent; now rewrite Hp).
    assert (Hpe1 : get_at (doc s1) p = Some (append pe w))
      by (rewrite Hd1; now apply (get_at_update_at (fun e => append e w))).
    destruct (IH s1 existing1 p (append pe w) Hp1 Hpe1)
      as (s' & existing' & ws & H & Hp' & Hdoc & Hws).
    exists s', existing', (w :: ws). split; [exact H|]. split; [exact Hp'|].
    split; [|now constructor].
    rewrite Hdoc, Hd1, update_at_compose.
    apply update_at_ext. intros e. apply with_appended_cons.
Qed.

End Stamping.

(** ** A full run *)

Lemma filter_dict_set_id : forall v (d : list (string * string)),
  filter (fun kv => negb (String.eqb (fst kv) "id")) (dict_set String.eqb "id" v d)
  = filter (fun kv => negb (String.eqb (fst kv) "id")) d.
Proof.
  intros v. induction d as [|[k w] d IH]; [reflexivity|].
  cbn [dict_set]. destruct (String.eqb "id" k) eqn:E.
  - apply String.eqb_eq in E. subst k. reflexivity.
  - cbn [filter fst]. rewrite IH. reflexivity.
Qed.

Lemma erase_ids_elem_set : forall e v,
  erase_ids (elem_set e "id" v) = erase_ids e.
Proof.
  intros [t a tx tl cs] v. unfold elem_set. cbn [erase_ids tag attrib text tail children].
  now rewrite filter_dict_set_id.
Qed.

Section FullRun.
Context {libm : Libm}.

(** What a run does once the template is found under a parent and the
    rotation centre is computed: the deletion phase and the stamping phase
    both complete, and star_parent ends with the children it had after
    the deletions followed by 27 wrappers. *)
Lemma main_completes : forall root template parent center,
  find_element_by_id root TEMPLATE_ID = Some template ->
  dict_get path_eqb (fst template) (build_parent_map root) = Some parent ->
  rotation_center parent (build_parent_map root) = Ok center ->
  exists s1 deleted s2 p1 wrappers,
    delete_phase (mkStore root (Attached (fst parent)))
      (STAR_IDS_TO_DELETE ++ [TEMPLATE_ID])%list = Ok (s1, deleted)
    /\ main root = Ok (Written s2 center deleted)
    /\ parent_element s1 = Some p1
    /\ parent_element s2
       = Some (with_children p1 (children p1 ++ wrappers)%list)
    /\ Forall2 (is_wrapper (snd template) (fst center) (snd center))
         (seq 0 TOTAL_STARS) wrappers.
Proof.
  intros root template parent [cx cy] Hfind Hpar Hc.
  assert (Hres : parent_resolves (mkStore root (Attached (fst parent)))).
  { apply parent_map_get in Hpar as (i & c & _ & Hg & _). now exists (snd parent). }
  destruct (delete_loop_ok (STAR_IDS_TO_DELETE ++ [TEMPLATE_ID])%list _ 0%nat Hres)
    as (s1 & deleted & Hdel & [p1 Hp1]).
  destruct (stamp_loop_ok (snd template) cx cy (seq 0 TOTAL_STARS) s1
              (find_all_ids (doc s1)) p1 Hp1)
    as (s2 & existing & ws & Hstamp & Hp2 & Hws).
  exists s1, deleted, s2, p1, ws.
  split; [exact Hdel|]. split; [|split; [exact Hp1|split; [exact Hp2|exact Hws]]].
  unfold main. rewrite Hfind, Hpar, Hc. cbn [bind].
  unfold delete_phase in *. rewrite Hdel. cbn [bind].
  unfold stamp_phase. rewrite Hstamp. reflexivity.
Qed.

Lemma generated_wrappers_eq : forall s p1 ws,
  parent_element s = Some (with_children p1 (children p1 ++ ws)%list) ->
  List.length ws = TOTAL_STARS ->
  generated_wrappers s = ws.
Proof.
  intros s p1 ws H Hlen. unfold generated_wrappers. rewrite H.
  cbn [children with_children]. rewrite length_app, Hlen.
  replace (List.length (children p1) + TOTAL_STARS - TOTAL_STARS)%nat
    with (List.length (children p1) + 0)%nat by lia.
  rewrite skipn_app, Nat.add_0_r, skipn_all, Nat.sub_diag. reflexivity.
Qed.

(** C5, as the code has it.  When the template is found, has a parent,
    the rotation centre can be computed, and the parent still hangs in the
    document after the deletions (no element deleted is the parent or
    one of its ancestors), the run completes and the document written is
    the document the deletions left with exactly 27 wrappers appended to
    the template's parent, after the children the deletions left it;
    each wrapper has exactly one child, the template with id replaced,
    equal to the template once identifiers are erased. *)
Theorem run_appends_27_wrappers :
  forall root template parent center s1 deleted p,
  find_element_by_id root TEMPLATE_ID = Some template ->
  dict_get path_eqb (fst template) (build_parent_map root) = Some parent ->
  rotation_center parent (build_parent_map root) = Ok center ->
  delete_phase (mkStore root (Attached (fst parent)))
    (STAR_IDS_TO_DELETE ++ [TEMPLATE_ID])%list = Ok (s1, deleted) ->
  star_parent s1 = Attached p ->
  exists s2 p1 wrappers,
    main root = Ok (Written s2 center deleted)
    /\ get_at (doc s1) p = Some p1
    /\ doc s2 = update_at (with_appended wrappers) (doc s1) p
    /\ get_at (doc s2) p
       = Some (with_children p1 (children p1 ++ wrappers)%list)
    /\ generated_wrappers s2 = wrappers
    /\ List.length wrappers = 27%nat
    /\ Forall
         (fun w =>
            exists copy star_id,
              children w = [copy]
              /\ copy = elem_set (snd template) "id" star_id
              /\ erase_ids copy = erase_ids (snd template))
         wrappers.
Proof.
  intros root template parent [cx cy] s1 deleted p Hfind Hpar Hc Hdel Hp.
  assert (Hres : parent_resolves (mkStore root (Attached (fst parent)))).
  { apply parent_map_get in Hpar as (i & c & _ & Hg & _). now exists (snd parent). }
  pose proof Hdel as Hdel0. unfold delete_phase in Hdel0.
  destruct (delete_loop_ok (STAR_IDS_TO_DELETE ++ [TEMPLATE_ID])%list _ 0%nat Hres)
    as (s1' & deleted' & Hdel' & [p1 Hp1]).
  rewrite Hdel0 in Hdel'. inversion Hdel'; subst s1' deleted'.
  unfold parent_element in Hp1. rewrite Hp in Hp1.
  destruct (stamp_loop_in_document (snd template) cx cy (seq 0 TOTAL_STARS) s1
              (find_all_ids (doc s1)) p p1 Hp Hp1)
    as (s2 & existing & ws & Hstamp & Hp2 & Hdoc & Hws).
  assert (Hlen : List.length ws = 27%nat).
  { apply Forall2_length in Hws. now rewrite length_seq in Hws. }
  assert (Hg2 : get_at (doc s2) p
                = Some (with_children p1 (children p1 ++ ws)%list)).
  { rewrite Hdoc. now rewrite (get_at_update_at _ p (doc s1) p1 Hp1). }
  exists s2, p1, ws. split; [|split; [exact Hp1|split; [exact Hdoc|]]].
  { unfold main. rewrite Hfind, Hpar, Hc. cbn [bind].
    rewrite Hdel. cbn [bind]. unfold stamp_phase. rewrite Hstamp. reflexivity. }
  split; [exact Hg2|]. split.
  { apply (generated_wrappers_eq s2 p1); [|exact Hlen].
    unfold parent_element. now rewrite Hp2. }
  split; [exact Hlen|].
  clear Hlen Hg2 Hdoc Hstamp.
  induction Hws as [|i w idxs ws Hw _ IH]; constructor; auto.
  destruct Hw as (star_id & wrapper_id & ->).
  exists (elem_set (snd template) "id" star_id), star_id.
  split; [reflexivity|]. split; [reflexivity|]. apply erase_ids_elem_set.
Qed.

End FullRun.

(** C5 as the spec states it fails: a document can contain the template
    and get no wrapper at all.  When the template is the root it has no
    parent and main returns 1 before any change. *)
Lemma template_without_parent :
  ~ (forall (libm : Libm) (root : Element) (template : ref),
        find_element_by_id root TEMPLATE_ID = Some template ->
        exists s center deleted,
          main root = Ok (Written s center deleted)
          /\ List.length (generated_wrappers s) = 27%nat).
Proof.
  intros H.
  destruct (H example_libm root_template_document ([], root_template_document))
    as (s & center & deleted & Hmain & _).
  - reflexivity.
  - vm_compute in Hmain. discriminate.
Qed.

Lemma run_appends_27_wrappers_witness :
  exists s center deleted,
    main (libm := example_libm) scenario_document = Ok (Written s center deleted)
    /\ List.length (generated_wrappers s) = 27%nat
    /\ doc s
       = update_at (with_appended (generated_wrappers s))
           (element "svg" []
              [element "g" [("transform", "translate(100,100)")] []])
           [0%nat].
Proof.
  destruct (run_appends_27_wrappers (libm := example_libm) scenario_document
              ([0; 0]%nat, element "g" [("id", "g16532")] [])
              ([0%nat],
               element "g" [("transform", "translate(100,100)")]
                 [element "g" [("id", "g16532")] []])
              (float_of_Q 650, float_of_Q 415)
              (mkStore
                 (element "svg" []
                    [element "g" [("transform", "translate(100,100)")] []])
                 (Attached [0%nat]))
              1%nat [0%nat])
    as (s2 & p1 & ws & Hmain & _ & Hdoc & _ & Hgen & Hlen & _).
  - reflexivity.
  - vm_compute. reflexivity.
  - vm_compute. reflexivity.
  - vm_compute. reflexivity.
  - reflexivity.
  - exists s2, (float_of_Q 650, float_of_Q 415), 1%nat.
    split; [exact Hmain|]. rewrite Hgen. split; [exact Hlen | exact Hdoc].
Defined.

(** ** Identifiers after a run *)

(** C1 at a failing input.  The identifiers of the input are pairwise
    distinct, the run completes, and the identifier p1 of the template's
    child is carried by 27 elements of the output: only the root of each
    copy is renamed. *)
Lemma descendant_ids_are_duplicated :
  NoDup (all_ids template_with_child_id_document)
  /\ exists s center deleted,
       main (libm := example_libm) template_with_child_id_document
       = Ok (Written s center deleted)
       /\ count_occ string_dec (all_ids (doc s)) "p1" = 27%nat
       /\ ~ NoDup (all_ids (doc s)).
Proof.
  split.
  - vm_compute. repeat constructor; simpl; intuition discriminate.
  - destruct (main (libm := example_libm) template_with_child_id_document)
      as [[| |s center deleted]|] eqn:E; try (vm_compute in E; discriminate).
    exists s, center, deleted. split; [reflexivity|].
    assert (Hc : count_occ string_dec (all_ids (doc s)) "p1" = 27%nat).
    { vm_compute in E. inversion E. vm_compute. reflexivity. }
    split; [exact Hc|].
    intros Hnd. rewrite (NoDup_count_occ string_dec) in Hnd.
    specialize (Hnd "p1"). rewrite Hc in Hnd. lia.
Qed.

(** ** Exact values and rounding

    The analysis of [float(str)] and of the .12g format is made on real
    numbers: a fraction n/d of integers is [ratio n d]. *)

Local Open Scope R_scope.

Lemma powerRZ_IZR : forall b e : Z,
  (0 <= e)%Z -> IZR (b ^ e) = powerRZ (IZR b) e.
Proof.
  intros b [|p|p] H; [reflexivity | apply Zpower_pos_powerRZ | lia].
Qed.

Lemma powerRZ_ge_1 : forall b e : Z,
  (1 <= b)%Z -> (0 <= e)%Z -> 1 <= powerRZ (IZR b) e.
Proof.
  intros b e Hb He. rewrite <- powerRZ_IZR by exact He.
  apply IZR_le. apply (Z.pow_pos_nonneg b e) in He; lia.
Qed.

Lemma powerRZ_pos : forall b e : Z, (1 <= b)%Z -> 0 < powerRZ (IZR b) e.
Proof. intros b e Hb. apply powerRZ_lt. apply IZR_lt. lia. Qed.

Lemma powerRZ_plus : forall b n m : Z,
  (1 <= b)%Z ->
  powerRZ (IZR b) (n + m) = powerRZ (IZR b) n * powerRZ (IZR b) m.
Proof.
  intros b n m Hb. apply powerRZ_add.
  apply not_0_IZR. lia.
Qed.

Lemma powerRZ_minus : forall b n m : Z,
  (1 <= b)%Z ->
  powerRZ (IZR b) (n - m) = powerRZ (IZR b) n / powerRZ (IZR b) m.
Proof.
  intros b n m Hb. unfold Zminus. rewrite powerRZ_plus by exact Hb.
  now rewrite powerRZ_neg'.
Qed.

Lemma powerRZ_mono : forall b n m : Z,
  (1 <= b)%Z -> (n <= m)%Z -> powerRZ (IZR b) n <= powerRZ (IZR b) m.
Proof.
  intros b n m Hb H. replace m with (n + (m - n))%Z by lia.
  rewrite powerRZ_plus by exact Hb.
  pose proof (powerRZ_pos b n Hb). pose proof (powerRZ_ge_1 b (m - n) Hb).
  assert (1 <= powerRZ (IZR b) (m - n)) by (apply H1; lia). nra.
Qed.

Lemma ratio_pos : forall n d, (0 < n)%Z -> (0 < d)%Z -> 0 < ratio n d.
Proof.
  intros n d Hn Hd. unfold ratio. apply Rdiv_lt_0_compat; now apply IZR_lt.
Qed.

Lemma ratio_mul : forall n d,
  (0 < d)%Z -> ratio n d * IZR d = IZR n.
Proof.
  intros n d Hd. unfold ratio. field. apply not_0_IZR. lia.
Qed.

Lemma scale_spec : forall b n d e,
  (1 <= b)%Z -> (0 < d)%Z ->
  let '(n', d') := if (0 <=? e)%Z then (n, d * b ^ e)%Z
                   else (n * b ^ (- e), d)%Z in
  (0 < d')%Z /\ ((0 <= n)%Z -> (0 <= n')%Z) /\ ((0 < n)%Z -> (0 < n')%Z)
  /\ ratio n' d' = ratio n d * powerRZ (IZR b) (- e).
Proof.
  intros b n d e Hb Hd.
  assert (Hd' : IZR d <> 0) by (apply not_0_IZR; lia).
  destruct (Z.leb_spec 0 e) as [He|He].
  - assert (Hp : (0 < b ^ e)%Z) by (apply Z.pow_pos_nonneg; lia).
    repeat split; try lia.
    unfold ratio. rewrite mult_IZR, powerRZ_IZR, powerRZ_neg' by lia.
    field. split; [|exact Hd'].
    pose proof (powerRZ_pos b e Hb). lra.
  - assert (Hp : (0 < b ^ (- e))%Z) by (apply Z.pow_pos_nonneg; lia).
    repeat split; try lia.
    unfold ratio. rewrite mult_IZR, powerRZ_IZR by lia. field. exact Hd'.
Qed.

Lemma scale2_spec : forall n d e,
  (0 < d)%Z ->
  let '(n', d') := scale2 n d e in
  (0 < d')%Z /\ ((0 <= n)%Z -> (0 <= n')%Z) /\ ((0 < n)%Z -> (0 < n')%Z)
  /\ ratio n' d' = ratio n d * powerRZ 2 (- e).
Proof. intros n d e Hd. apply (scale_spec 2 n d e); [lia | exact Hd]. Qed.

Lemma scale10_spec : forall n d e,
  (0 < d)%Z ->
  let '(n', d') := scale10 n d e in
  (0 < d')%Z /\ ((0 <= n)%Z -> (0 <= n')%Z) /\ ((0 < n)%Z -> (0 < n')%Z)
  /\ ratio n' d' = ratio n d * powerRZ 10 (- e).
Proof. intros n d e Hd. apply (scale_spec 10 n d e); [lia | exact Hd]. Qed.

Lemma round_half_even_Z : forall n d,
  (0 <= n)%Z -> (0 < d)%Z ->
  (0 <= round_half_even n d)%Z
  /\ (2 * Z.abs (round_half_even n d * d - n) <= d)%Z.
Proof.
  intros n d Hn Hd. unfold round_half_even.
  pose proof (Z.div_mod n d ltac:(lia)) as Hdm.
  pose proof (Z.mod_pos_bound n d Hd) as Hm.
  assert (Hq : (0 <= n / d)%Z) by (apply Z.div_pos; lia).
  destruct (Z.compare_spec (2 * (n mod d)) d) as [E|E|E];
    [destruct (Z.even (n / d))| |]; split; try lia; nia.
Qed.

Lemma round_half_even_spec : forall n d,
  (0 <= n)%Z -> (0 < d)%Z ->
  Rabs (IZR (round_half_even n d) - ratio n d) <= / 2.
Proof.
  intros n d Hn Hd. destruct (round_half_even_Z n d Hn Hd) as [_ H].
  set (r := round_half_even n d) in *.
  assert (Hd' : 0 < IZR d) by (apply IZR_lt; lia).
  assert (E : IZR r - ratio n d = IZR (r * d - n) / IZR d).
  { unfold ratio. rewrite minus_IZR, mult_IZR. field. lra. }
  rewrite E. unfold Rdiv. rewrite Rabs_mult, Rabs_inv, (Rabs_right (IZR d)) by lra.
  rewrite <- abs_IZR.
  apply IZR_le in H. rewrite mult_IZR in H.
  apply Rmult_le_reg_r with (IZR d); [exact Hd'|].
  rewrite Rmult_assoc, Rinv_l by lra. lra.
Qed.

Lemma ratio_lt : forall n d x,
  (0 < d)%Z -> IZR n < x * IZR d -> ratio n d < x.
Proof.
  intros n d x Hd H. apply Rmult_lt_reg_r with (IZR d); [apply IZR_lt; lia|].
  now rewrite ratio_mul.
Qed.

Lemma ratio_le : forall n d x,
  (0 < d)%Z -> IZR n <= x * IZR d -> ratio n d <= x.
Proof.
  intros n d x Hd H. apply Rmult_le_reg_r with (IZR d); [apply IZR_lt; lia|].
  now rewrite ratio_mul.
Qed.

Lemma ratio_ge : forall n d x,
  (0 < d)%Z -> x * IZR d <= IZR n -> x <= ratio n d.
Proof.
  intros n d x Hd H. apply Rmult_le_reg_r with (IZR d); [apply IZR_lt; lia|].
  now rewrite ratio_mul.
Qed.

Lemma ratio_ge_1 : forall n d, (0 < d)%Z -> (d <= n)%Z -> 1 <= ratio n d.
Proof.
  intros n d Hd H. apply ratio_ge; [exact Hd|]. apply IZR_le in H. lra.
Qed.

Lemma ratio_lt_1 : forall n d, (0 < d)%Z -> (n < d)%Z -> ratio n d < 1.
Proof.
  intros n d Hd H. apply ratio_lt; [exact Hd|]. apply IZR_lt in H. lra.
Qed.

Lemma log2_bounds : forall n,
  (0 < n)%Z ->
  powerRZ 2 (Z.log2 n) <= IZR n < powerRZ 2 (Z.log2 n + 1).
Proof.
  intros n Hn. pose proof (Z.log2_spec n Hn) as [H1 H2].
  pose proof (Z.log2_nonneg n).
  rewrite <- !(powerRZ_IZR 2) by lia.
  split; [now apply IZR_le | apply IZR_lt; unfold Z.succ in H2; exact H2].
Qed.

(** [ilog2_ratio] is the exponent of the binade of n/d. *)
Lemma ilog2_ratio_spec : forall n d,
  (0 < n)%Z -> (0 < d)%Z ->
  powerRZ 2 (ilog2_ratio n d) <= ratio n d
  /\ ratio n d < powerRZ 2 (ilog2_ratio n d + 1).
Proof.
  intros n d Hn Hd. unfold ilog2_ratio.
  set (l := (Z.log2 n - Z.log2 d)%Z).
  pose proof (scale2_spec n d l Hd) as Hs.
  destruct (scale2 n d l) as [n' d']. destruct Hs as (Hd' & _ & _ & Hr).
  destruct (log2_bounds n Hn) as [Hn1 Hn2].
  destruct (log2_bounds d Hd) as [Hd1 Hd2].
  pose proof (powerRZ_pos 2 l ltac:(lia)) as Hpl.
  pose proof (powerRZ_pos 2 (Z.log2 d) ltac:(lia)) as Hpd.
  assert (Hback : ratio n d = ratio n' d' * powerRZ 2 l).
  { rewrite Hr, powerRZ_neg'. field. lra. }
  destruct (Z.leb_spec d' n') as [Hge|Hlt].
  - split.
    + rewrite Hback. pose proof (ratio_ge_1 n' d' Hd' Hge). nra.
    + apply ratio_lt; [exact Hd|].
      apply Rlt_le_trans with (1 := Hn2).
      replace (Z.log2 n + 1)%Z with ((l + 1) + Z.log2 d)%Z by (unfold l; lia).
      rewrite (powerRZ_plus 2) by lia.
      pose proof (powerRZ_pos 2 (l + 1) ltac:(lia)). nra.
  - split.
    + apply ratio_ge; [exact Hd|].
      apply Rle_trans with (2 := Hn1).
      replace (Z.log2 n) with ((l - 1) + (Z.log2 d + 1))%Z by (unfold l; lia).
      rewrite (powerRZ_plus 2) by lia.
      pose proof (powerRZ_pos 2 (l - 1) ltac:(lia)). nra.
    + replace (l - 1 + 1)%Z with l by lia.
      rewrite Hback. pose proof (ratio_lt_1 n' d' Hd' Hlt).
      pose proof (ratio_pos n d Hn Hd). nra.
Qed.

Lemma Rabs_bound : forall x a, Rabs x <= a -> - a <= x <= a.
Proof.
  intros x a H. unfold Rabs in H. destruct (Rcase_abs x); lra.
Qed.

Lemma digits2_bounds : forall p,
  (2 ^ (Zpos (digits2_pos p) - 1) <= Zpos p < 2 ^ Zpos (digits2_pos p))%Z.
Proof.
  induction p as [p IH|p IH|]; cbn [digits2_pos].
  - rewrite Pos2Z.inj_succ. replace (Z.succ (Zpos (digits2_pos p)) - 1)%Z
      with (Z.succ (Zpos (digits2_pos p) - 1)) by lia.
    rewrite !Z.pow_succ_r by lia. lia.
  - rewrite Pos2Z.inj_succ. replace (Z.succ (Zpos (digits2_pos p)) - 1)%Z
      with (Z.succ (Zpos (digits2_pos p) - 1)) by lia.
    rewrite !Z.pow_succ_r by lia. lia.
  - simpl. lia.
Qed.

Lemma digits2_le_53 : forall p,
  (Zpos p < 2 ^ 53)%Z -> (Zpos (digits2_pos p) <= 53)%Z.
Proof.
  intros p H. destruct (digits2_bounds p) as [H1 _].
  destruct (Z.le_gt_cases (Zpos (digits2_pos p)) 53) as [|Hgt]; [assumption|].
  assert (2 ^ 53 <= 2 ^ (Zpos (digits2_pos p) - 1))%Z
    by (apply Z.pow_le_mono_r; lia).
  lia.
Qed.

Lemma digits2_ge_53 : forall p,
  (2 ^ 52 <= Zpos p)%Z -> (53 <= Zpos (digits2_pos p))%Z.
Proof.
  intros p H. destruct (digits2_bounds p) as [_ H2].
  destruct (Z.le_gt_cases 53 (Zpos (digits2_pos p))) as [|Hlt]; [assumption|].
  assert (2 ^ Zpos (digits2_pos p) <= 2 ^ 52)%Z
    by (apply Z.pow_le_mono_r; lia).
  lia.
Qed.

(* a mantissa below 2^53 with the exponent of its binade, or any such
   mantissa at the least exponent, is a double *)
Lemma bounded_double : forall p e,
  (Zpos p < 2 ^ 53)%Z -> (-1074 <= e <= 971)%Z ->
  (2 ^ 52 <= Zpos p)%Z \/ e = (-1074)%Z ->
  bounded prec emax p e = true.
Proof.
  intros p e Hlt He Hn. unfold bounded, canonical_mantissa, fexp, emin, prec, emax.
  apply andb_true_iff. split; [|apply Z.leb_le; lia].
  apply Z.eqb_eq. pose proof (digits2_le_53 p Hlt).
  destruct Hn as [Hn|Hn]; [apply digits2_ge_53 in Hn|]; lia.
Qed.

Lemma Rabs_sign_factor : forall s, Rabs (sign_factor s) = 1.
Proof.
  intros [|]; unfold sign_factor, Rabs; destruct (Rcase_abs _); lra.
Qed.

(** [round_binary64] returns a double, within half a unit in the last
    place of the exact value. *)
Lemma round_binary64_spec : forall s n d,
  (0 < n)%Z -> (0 < d)%Z -> ratio n d < powerRZ 2 1023 ->
  let y := round_binary64 s n d in
  is_finite y = true
  /\ valid_binary prec emax y = true
  /\ Rabs (F2R y - sign_factor s * ratio n d)
     <= ratio n d * powerRZ 2 (-53) + powerRZ 2 (-1075).
Proof.
  intros s n d Hn Hd Hmax. unfold round_binary64.
  destruct (Z.eqb_spec n 0) as [|_]; [lia|].
  destruct (ilog2_ratio_spec n d Hn Hd) as [Hlo Hhi].
  set (fl := ilog2_ratio n d) in *.
  set (e := Z.max (fl - 52) (-1074)).
  pose proof (scale2_spec n d e Hd) as Hs.
  destruct (scale2 n d e) as [n' d']. destruct Hs as (Hd' & _ & Hn' & Hr).
  specialize (Hn' Hn).
  pose proof (round_half_even_spec n' d' ltac:(lia) Hd') as Hrhe.
  destruct (round_half_even_Z n' d' ltac:(lia) Hd') as [Hm0 _].
  set (m0 := round_half_even n' d') in *.
  set (v := ratio n d) in *.
  assert (Hv : 0 < v) by now apply ratio_pos.
  pose proof (powerRZ_pos 2 e ltac:(lia)) as Hpe.
  pose proof (powerRZ_pos 2 (- e) ltac:(lia)) as Hpne.
  assert (Hinv : powerRZ 2 e * powerRZ 2 (- e) = 1).
  { rewrite <- (powerRZ_plus 2) by lia. now replace (e + - e)%Z with 0%Z by lia. }
  (* the scaled value lies below 2^53, and above 2^52 in the normal range *)
  assert (Hx53 : ratio n' d' < powerRZ 2 53).
  { rewrite Hr. apply Rlt_le_trans with (powerRZ 2 (fl + 1) * powerRZ 2 (- e)).
    - apply Rmult_lt_compat_r; assumption.
    - rewrite <- (powerRZ_plus 2) by lia. apply (powerRZ_mono 2); lia. }
  assert (Hx52 : e = (fl - 52)%Z -> powerRZ 2 52 <= ratio n' d').
  { intros E. rewrite Hr. apply Rle_trans with (powerRZ 2 fl * powerRZ 2 (- e)).
    - rewrite <- (powerRZ_plus 2) by lia. apply (powerRZ_mono 2); lia.
    - apply Rmult_le_compat_r; lra. }
  assert (Hfl : (fl < 1023)%Z).
  { destruct (Z.lt_ge_cases fl 1023) as [|Hge]; [assumption|].
    pose proof (powerRZ_mono 2 1023 fl ltac:(lia) Hge). lra. }
  rewrite <- (powerRZ_IZR 2 53) in Hx53 by lia.
  rewrite <- (powerRZ_IZR 2 52) in Hx52 by lia.
  assert (Hm53 : (m0 <= 2 ^ 53)%Z).
  { apply Z.lt_succ_r. apply lt_IZR. unfold Z.succ. rewrite plus_IZR.
    apply Rabs_bound in Hrhe. lra. }
  assert (Hm52 : e = (fl - 52)%Z -> (2 ^ 52 <= m0)%Z).
  { intros E. specialize (Hx52 E). apply Z.lt_pred_le. apply lt_IZR.
    unfold Z.pred. rewrite plus_IZR. apply Rabs_bound in Hrhe. lra. }
  (* the error of the rounded mantissa, scaled back *)
  assert (Herr : Rabs (IZR m0 * powerRZ 2 e - v)
                 <= v * powerRZ 2 (-53) + powerRZ 2 (-1075)).
  { replace (IZR m0 * powerRZ 2 e - v)
      with ((IZR m0 - ratio n' d') * powerRZ 2 e)
      by (rewrite Hr; rewrite Rmult_minus_distr_r, Rmult_assoc;
          rewrite (Rmult_comm (powerRZ 2 (- e))), Hinv; ring).
    rewrite Rabs_mult, (Rabs_right (powerRZ 2 e)) by lra.
    apply Rle_trans with (/ 2 * powerRZ 2 e);
      [apply Rmult_le_compat_r; lra|].
    replace (/ 2 * powerRZ 2 e) with (powerRZ 2 (e - 1))
      by (rewrite (powerRZ_minus 2) by lia; simpl; field).
    pose proof (powerRZ_pos 2 (-53) ltac:(lia)).
    pose proof (powerRZ_pos 2 (-1075) ltac:(lia)).
    destruct (Z.max_spec (fl - 52) (-1074)) as [[_ E]|[_ E]]; fold e in E.
    - rewrite E. replace (-1074 - 1)%Z with (-1075)%Z by lia. nra.
    - rewrite E. replace (fl - 52 - 1)%Z with (fl + -53)%Z by lia.
      rewrite (powerRZ_plus 2) by lia. nra. }
  assert (He : (-1074 <= e <= 970)%Z) by (unfold e; lia).
  destruct (Z.eqb_spec m0 (2 ^ 53)) as [E53|N53].
  - (* the mantissa rounded up to 2^53: one binade higher *)
    change (2 ^ 52)%Z with 4503599627370496%Z. cbv iota beta.
    destruct (Z.leb_spec (e + 1) 971) as [_|]; [|lia].
    split; [reflexivity|]. split.
    + apply bounded_double; [reflexivity | lia | left; reflexivity].
    + unfold F2R. fold (sign_factor s). rewrite E53 in Herr.
      replace (sign_factor s * IZR 4503599627370496 * powerRZ 2 (e + 1)
               - sign_factor s * v)
        with (sign_factor s * (IZR (2 ^ 53) * powerRZ 2 e - v))
        by (rewrite (powerRZ_plus 2) by lia; change (powerRZ 2 1) with (2 * 1);
            change (2 ^ 53)%Z with 9007199254740992%Z; ring).
      rewrite Rabs_mult, Rabs_sign_factor. lra.
  - destruct m0 as [|p|p] eqn:Em; [| |lia].
    + split; [reflexivity|]. split; [reflexivity|].
      unfold F2R. rewrite Rmult_0_l, Rminus_0_l in Herr.
      rewrite Rabs_Ropp in Herr.
      rewrite Rminus_0_l, Rabs_Ropp, Rabs_mult, Rabs_sign_factor. lra.
    + destruct (Z.leb_spec e 971) as [_|]; [|lia].
      split; [reflexivity|]. split.
      * apply bounded_double; [lia | lia |].
        destruct (Z.max_spec (fl - 52) (-1074)) as [[_ E]|[_ E]]; fold e in E;
          [now right | left; now apply Hm52].
      * unfold F2R. fold (sign_factor s).
        replace (sign_factor s * IZR (Z.pos p) * powerRZ 2 e - sign_factor s * v)
          with (sign_factor s * (IZR (Z.pos p) * powerRZ 2 e - v)) by ring.
        rewrite Rabs_mult, Rabs_sign_factor. lra.
Qed.

Lemma ilog10_up_spec : forall fuel n d,
  (0 < d)%Z -> (d <= n)%Z -> (n < d * 10 ^ Z.of_nat fuel)%Z ->
  let X := ilog10_up fuel n d in
  (0 <= X)%Z /\ (d * 10 ^ X <= n < d * 10 ^ (X + 1))%Z.
Proof.
  induction fuel as [|fuel IH]; intros n d Hd Hle Hlt.
  - simpl in Hlt. lia.
  - cbn [ilog10_up]. destruct (Z.ltb_spec n (10 * d)) as [H|H].
    + simpl. lia.
    + rewrite Nat2Z.inj_succ, Z.pow_succ_r in Hlt by lia.
      destruct (IH n (10 * d)%Z ltac:(lia) H ltac:(lia)) as [H0 [H1 H2]].
      set (X := ilog10_up fuel n (10 * d)) in *.
      split; [lia|].
      rewrite !Z.pow_add_r by lia. rewrite Z.pow_add_r in H2 by lia.
      change (10 ^ 1)%Z with 10%Z in *. lia.
Qed.

Lemma ilog10_down_spec : forall fuel n d,
  (0 < n)%Z -> (n < d)%Z -> (d <= n * 10 ^ Z.of_nat fuel)%Z ->
  let k := ilog10_down fuel n d in
  (1 <= k)%Z /\ (n * 10 ^ (k - 1) < d <= n * 10 ^ k)%Z.
Proof.
  induction fuel as [|fuel IH]; intros n d Hn Hlt Hle.
  - simpl in Hle. lia.
  - cbn [ilog10_down]. destruct (Z.leb_spec d (10 * n)) as [H|H].
    + simpl. lia.
    + rewrite Nat2Z.inj_succ, Z.pow_succ_r in Hle by lia.
      destruct (IH (10 * n)%Z d ltac:(lia) H ltac:(lia)) as [H0 [H1 H2]].
      set (k := ilog10_down fuel (10 * n) d) in *.
      split; [lia|].
      replace (1 + k - 1)%Z with (1 + (k - 1))%Z by lia.
      rewrite !Z.pow_add_r by lia.
      change (10 ^ 1)%Z with 10%Z in *. lia.
Qed.

Lemma pow10_above : forall n,
  (0 < n)%Z -> (n < 10 ^ Z.of_nat (S (Z.to_nat (Z.log2 n))))%Z.
Proof.
  intros n Hn. pose proof (Z.log2_spec n Hn) as [_ H].
  pose proof (Z.log2_nonneg n).
  rewrite Nat2Z.inj_succ, Z2Nat.id by lia.
  apply Z.lt_le_trans with (2 ^ Z.succ (Z.log2 n))%Z; [exact H|].
  apply Z.pow_le_mono_l. lia.
Qed.

Lemma ilog10_ratio_spec : forall n d,
  (0 < n)%Z -> (0 < d)%Z ->
  powerRZ 10 (ilog10_ratio n d) <= ratio n d
  /\ ratio n d < powerRZ 10 (ilog10_ratio n d + 1).
Proof.
  intros n d Hn Hd. unfold ilog10_ratio.
  assert (Hd' : 0 < IZR d) by (apply IZR_lt; lia).
  assert (Hn' : 0 < IZR n) by (apply IZR_lt; lia).
  destruct (Z.leb_spec d n) as [H|H].
  - destruct (ilog10_up_spec (S (Z.to_nat (Z.log2 n))) n d Hd H) as [H0 [H1 H2]].
    { pose proof (pow10_above n Hn). nia. }
    set (X := ilog10_up _ n d) in *.
    apply IZR_le in H1. apply IZR_lt in H2.
    rewrite mult_IZR, powerRZ_IZR in H1, H2 by lia.
    split; [apply ratio_ge | apply ratio_lt]; try assumption; lra.
  - destruct (ilog10_down_spec (S (Z.to_nat (Z.log2 d))) n d Hn H) as [H0 [H1 H2]].
    { pose proof (pow10_above d Hd). nia. }
    set (k := ilog10_down _ n d) in *.
    apply IZR_lt in H1. apply IZR_le in H2.
    rewrite mult_IZR, powerRZ_IZR in H1, H2 by lia.
    pose proof (powerRZ_pos 10 k ltac:(lia)) as Hk.
    pose proof (powerRZ_pos 10 (k - 1) ltac:(lia)) as Hk1.
    assert (E1 : powerRZ 10 (- k) * powerRZ 10 k = 1).
    { rewrite <- (powerRZ_plus 10) by lia.
      now replace (- k + k)%Z with 0%Z by lia. }
    assert (E2 : powerRZ 10 (- k + 1) * powerRZ 10 (k - 1) = 1).
    { rewrite <- (powerRZ_plus 10) by lia.
      now replace (- k + 1 + (k - 1))%Z with 0%Z by lia. }
    pose proof (powerRZ_pos 10 (- k) ltac:(lia)).
    pose proof (powerRZ_pos 10 (- k + 1) ltac:(lia)).
    split; [apply ratio_ge | apply ratio_lt]; try assumption.
    + apply Rmult_le_reg_r with (powerRZ 10 k); [assumption|].
      replace (powerRZ 10 (- k) * IZR d * powerRZ 10 k)
        with (powerRZ 10 (- k) * powerRZ 10 k * IZR d) by ring.
      rewrite E1. lra.
    + apply Rmult_lt_reg_r with (powerRZ 10 (k - 1)); [assumption|].
      replace (powerRZ 10 (- k + 1) * IZR d * powerRZ 10 (k - 1))
        with (powerRZ 10 (- k + 1) * powerRZ 10 (k - 1) * IZR d) by ring.
      rewrite E2. lra.
Qed.

(** [round_sig] keeps [nd] significant digits, within half a unit of the
    last one. *)
Lemma round_sig_spec : forall nd n d,
  (1 <= nd)%Z -> (0 < n)%Z -> (0 < d)%Z ->
  let '(D, X) := round_sig nd n d in
  (10 ^ (nd - 1) <= D < 10 ^ nd)%Z
  /\ Rabs (IZR D * powerRZ 10 (X - (nd - 1)) - ratio n d)
     <= ratio n d * powerRZ 10 (- (nd - 1)) / 2
  /\ Rabs (IZR D * powerRZ 10 (X - (nd - 1)) - ratio n d)
     <= powerRZ 10 (ilog10_ratio n d - (nd - 1)) / 2.
Proof.
  intros nd n d Hnd Hn Hd. unfold round_sig.
  destruct (ilog10_ratio_spec n d Hn Hd) as [Hlo Hhi].
  set (X := ilog10_ratio n d) in *.
  set (q := (X - (nd - 1))%Z).
  pose proof (scale10_spec n d q Hd) as Hs.
  destruct (scale10 n d q) as [n' d']. destruct Hs as (Hd' & _ & Hn' & Hr).
  specialize (Hn' Hn).
  pose proof (round_half_even_spec n' d' ltac:(lia) Hd') as Hrhe.
  set (D0 := round_half_even n' d') in *.
  set (v := ratio n d) in *.
  assert (Hv : 0 < v) by now apply ratio_pos.
  pose proof (powerRZ_pos 10 q ltac:(lia)) as Hpq.
  pose proof (powerRZ_pos 10 (- q) ltac:(lia)) as Hpnq.
  assert (Hinv : powerRZ 10 q * powerRZ 10 (- q) = 1).
  { rewrite <- (powerRZ_plus 10) by lia. now replace (q + - q)%Z with 0%Z by lia. }
  assert (Hxhi : ratio n' d' < IZR (10 ^ nd)).
  { rewrite Hr, powerRZ_IZR by lia.
    apply Rlt_le_trans with (powerRZ 10 (X + 1) * powerRZ 10 (- q)).
    - apply Rmult_lt_compat_r; assumption.
    - rewrite <- (powerRZ_plus 10) by lia. apply (powerRZ_mono 10); lia. }
  assert (Hxlo : IZR (10 ^ (nd - 1)) <= ratio n' d').
  { rewrite Hr, powerRZ_IZR by lia.
    apply Rle_trans with (powerRZ 10 X * powerRZ 10 (- q)).
    - rewrite <- (powerRZ_plus 10) by lia. apply (powerRZ_mono 10); lia.
    - apply Rmult_le_compat_r; lra. }
  apply Rabs_bound in Hrhe.
  assert (HDhi : (D0 <= 10 ^ nd)%Z).
  { apply Z.lt_succ_r. apply lt_IZR. unfold Z.succ. rewrite plus_IZR. lra. }
  assert (HDlo : (10 ^ (nd - 1) <= D0)%Z).
  { apply Z.lt_pred_le. apply lt_IZR. unfold Z.pred. rewrite plus_IZR. lra. }
  assert (Herr : Rabs (IZR D0 * powerRZ 10 q - v)
                 <= v * powerRZ 10 (- (nd - 1)) / 2
                 /\ Rabs (IZR D0 * powerRZ 10 q - v) <= powerRZ 10 q / 2).
  { replace (IZR D0 * powerRZ 10 q - v)
      with ((IZR D0 - ratio n' d') * powerRZ 10 q)
      by (rewrite Hr; rewrite Rmult_minus_distr_r, Rmult_assoc;
          rewrite (Rmult_comm (powerRZ 10 (- q))), Hinv; ring).
    rewrite Rabs_mult, (Rabs_right (powerRZ 10 q)) by lra.
    assert (Hhalf : Rabs (IZR D0 - ratio n' d') * powerRZ 10 q
                    <= / 2 * powerRZ 10 q).
    { apply Rmult_le_compat_r; [lra|]. unfold Rabs.
      destruct (Rcase_abs _); lra. }
    split; [|lra].
    apply Rle_trans with (/ 2 * powerRZ 10 q); [exact Hhalf|].
    unfold q. replace (X - (nd - 1))%Z with (X + - (nd - 1))%Z by lia.
    rewrite (powerRZ_plus 10) by lia.
    pose proof (powerRZ_pos 10 (- (nd - 1)) ltac:(lia)). nra. }
  assert (Hpow : (10 ^ nd = 10 * 10 ^ (nd - 1))%Z).
  { replace nd with (Z.succ (nd - 1)) at 1 by lia.
    rewrite Z.pow_succ_r by lia. reflexivity. }
  assert (Hpos : (0 < 10 ^ (nd - 1))%Z) by (apply Z.pow_pos_nonneg; lia).
  destruct (Z.eqb_spec D0 (10 ^ nd)) as [E|N].
  - split; [lia|]. rewrite E in Herr.
    replace (IZR (10 ^ (nd - 1)) * powerRZ 10 (X + 1 - (nd - 1)))
      with (IZR (10 ^ nd) * powerRZ 10 q); [exact Herr|].
    rewrite Hpow, mult_IZR. unfold q.
    replace (X + 1 - (nd - 1))%Z with (1 + (X - (nd - 1)))%Z by lia.
    rewrite (powerRZ_plus 10) by lia. change (powerRZ 10 1) with (10 * 1). ring.
  - split; [lia|]. exact Herr.
Qed.

(** ** Numbers written and read back *)

Local Close Scope R_scope.

Lemma num_char_facts : forall c,
  is_num_char c = true ->
  not_space c = true /\ not_underscore c = true /\ not_sep c = true
  /\ no_close c = true.
Proof.
  intros [[] [] [] [] [] [] [] []]; vm_compute; intros; repeat split; congruence.
Qed.

Lemma digit_is_num_char : forall c, is_digit c = true -> is_num_char c = true.
Proof. intros c H. unfold is_num_char. now rewrite H. Qed.

Lemma digit_not_special : forall c,
  is_digit c = true ->
  Ascii.eqb (lower_char c) "i" = false /\ Ascii.eqb (lower_char c) "n" = false
  /\ Ascii.eqb c "-" = false /\ Ascii.eqb c "+" = false
  /\ Ascii.eqb c "." = false /\ Ascii.eqb c "e" = false
  /\ Ascii.eqb c "E" = false.
Proof.
  intros [[] [] [] [] [] [] [] []]; vm_compute; intros; repeat split; congruence.
Qed.

Lemma string_forall_impl : forall (p q : ascii -> bool) s,
  (forall c, p c = true -> q c = true) ->
  string_forall p s = true -> string_forall q s = true.
Proof.
  intros p q s Hpq. induction s as [|c s IH]; simpl; [reflexivity|].
  intros H. apply andb_true_iff in H as [H1 H2].
  now rewrite (Hpq c H1), (IH H2).
Qed.

Lemma take_while_all : forall p s,
  string_forall p s = true -> take_while p s = (s, EmptyString).
Proof.
  intros p. induction s as [|c s IH]; simpl; [reflexivity|].
  intros H. apply andb_true_iff in H as [H1 H2].
  now rewrite H1, (IH H2).
Qed.

Lemma take_while_prefix : forall p g rest,
  string_forall p g = true ->
  match rest with String c _ => p c = false | EmptyString => True end ->
  take_while p (g ++ rest) = (g, rest).
Proof.
  intros p g rest Hg Hr. rewrite take_while_app, Hg.
  rewrite (take_while_stop p rest Hr). now rewrite append_nil_r.
Qed.

Lemma lstrip_no_space : forall s,
  string_forall not_space s = true -> lstrip s = s.
Proof.
  intros [|c s]; simpl; [reflexivity|]. unfold not_space at 1.
  destruct (is_space c); [discriminate | reflexivity].
Qed.

Lemma rstrip_no_space : forall s,
  string_forall not_space s = true -> rstrip s = s.
Proof.
  induction s as [|c s IH]; simpl; [reflexivity|].
  intros H. apply andb_true_iff in H as [H1 H2]. rewrite (IH H2).
  unfold not_space in H1. destruct s; [|reflexivity].
  destruct (is_space c); [discriminate | reflexivity].
Qed.

Lemma strip_no_space : forall s,
  string_forall not_space s = true -> strip s = s.
Proof.
  intros s H. unfold strip. rewrite (lstrip_no_space s H).
  now apply rstrip_no_space.
Qed.

Lemma strip_underscores_none : forall s prev,
  Ascii.eqb prev "_" = false ->
  string_forall not_underscore s = true ->
  strip_underscores prev s = Some s.
Proof.
  induction s as [|c s IH]; intros prev Hp H; simpl.
  - now rewrite Hp.
  - simpl in H. apply andb_true_iff in H as [H1 H2].
    unfold not_underscore in H1. destruct (Ascii.eqb c "_") eqn:E; [discriminate|].
    rewrite Hp. simpl. now rewrite (IH c E H2).
Qed.

Lemma length_repeat_string : forall c k, String.length (repeat_string c k) = k.
Proof. induction k; simpl; congruence. Qed.

Lemma string_forall_repeat : forall (p : ascii -> bool) c k,
  p c = true -> string_forall p (repeat_string c k) = true.
Proof. intros p c k H. induction k; simpl; [reflexivity | now rewrite H]. Qed.

(** *** Digit strings *)

Lemma digits_value_acc_shift : forall s a,
  digits_value_acc a s = a * 10 ^ Z.of_nat (String.length s) + digits_value s.
Proof.
  unfold digits_value.
  induction s as [|c s IH]; intros a; cbn [digits_value_acc String.length].
  - change (10 ^ Z.of_nat 0) with 1. lia.
  - rewrite IH. rewrite (IH (10 * 0 + _)).
    rewrite Nat2Z.inj_succ, Z.pow_succ_r by lia. lia.
Qed.

Lemma digits_value_app : forall s t,
  digits_value (s ++ t)
  = digits_value s * 10 ^ Z.of_nat (String.length t) + digits_value t.
Proof.
  intros s t. unfold digits_value at 1. rewrite digits_value_acc_app.
  fold (digits_value s). apply digits_value_acc_shift.
Qed.

Lemma digits_value_zeros : forall k, digits_value (repeat_string "0" k) = 0.
Proof.
  induction k as [|k IH]; [reflexivity|].
  unfold digits_value in *. cbn [repeat_string digits_value_acc].
  exact IH.
Qed.

Lemma rstrip_zeros_spec : forall s,
  exists z, s = rstrip_zeros s ++ repeat_string "0" z.
Proof.
  induction s as [|c s [z E]]; [exists O; reflexivity|].
  simpl. destruct (rstrip_zeros s) as [|c' r] eqn:R.
  - simpl in E. destruct (Ascii.eqb_spec c "0") as [->|N].
    + exists (S z). simpl. now rewrite <- E.
    + exists z. simpl. now rewrite <- E.
  - exists z. simpl. simpl in E. now rewrite <- E.
Qed.

Lemma rstrip_zeros_forall : forall p s,
  string_forall p s = true -> string_forall p (rstrip_zeros s) = true.
Proof.
  intros p s H. destruct (rstrip_zeros_spec s) as [z E].
  rewrite E, string_forall_app in H. now apply andb_true_iff in H as [H _].
Qed.

Lemma rstrip_zeros_app : forall t s,
  rstrip_zeros s <> EmptyString ->
  rstrip_zeros (t ++ s) = t ++ rstrip_zeros s.
Proof.
  induction t as [|c t IH]; intros s H; simpl; [reflexivity|].
  rewrite (IH s H). destruct (t ++ rstrip_zeros s) eqn:E; [|reflexivity].
  destruct t; simpl in E; [contradiction | discriminate].
Qed.

Lemma rstrip_zeros_value : forall s,
  digits_value s <> 0 -> rstrip_zeros s <> EmptyString.
Proof.
  intros s H E. destruct (rstrip_zeros_spec s) as [z Hz].
  rewrite E in Hz. simpl in Hz. rewrite Hz in H.
  now rewrite digits_value_zeros in H.
Qed.

Lemma split_at_spec : forall k s a b,
  split_at k s = (a, b) ->
  s = a ++ b /\ String.length a = Nat.min k (String.length s).
Proof.
  induction k as [|k IH]; intros s a b H.
  - destruct s; inversion H; subst; split; reflexivity.
  - destruct s as [|c s]; [inversion H; subst; split; reflexivity|].
    cbn [split_at] in H. destruct (split_at k s) as [a' b'] eqn:E.
    inversion H; subst. destruct (IH s a' b E) as [-> Hl].
    split; [reflexivity|]. cbn [String.length append]. rewrite Hl.
    rewrite length_append. lia.
Qed.

Lemma digits_fuel_length : forall f n acc,
  (n < 2 ^ N.of_nat f)%N -> (0 < f)%nat ->
  exists k : nat,
    String.length (digits_fuel f n acc) = (k + String.length acc)%nat
    /\ (1 <= k)%nat
    /\ ((0 < n)%N -> 10 ^ (Z.of_nat k - 1) <= Z.of_N n)
    /\ Z.of_N n < 10 ^ Z.of_nat k.
Proof.
  induction f as [|f IH]; intros n acc Hn Hf; [lia|].
  cbn [digits_fuel].
  destruct (N.ltb_spec n 10) as [Hlt|Hge].
  - exists 1%nat. cbn [String.length]. repeat split; lia.
  - rewrite Nat2N.inj_succ, N.pow_succ_r' in Hn.
    assert (Hdiv : (n / 10 < 2 ^ N.of_nat f)%N).
    { apply N.Div0.div_lt_upper_bound. lia. }
    assert (Hq : (1 <= n / 10)%N) by (apply N.div_le_lower_bound; lia).
    assert (Hf' : (0 < f)%nat).
    { destruct f; [|lia]. simpl in Hdiv. lia. }
    destruct (IH (n / 10)%N (String (digit_char (n mod 10)) acc) Hdiv Hf')
      as (k & El & Hk & Hlo & Hhi).
    exists (S k). rewrite El. cbn [String.length].
    pose proof (N.div_mod n 10 ltac:(lia)) as Hdm.
    assert (Hmod : (n mod 10 < 10)%N) by (apply N.mod_lt; lia).
    assert (Hz : 10 * Z.of_N (n / 10) <= Z.of_N n < 10 * (Z.of_N (n / 10) + 1)).
    { rewrite Hdm at 2 3. rewrite N2Z.inj_add, N2Z.inj_mul.
      pose proof (N2Z.is_nonneg (n mod 10)). apply N2Z.inj_lt in Hmod.
      change (Z.of_N 10) with 10 in *. lia. }
    specialize (Hlo ltac:(lia)).
    repeat split; try lia.
    + intros _. replace (Z.of_nat (S k) - 1) with (Z.succ (Z.of_nat k - 1)) by lia.
      rewrite Z.pow_succ_r by lia.
      apply Z.le_trans with (10 * Z.of_N (n / 10));
        [apply Z.mul_le_mono_nonneg_l; [lia | exact Hlo] | apply Hz].
    + rewrite Nat2Z.inj_succ, Z.pow_succ_r by lia.
      apply Z.lt_le_trans with (10 * (Z.of_N (n / 10) + 1));
        [apply Hz|].
      apply Z.mul_le_mono_nonneg_l; lia.
Qed.

Lemma str_of_N_length : forall n k,
  10 ^ (Z.of_nat k - 1) <= Z.of_N n < 10 ^ Z.of_nat k -> (1 <= k)%nat ->
  String.length (str_of_N n) = k.
Proof.
  intros n k [Hlo Hhi] Hk. unfold str_of_N.
  assert (Hpos : (0 < n)%N).
  { assert (0 < 10 ^ (Z.of_nat k - 1)) by (apply Z.pow_pos_nonneg; lia). lia. }
  destruct (digits_fuel_length (S (N.to_nat (N.log2 n))) n EmptyString)
    as (k' & El & Hk' & Hlo' & Hhi').
  - rewrite Nat2N.inj_succ, N2Nat.id. apply N.log2_spec. exact Hpos.
  - lia.
  - rewrite El. cbn [String.length]. specialize (Hlo' Hpos).
    assert (Z.of_nat k' - 1 < Z.of_nat k).
    { apply (Z.pow_lt_mono_r_iff 10); lia. }
    assert (Z.of_nat k - 1 < Z.of_nat k').
    { apply (Z.pow_lt_mono_r_iff 10); lia. }
    lia.
Qed.

Lemma str_of_N_value : forall n, digits_value (str_of_N n) = Z.of_N n.
Proof.
  intros n. destruct (str_of_N_spec n) as (_ & _ & H).
  unfold digits_value. rewrite H. lia.
Qed.

Lemma format_02d_spec : forall i,
  format_02d i <> EmptyString
  /\ string_forall is_digit (format_02d i) = true
  /\ digits_value (format_02d i) = Z.of_nat i.
Proof.
  intros i. unfold format_02d, str_of_nat.
  destruct (str_of_N_spec (N.of_nat i)) as (Hne & Hd & _).
  pose proof (str_of_N_value (N.of_nat i)) as Hv.
  set (s := str_of_N (N.of_nat i)) in *.
  destruct (Nat.ltb_spec (String.length s) 2) as [H|H].
  - repeat split.
    + destruct s; [congruence|]. destruct (repeat_string _ _); discriminate.
    + rewrite string_forall_app, Hd, string_forall_repeat; reflexivity.
    + rewrite digits_value_app, digits_value_zeros, Hv. lia.
  - repeat split; [assumption | assumption | lia].
Qed.

Lemma parse_exponent_written : forall X,
  parse_exponent
    ("e" ++ (if X <? 0 then "-" else "+") ++ format_02d (Z.to_nat (Z.abs X)))
  = Some X.
Proof.
  intros X. destruct (format_02d_spec (Z.to_nat (Z.abs X))) as (Hne & Hd & Hv).
  set (t := format_02d _) in *.
  unfold parse_exponent.
  destruct (Z.ltb_spec X 0) as [H|H];
    cbn [String.append parse_sign Ascii.eqb Bool.eqb orb andb];
    unfold take_digits; rewrite (take_while_all _ _ Hd); (destruct t; [congruence|]);
    cbn [is_empty orb negb]; rewrite Hv; f_equal; lia.
Qed.

(* reading [ip], then the fraction left of [fp], then an exponent part *)
Lemma parse_decimal_written : forall ip fp sfx ex,
  ip <> EmptyString ->
  string_forall is_digit ip = true -> string_forall is_digit fp = true ->
  parse_exponent sfx = Some ex ->
  match sfx with
  | String c _ => is_digit c = false /\ Ascii.eqb c "." = false
  | EmptyString => True
  end ->
  parse_decimal (ip ++ fraction_part fp ++ sfx)
  = Some (digits_value (ip ++ rstrip_zeros fp),
          ex - Z.of_nat (String.length (rstrip_zeros fp))).
Proof.
  intros ip fp sfx ex Hne Hip Hfp Hex Hsfx.
  pose proof (rstrip_zeros_forall _ _ Hfp) as Hr.
  unfold parse_decimal, take_digits, fraction_part.
  destruct (rstrip_zeros fp) as [|c r] eqn:R.
  - cbn [String.append]. rewrite take_while_prefix;
      [|exact Hip | destruct sfx; [exact I | apply Hsfx]].
    assert (E : match sfx with
                | String "." r0 => take_while is_digit r0
                | _ => (EmptyString, sfx)
                end = (EmptyString, sfx)).
    { destruct sfx as [|c s]; [reflexivity|]. destruct Hsfx as [_ Hc].
      destruct (Ascii.eqb_spec c "."); [discriminate|].
      destruct c as [[] [] [] [] [] [] [] []]; try reflexivity; congruence. }
    rewrite E. destruct ip; [congruence|]. cbn [is_empty andb].
    rewrite Hex. cbn [String.length]. reflexivity.
  - rewrite take_while_prefix; [|exact Hip | reflexivity].
    cbn [String.append].
    change (String c (r ++ sfx)) with (String c r ++ sfx).
    rewrite take_while_prefix;
      [|exact Hr | destruct sfx; [exact I | apply Hsfx]].
    destruct ip; [congruence|]. cbn [is_empty andb]. rewrite Hex. reflexivity.
Qed.
(** *** The layout of twelve digits reads back as the same decimal *)

Section Layout.
Variables D X : Z.
Hypothesis D_range : 10 ^ 11 <= D < 10 ^ 12.

Let ds : string := str_of_N (Z.to_N D).

Lemma D_pos : 0 < D.
Proof.
  pose proof D_range as H. change (10 ^ 11) with 100000000000 in H. lia.
Qed.

Lemma ds_digits : string_forall is_digit ds = true.
Proof. apply str_of_N_spec. Qed.

Lemma ds_value : digits_value ds = D.
Proof.
  unfold ds. rewrite str_of_N_value. apply Z2N.id, Z.lt_le_incl, D_pos.
Qed.

Lemma ds_length : String.length ds = 12%nat.
Proof.
  apply str_of_N_length; [|lia].
  rewrite Z2N.id by apply Z.lt_le_incl, D_pos. exact D_range.
Qed.

Lemma ds_split : forall k ip fp,
  (1 <= k <= 12)%nat -> split_at k ds = (ip, fp) ->
  ip <> EmptyString
  /\ string_forall is_digit ip = true /\ string_forall is_digit fp = true
  /\ digits_value (ip ++ fp) = D
  /\ String.length fp = (12 - k)%nat.
Proof.
  intros k ip fp Hk E. apply split_at_spec in E as [E Hl].
  pose proof ds_digits as Hd. pose proof ds_length as Hlen.
  rewrite <- ds_value. rewrite E in *.
  rewrite string_forall_app in Hd. apply andb_true_iff in Hd as [H1 H2].
  rewrite length_append in Hlen, Hl.
  repeat split; try assumption; try lia.
  intros ->. cbn [String.length] in *. lia.
Qed.

(* the decimal read from [ip], the fraction left of [fp] and a power of
   ten is the one of all the digits *)
Lemma written_value : forall ip fp ex,
  string_forall is_digit fp = true ->
  exists z,
    0 <= z
    /\ digits_value (ip ++ fp) = digits_value (ip ++ rstrip_zeros fp) * 10 ^ z
    /\ ex - Z.of_nat (String.length (rstrip_zeros fp))
       = ex - Z.of_nat (String.length fp) + z.
Proof.
  intros ip fp ex Hfp. destruct (rstrip_zeros_spec fp) as [z E].
  exists (Z.of_nat z). split; [lia|].
  set (r := rstrip_zeros fp) in *. clearbody r. subst fp.
  rewrite <- append_assoc, digits_value_app.
  rewrite digits_value_zeros, !length_append, !length_repeat_string.
  split; lia.
Qed.

Lemma layout_g_parse :
  exists D' k' z,
    parse_decimal (layout_g 12 D X) = Some (D', k')
    /\ 0 <= z /\ D = D' * 10 ^ z /\ k' = X - 11 + z.
Proof.
  unfold layout_g. fold ds.
  destruct ((-4 <=? X) && (X <? 12))%bool eqn:Hfix.
  - apply andb_true_iff in Hfix as [H1 H2].
    apply Z.leb_le in H1. apply Z.ltb_lt in H2.
    destruct (Z.leb_spec 0 X) as [H0|H0].
    + destruct (split_at (Z.to_nat (X + 1)) ds) as [ip fp] eqn:E.
      destruct (ds_split (Z.to_nat (X + 1)) ip fp ltac:(lia) E) as (Hne & Hip & Hfp & Hv & Hl).
      rewrite <- (append_nil_r (fraction_part fp)).
      rewrite (parse_decimal_written ip fp EmptyString 0 Hne Hip Hfp eq_refl I).
      destruct (written_value ip fp 0 Hfp) as (z & Hz & Ev & Ek).
      exists (digits_value (ip ++ rstrip_zeros fp)),
             (0 - Z.of_nat (String.length (rstrip_zeros fp))), z.
      repeat split; try assumption; lia.
    + pose proof ds_digits as Hd. pose proof ds_value as Hv.
      pose proof ds_length as Hl.
      set (zs := repeat_string "0" (Z.to_nat (- X - 1))).
      assert (Hr : rstrip_zeros ds <> EmptyString)
        by (apply rstrip_zeros_value; pose proof D_pos; lia).
      assert (Hzs : string_forall is_digit (zs ++ ds) = true).
      { rewrite string_forall_app, Hd. unfold zs.
        now rewrite string_forall_repeat. }
      replace ("0." ++ zs ++ rstrip_zeros ds)
        with ("0" ++ fraction_part (zs ++ ds) ++ "").
      2:{ unfold fraction_part. rewrite (rstrip_zeros_app zs ds Hr).
          rewrite append_nil_r.
          destruct (zs ++ rstrip_zeros ds) eqn:E; [|reflexivity].
          destruct zs; simpl in E; [contradiction | discriminate]. }
      rewrite (parse_decimal_written "0" (zs ++ ds) EmptyString 0
                 ltac:(discriminate) eq_refl Hzs eq_refl I).
      destruct (written_value "0" (zs ++ ds) 0 Hzs) as (z & Hz & Ev & Ek).
      exists (digits_value ("0" ++ rstrip_zeros (zs ++ ds))),
             (0 - Z.of_nat (String.length (rstrip_zeros (zs ++ ds)))), z.
      repeat split; try assumption.
      * rewrite <- Ev. change ("0" ++ zs ++ ds) with (String "0" zs ++ ds).
        rewrite digits_value_app, Hv.
        change (String "0" zs) with (repeat_string "0" (S (Z.to_nat (- X - 1)))).
        rewrite digits_value_zeros. lia.
      * rewrite Ek, length_append, Hl. unfold zs.
        rewrite length_repeat_string. lia.
  - assert (Hsci : X < -4 \/ 12 <= X).
    { apply andb_false_iff in Hfix as [H|H];
        [apply Z.leb_gt in H | apply Z.ltb_ge in H]; lia. }
    destruct (split_at 1 ds) as [ip fp] eqn:E.
    destruct (ds_split 1%nat ip fp ltac:(lia) E) as (Hne & Hip & Hfp & Hv & Hl).
    rewrite (parse_decimal_written ip fp _ X Hne Hip Hfp
               (parse_exponent_written X) ltac:(split; reflexivity)).
    destruct (written_value ip fp X Hfp) as (z & Hz & Ev & Ek).
    exists (digits_value (ip ++ rstrip_zeros fp)),
           (X - Z.of_nat (String.length (rstrip_zeros fp))), z.
    repeat split; try assumption; lia.
Qed.

Lemma fraction_part_chars : forall fp,
  string_forall is_digit fp = true ->
  string_forall is_num_char (fraction_part fp) = true.
Proof.
  intros fp H. apply (rstrip_zeros_forall is_digit) in H.
  unfold fraction_part. destruct (rstrip_zeros fp) as [|c r]; [reflexivity|].
  change (String "." (String c r)) with ("." ++ String c r).
  rewrite string_forall_app. simpl string_forall at 1.
  apply (string_forall_impl is_digit); [apply digit_is_num_char | exact H].
Qed.

Lemma layout_g_chars :
  string_forall is_num_char (layout_g 12 D X) = true
  /\ exists c r, layout_g 12 D X = String c r /\ is_digit c = true.
Proof.
  unfold layout_g. fold ds.
  assert (Hnum : forall s, string_forall is_digit s = true ->
                           string_forall is_num_char s = true).
  { intros s. apply string_forall_impl. apply digit_is_num_char. }
  assert (Hhead : forall ip t, ip <> EmptyString ->
            string_forall is_digit ip = true ->
            exists c r, ip ++ t = String c r /\ is_digit c = true).
  { intros [|c ip] t Hne Hd; [congruence|]. exists c, (ip ++ t).
    simpl in Hd. apply andb_true_iff in Hd as [Hc _]. now split. }
  destruct ((-4 <=? X) && (X <? 12))%bool eqn:Hfix.
  - apply andb_true_iff in Hfix as [H1 H2].
    apply Z.leb_le in H1. apply Z.ltb_lt in H2.
    destruct (Z.leb_spec 0 X) as [H0|H0].
    + destruct (split_at (Z.to_nat (X + 1)) ds) as [ip fp] eqn:E.
      destruct (ds_split (Z.to_nat (X + 1)) ip fp ltac:(lia) E) as (Hne & Hip & Hfp & Hv & Hl).
      split; [|now apply Hhead].
      now rewrite string_forall_app, (Hnum ip Hip), fraction_part_chars.
    + split; [|exists "0"%char; eexists; split; reflexivity].
      change ("0." ++ repeat_string "0" (Z.to_nat (- X - 1)) ++ rstrip_zeros ds)
        with ("0." ++ (repeat_string "0" (Z.to_nat (- X - 1)) ++ rstrip_zeros ds)).
      rewrite !string_forall_app.
      rewrite (string_forall_repeat is_num_char) by reflexivity.
      rewrite (Hnum _ (rstrip_zeros_forall _ _ ds_digits)). reflexivity.
  - destruct (split_at 1 ds) as [ip fp] eqn:E.
    destruct (ds_split 1%nat ip fp ltac:(lia) E) as (Hne & Hip & Hfp & Hv & Hl).
    split; [|now apply Hhead].
    destruct (format_02d_spec (Z.to_nat (Z.abs X))) as (_ & Hd & _).
    rewrite !string_forall_app, (Hnum ip Hip), fraction_part_chars by exact Hfp.
    rewrite (Hnum _ Hd). now destruct (X <? 0).
Qed.
End Layout.

Lemma parse_sign_digit : forall c r,
  is_digit c = true -> parse_sign (String c r) = (false, String c r).
Proof.
  intros [[] [] [] [] [] [] [] []] r H; try reflexivity;
    vm_compute in H; discriminate.
Qed.

Lemma digits_are_no_keyword : forall c r,
  is_digit c = true ->
  (String.eqb (lower (String c r)) "inf"
   || String.eqb (lower (String c r)) "infinity")%bool = false
  /\ String.eqb (lower (String c r)) "nan" = false.
Proof.
  intros c r H. destruct (digit_not_special c H) as (Hi & Hn & _).
  cbn [lower String.eqb]. now rewrite Hi, Hn.
Qed.

(* float() of a sign and a decimal written with digits, point and exponent *)
Lemma float_of_string_written : forall s c r D k,
  is_digit c = true ->
  string_forall is_num_char (String c r) = true ->
  parse_decimal (String c r) = Some (D, k) ->
  float_of_string (sign_string s ++ String c r) = Some (float_of_decimal s D k).
Proof.
  intros s c r D k Hc Hall Hp.
  assert (Hall' : string_forall is_num_char (sign_string s ++ String c r) = true).
  { rewrite string_forall_app, Hall. now destruct s. }
  unfold float_of_string.
  rewrite strip_no_space
    by (revert Hall'; apply string_forall_impl; intros a Ha;
        apply (num_char_facts a Ha)).
  rewrite strip_underscores_none;
    [| reflexivity
     | revert Hall'; apply string_forall_impl; intros a Ha;
       apply (num_char_facts a Ha)].
  assert (Es : parse_sign (sign_string s ++ String c r) = (s, String c r)).
  { destruct s; [reflexivity|]. now apply parse_sign_digit. }
  rewrite Es. destruct (digits_are_no_keyword c r Hc) as [H1 H2].
  now rewrite H1, H2, Hp.
Qed.
Local Open Scope R_scope.

Lemma F2R_finite : forall s m e,
  F2R (S754_finite s m e) = sign_factor s * (IZR (Zpos m) * powerRZ 2 e).
Proof. intros. unfold F2R. fold (sign_factor s). ring. Qed.

Lemma Rabs_F2R_finite : forall s m e,
  Rabs (F2R (S754_finite s m e)) = IZR (Zpos m) * powerRZ 2 e.
Proof.
  intros. rewrite F2R_finite, Rabs_mult, Rabs_sign_factor, Rmult_1_l.
  apply Rabs_right. apply Rle_ge, Rmult_le_pos.
  - apply IZR_le. lia.
  - apply Rlt_le. apply (powerRZ_pos 2). lia.
Qed.

(** A finite double written with twelve significant digits and read back
    is a double within six parts in 10^12 of it. *)
Lemma format_12g_reads_back : forall s m e,
  let x := S754_finite s m e in
  Rabs (F2R x) < powerRZ 2 1022 ->
  exists y,
    float_of_string (format_12g x) = Some y
    /\ is_finite y = true
    /\ valid_binary prec emax y = true
    /\ Rabs (F2R y - F2R x)
       <= Rabs (F2R x) * (6 / 10 ^ 12) + powerRZ 2 (-1075)
    /\ forall B : Z,
         Rabs (F2R x) < powerRZ 10 B ->
         Rabs (F2R y - F2R x)
         <= powerRZ 10 (B - 12) / 2 + Rabs (F2R x) / 10 ^ 15
            + powerRZ 2 (-1075).
Proof.
  intros s m e x Hx. unfold x in *. rewrite Rabs_F2R_finite in *.
  rewrite F2R_finite.
  unfold format_12g, format_g.
  pose proof (scale2_spec (Zpos m) 1 (- e) ltac:(lia)) as Hs.
  destruct (scale2 (Zpos m) 1 (- e)) as [n d].
  destruct Hs as (Hd & _ & Hn & Hr). specialize (Hn ltac:(lia)).
  replace (ratio (Zpos m) 1) with (IZR (Zpos m)) in Hr by (unfold ratio; field).
  rewrite Z.opp_involutive in Hr.
  set (v := IZR (Zpos m) * powerRZ 2 e) in *.
  assert (Hv : 0 < v) by (rewrite <- Hr; now apply ratio_pos).
  pose proof (round_sig_spec 12 n d ltac:(lia) Hn Hd) as Hsig.
  destruct (ilog10_ratio_spec n d Hn Hd) as [Hlog _]. rewrite Hr in Hlog.
  set (X0 := ilog10_ratio n d) in *.
  destruct (round_sig 12 n d) as [D X]. destruct Hsig as (HD & Herr & Habs).
  change (12 - 1)%Z with 11%Z in *. rewrite Hr in Herr, Habs.
  destruct (layout_g_parse D X HD) as (D' & k' & z & Hp & Hz & ED & Ek).
  destruct (layout_g_chars D X HD) as (Hch & c & r & El & Hc).
  rewrite El in *.
  rewrite (float_of_string_written s c r D' k' Hc Hch Hp).
  unfold float_of_decimal.
  assert (HD' : (0 < D')%Z).
  { assert (0 < D)%Z by (change (10 ^ 11)%Z with 100000000000%Z in HD; lia).
    assert (0 < 10 ^ z)%Z by (apply Z.pow_pos_nonneg; lia). nia. }
  pose proof (scale10_spec D' 1 (- k') ltac:(lia)) as Hs.
  destruct (scale10 D' 1 (- k')) as [n2 d2].
  destruct Hs as (Hd2 & _ & Hn2 & Hr2). specialize (Hn2 HD').
  replace (ratio D' 1) with (IZR D') in Hr2 by (unfold ratio; field).
  rewrite Z.opp_involutive in Hr2.
  (* the decimal read is the decimal written *)
  assert (Hw : ratio n2 d2 = IZR D * powerRZ 10 (X - 11)).
  { rewrite Hr2, ED, Ek, mult_IZR, powerRZ_IZR by lia.
    replace (X - 11 + z)%Z with (z + (X - 11))%Z by lia.
    rewrite (powerRZ_plus 10) by lia. ring. }
  set (w := ratio n2 d2) in *.
  assert (Hten : powerRZ 10 (- (11)) = / 10 ^ 11) by (simpl; field).
  rewrite <- Hw, Hten in Herr. rewrite <- Hw in Habs. apply Rabs_bound in Herr.
  assert (Hw2 : w < powerRZ 2 1023).
  { change 1023%Z with (1 + 1022)%Z. rewrite (powerRZ_plus 2) by lia.
    change (powerRZ 2 1) with (2 * 1). lra. }
  destruct (round_binary64_spec s n2 d2 Hn2 Hd2 Hw2) as (Hfin & Hval & Hy).
  fold w in Hy.
  exists (round_binary64 s n2 d2).
  split; [reflexivity|]. split; [exact Hfin|]. split; [exact Hval|].
  assert (H53 : powerRZ 2 (-53) <= / (2 * 10 ^ 15)) by (simpl; lra).
  pose proof (powerRZ_pos 2 (-53) ltac:(lia)).
  pose proof (powerRZ_pos 2 (-1075) ltac:(lia)).
  assert (Htri : Rabs (F2R (round_binary64 s n2 d2) - sign_factor s * v)
                 <= Rabs (F2R (round_binary64 s n2 d2) - sign_factor s * w)
                    + Rabs (w - v)).
  { replace (F2R (round_binary64 s n2 d2) - sign_factor s * v)
      with ((F2R (round_binary64 s n2 d2) - sign_factor s * w)
            + sign_factor s * (w - v)) by ring.
    eapply Rle_trans; [apply Rabs_triang|].
    rewrite Rabs_mult, Rabs_sign_factor, Rmult_1_l. lra. }
  assert (Rabs (w - v) <= v * / 10 ^ 11 / 2)
    by (unfold Rabs; destruct (Rcase_abs _); lra).
  assert (w * powerRZ 2 (-53) <= v / 10 ^ 15).
  { apply Rle_trans with ((2 * v) * / (2 * 10 ^ 15));
      [apply Rmult_le_compat; lra | lra]. }
  split; [lra|].
  intros B HB.
  assert (HX0 : (X0 < B)%Z).
  { destruct (Z.lt_ge_cases X0 B) as [|Hge]; [assumption|].
    pose proof (powerRZ_mono 10 B X0 ltac:(lia) Hge). lra. }
  pose proof (powerRZ_mono 10 (X0 - 11) (B - 12) ltac:(lia) ltac:(lia)).
  lra.
Qed.

Local Close Scope R_scope.

(** *** Products with the entries of the identity matrix *)

Lemma one_float : (one_ : float) = S754_finite false 4503599627370496 (-52).
Proof. vm_compute. reflexivity. Qed.

Lemma zero_float : (zero_ : float) = S754_zero false.
Proof. vm_compute. reflexivity. Qed.

Lemma fmul_one : forall s m e,
  bounded prec emax m e = true ->
  fmul (S754_finite false 4503599627370496 (-52)) (S754_finite s m e)
  = S754_finite s m e.
Proof.
  intros s m e H. unfold bounded in H. apply andb_true_iff in H as [Hc He].
  unfold canonical_mantissa in Hc. apply Z.eqb_eq in Hc.
  unfold fmul, SFmul. cbn [xorb]. cbv [Pos.mul].
  unfold binary_round_aux, shr_fexp, Zdigits2. cbn [digits2_pos].
  match goal with
  | |- context [(fexp prec emax ?x - (-52 + e))%Z] =>
      assert (Hshift : (fexp prec emax x - (-52 + e) = 52)%Z)
        by (unfold fexp, SpecFloat.emin, prec, emax in *; lia);
      rewrite Hshift
  end.
  cbn [shr shr_record_of_loc iter_pos shr_1 orb].
  cbn [shr_m loc_of_shr_record round_nearest_even].
  replace (-52 + e + 52) with e by lia.
  rewrite Hc, Z.sub_diag. cbn [shr shr_m]. now rewrite He.
Qed.

Lemma fmul_one_finite : forall x,
  valid_binary prec emax x = true -> is_finite x = true ->
  fmul one_ x = x.
Proof.
  intros x Hv Hf. rewrite one_float.
  destruct x as [s|s| |s m e]; try discriminate; [reflexivity|].
  now apply fmul_one.
Qed.

Lemma fmul_zero_finite : forall x,
  is_finite x = true -> is_zero (fmul zero_ x) = true.
Proof.
  intros x Hf. rewrite zero_float.
  destruct x as [s|s| |s m e]; try discriminate; reflexivity.
Qed.

Lemma same_value_refl : forall x, same_value x x.
Proof. now left. Qed.

Lemma same_value_add_r : forall x y z,
  is_finite x = true -> same_value y x -> is_zero z = true ->
  same_value (fadd y z) x.
Proof.
  intros x y z Hf [->|[Hy Hx]] Hz.
  - destruct x as [s|s| |s m e]; try discriminate;
      destruct z as [s'| | |]; try discriminate.
    + right. split; [|reflexivity]. destruct s, s'; reflexivity.
    + now left.
  - right. split; [|exact Hx].
    destruct y as [s| | |]; try discriminate.
    destruct z as [s'| | |]; try discriminate. destruct s, s'; reflexivity.
Qed.

Lemma same_value_add_l : forall x y z,
  is_finite x = true -> same_value y x -> is_zero z = true ->
  same_value (fadd z y) x.
Proof.
  intros x y z Hf [->|[Hy Hx]] Hz.
  - destruct x as [s|s| |s m e]; try discriminate;
      destruct z as [s'| | |]; try discriminate.
    + right. split; [|reflexivity]. destruct s, s'; reflexivity.
    + now left.
  - right. split; [|exact Hx].
    destruct y as [s| | |]; try discriminate.
    destruct z as [s'| | |]; try discriminate. destruct s, s'; reflexivity.
Qed.

Lemma same_value_F2R : forall x y, same_value x y -> F2R x = F2R y.
Proof.
  intros x y [->|[Hx Hy]]; [reflexivity|].
  destruct x; try discriminate. destruct y; try discriminate. reflexivity.
Qed.

Lemma same_value_finite : forall x y,
  same_value x y -> is_finite y = true -> is_finite x = true.
Proof.
  intros x y [->|[Hx Hy]] H; [exact H|]. destruct x; try discriminate. reflexivity.
Qed.

(** The product of the identity matrix with a matrix of finite doubles
    has the values of that matrix. *)

Lemma identity_times : forall a b c d e f,
  finite_double a -> finite_double b -> finite_double c ->
  finite_double d -> finite_double e -> finite_double f ->
  let '((a', c', e'), (b', d', f'), _) :=
    mat_mul mat_identity ((a, c, e), (b, d, f), (zero_, zero_, one_)) in
  same_value a' a /\ same_value b' b /\ same_value c' c
  /\ same_value d' d /\ same_value e' e /\ same_value f' f.
Proof.
  intros a b c d e f [Va Fa] [Vb Fb] [Vc Fc] [Vd Fd] [Ve Fe] [Vf Ff].
  cbn [mat_mul mat_identity add mul float_Number].
  rewrite !fmul_one_finite by assumption.
  assert (Z0 : is_zero (fmul zero_ zero_) = true) by (vm_compute; reflexivity).
  assert (Z1 : is_zero (fmul zero_ one_) = true) by (vm_compute; reflexivity).
  pose proof (fmul_zero_finite a Fa). pose proof (fmul_zero_finite b Fb).
  pose proof (fmul_zero_finite c Fc). pose proof (fmul_zero_finite d Fd).
  pose proof (fmul_zero_finite e Fe). pose proof (fmul_zero_finite f Ff).
  repeat split;
    (apply same_value_add_r; [assumption | | assumption]);
    first [ apply same_value_add_r; [assumption | apply same_value_refl | assumption]
          | apply same_value_add_l; [assumption | apply same_value_refl | assumption] ].
Qed.

(** *** Numbers separated by spaces *)

Lemma not_sep_not_space : forall c, not_sep c = true -> not_space c = true.
Proof.
  intros c. unfold not_sep, not_space, is_sep.
  destruct (Ascii.eqb c ","), (is_space c); simpl; congruence.
Qed.

Lemma re_split_piece : forall t rest cur,
  string_forall not_sep t = true ->
  re_split (t ++ rest) cur false = re_split rest (cur ++ t) false.
Proof.
  induction t as [|c t IH]; intros rest cur H.
  - now rewrite append_nil_r.
  - simpl in H. apply andb_true_iff in H as [Hc Ht].
    unfold not_sep in Hc. cbn [String.append re_split].
    destruct (is_sep c); [discriminate|].
    rewrite (IH rest _ Ht), append_assoc. reflexivity.
Qed.

Lemma re_split_token : forall t rest b,
  is_token t -> re_split (t ++ rest) EmptyString b = re_split rest t false.
Proof.
  intros [|c t] rest b [Hne H]; [congruence|].
  simpl in H. apply andb_true_iff in H as [Hc Ht].
  unfold not_sep in Hc. cbn [String.append re_split].
  destruct (is_sep c); [discriminate|].
  now rewrite (re_split_piece t rest _ Ht).
Qed.

Lemma re_split_unwords : forall ts b,
  ts <> [] -> Forall is_token ts ->
  re_split (unwords ts) EmptyString b = ts.
Proof.
  induction ts as [|t ts IH]; intros b Hne H; [congruence|].
  inversion H as [|? ? Ht Hts]; subst.
  destruct ts as [|t2 ts].
  - cbn [unwords]. rewrite <- (append_nil_r t) at 1.
    now rewrite re_split_token.
  - change (unwords (t :: t2 :: ts)) with (t ++ " " ++ unwords (t2 :: ts)).
    rewrite re_split_token by exact Ht.
    change (" " ++ unwords (t2 :: ts)) with (String " " (unwords (t2 :: ts))).
    cbn [re_split]. change (is_sep " ") with true. cbv iota.
    f_equal. apply IH; [discriminate | exact Hts].
Qed.

Lemma rstrip_app : forall a b,
  rstrip b <> EmptyString -> rstrip (a ++ b) = a ++ rstrip b.
Proof.
  induction a as [|c a IH]; intros b H; simpl; [reflexivity|].
  rewrite (IH b H). destruct (a ++ rstrip b) eqn:E; [|reflexivity].
  destruct a; simpl in E; [contradiction | discriminate].
Qed.

Lemma token_no_space : forall t,
  is_token t -> string_forall not_space t = true.
Proof.
  intros t [_ H]. revert H. apply string_forall_impl, not_sep_not_space.
Qed.

Lemma unwords_head : forall t ts, exists r, unwords (t :: ts) = t ++ r.
Proof.
  intros t [|t2 ts].
  - exists EmptyString. simpl. now rewrite append_nil_r.
  - exists (" " ++ unwords (t2 :: ts)). reflexivity.
Qed.

Lemma rstrip_unwords : forall ts,
  ts <> [] -> Forall is_token ts ->
  rstrip (unwords ts) = unwords ts /\ unwords ts <> EmptyString.
Proof.
  induction ts as [|t ts IH]; intros Hne H; [congruence|].
  inversion H as [|? ? Ht Hts]; subst.
  assert (Hnz : unwords (t :: ts) <> EmptyString).
  { destruct (unwords_head t ts) as [r ->]. destruct Ht as [Ht _].
    destruct t; [congruence | discriminate]. }
  split; [|exact Hnz].
  destruct ts as [|t2 ts].
  - cbn [unwords]. apply rstrip_no_space. now apply token_no_space.
  - destruct (IH ltac:(discriminate) Hts) as [E Hn].
    change (unwords (t :: t2 :: ts)) with (t ++ " " ++ unwords (t2 :: ts)).
    rewrite <- append_assoc. rewrite rstrip_app; rewrite E; [reflexivity | exact Hn].
Qed.

Lemma strip_unwords : forall ts,
  ts <> [] -> Forall is_token ts -> strip (unwords ts) = unwords ts.
Proof.
  intros [|t ts] Hne H; [congruence|]. unfold strip.
  assert (El : lstrip (unwords (t :: ts)) = unwords (t :: ts)).
  { destruct (unwords_head t ts) as [r ->].
    inversion H as [|? ? Ht _]; subst. pose proof (token_no_space t Ht) as Hs.
    destruct Ht as [Ht _]. destruct t as [|c t]; [congruence|].
    simpl in Hs. apply andb_true_iff in Hs as [Hc _]. unfold not_space in Hc.
    cbn [String.append lstrip]. now destruct (is_space c). }
  rewrite El. now apply rstrip_unwords.
Qed.

Lemma filter_tokens : forall ts,
  Forall is_token ts -> filter (fun p => negb (is_empty p)) ts = ts.
Proof.
  induction 1 as [|t ts [Ht _] _ IH]; [reflexivity|].
  simpl. destruct t; [congruence|]. simpl. now rewrite IH.
Qed.

Lemma mapM_to_float : forall ts ys,
  Forall2 (fun t y => float_of_string t = Some y) ts ys ->
  mapM to_float ts = Ok ys.
Proof.
  induction 1 as [|t y ts ys Hy _ IH]; [reflexivity|].
  cbn [mapM]. unfold to_float at 1. rewrite Hy. cbn [bind]. rewrite IH.
  reflexivity.
Qed.

Lemma parse_number_list_unwords : forall ts ys,
  ts <> [] -> Forall is_token ts ->
  Forall2 (fun t y => float_of_string t = Some y) ts ys ->
  parse_number_list (unwords ts) = Ok ys.
Proof.
  intros ts ys Hne Ht Hy. unfold parse_number_list.
  rewrite strip_unwords, re_split_unwords, filter_tokens by assumption.
  now apply mapM_to_float.
Qed.

Lemma string_forall_unwords : forall (p : ascii -> bool) ts,
  p " "%char = true ->
  Forall (fun t => string_forall p t = true) ts ->
  string_forall p (unwords ts) = true.
Proof.
  intros p ts Hp. induction 1 as [|t ts Ht Hts IH]; [reflexivity|].
  destruct ts as [|t2 ts]; [exact Ht|].
  change (unwords (t :: t2 :: ts)) with (t ++ " " ++ unwords (t2 :: ts)).
  rewrite !string_forall_app, Ht, IH. simpl. now rewrite Hp.
Qed.

(** *** What [format_12g] writes *)

Lemma format_12g_finite_chars : forall s m e,
  string_forall is_num_char (format_12g (S754_finite s m e)) = true
  /\ format_12g (S754_finite s m e) <> EmptyString
  /\ exists y, float_of_string (format_12g (S754_finite s m e)) = Some y.
Proof.
  intros s m e. unfold format_12g, format_g.
  pose proof (scale2_spec (Zpos m) 1 (- e) ltac:(lia)) as Hs.
  destruct (scale2 (Zpos m) 1 (- e)) as [n d].
  destruct Hs as (Hd & _ & Hn & _). specialize (Hn ltac:(lia)).
  pose proof (round_sig_spec 12 n d ltac:(lia) Hn Hd) as Hsig.
  destruct (round_sig 12 n d) as [D X]. destruct Hsig as [HD _].
  change (12 - 1) with 11 in HD.
  destruct (layout_g_parse D X HD) as (D' & k' & z & Hp & _).
  destruct (layout_g_chars D X HD) as (Hch & c & r & El & Hc).
  rewrite El in *. split; [|split].
  - rewrite string_forall_app, Hch. now destruct s.
  - destruct s; discriminate.
  - eexists. apply (float_of_string_written s c r D' k' Hc Hch Hp).
Qed.

Lemma format_12g_token : forall x,
  is_token (format_12g x)
  /\ string_forall no_close (format_12g x) = true
  /\ exists y, float_of_string (format_12g x) = Some y.
Proof.
  intros [s|s| |s m e].
  - destruct s; (split; [split; [discriminate | reflexivity]|]);
      (split; [reflexivity | eexists; vm_compute; reflexivity]).
  - destruct s; (split; [split; [discriminate | reflexivity]|]);
      (split; [reflexivity | eexists; vm_compute; reflexivity]).
  - split; [split; [discriminate | reflexivity]|].
    split; [reflexivity | eexists; vm_compute; reflexivity].
  - destruct (format_12g_finite_chars s m e) as (Hch & Hne & Hy).
    split; [split; [exact Hne|]|split; [|exact Hy]].
    + revert Hch. apply string_forall_impl. intros c Hc.
      apply (num_char_facts c Hc).
    + revert Hch. apply string_forall_impl. intros c Hc.
      apply (num_char_facts c Hc).
Qed.

(** *** Writing a matrix and reading it again *)

Local Open Scope R_scope.

Lemma F2Q_F2R : forall x, Q2R (F2Q x) = F2R x.
Proof.
  intros [s|s| |s m e]; try (unfold F2Q, Q2R; simpl; lra).
  unfold F2Q, F2R. fold (sign_factor s).
  pose proof (scale2_spec (Zpos m) 1 (- e) ltac:(lia)) as Hs.
  destruct (scale2 (Zpos m) 1 (- e)) as [n d].
  destruct Hs as (Hd & _ & _ & Hr).
  replace (ratio (Zpos m) 1) with (IZR (Zpos m)) in Hr by (unfold ratio; field).
  rewrite Z.opp_involutive in Hr.
  rewrite Rmult_assoc, <- Hr. unfold Q2R, ratio. cbn [Qnum Qden].
  rewrite Z2Pos.id by exact Hd.
  destruct s; unfold sign_factor; [rewrite opp_IZR|]; unfold Rdiv; ring.
Qed.

Lemma Qabs_le_R : forall q eps,
  Rabs (Q2R q) <= Q2R eps -> Qle_bool (Qabs q) eps = true.
Proof.
  intros q eps H. apply Qle_bool_iff. apply Qabs_Qle_condition.
  apply Rabs_bound in H. rewrite <- Q2R_opp in H.
  split; apply Rle_Qle; lra.
Qed.

Lemma Qabs_le_R_inv : forall q eps,
  Qle_bool (Qabs q) eps = true -> Rabs (Q2R q) <= Q2R eps.
Proof.
  intros q eps H. apply Qle_bool_iff in H. apply Qabs_Qle_condition in H.
  destruct H as [H1 H2]. apply Qle_Rle in H1, H2. rewrite Q2R_opp in H1.
  unfold Rabs. destruct (Rcase_abs _); lra.
Qed.

Lemma within_intro : forall eps x y,
  is_finite x = true -> is_finite y = true ->
  Rabs (F2R y - F2R x) <= Q2R eps -> within eps x y = true.
Proof.
  intros eps x y Hx Hy H. unfold within. rewrite Hx, Hy. cbn [andb].
  apply Qabs_le_R. now rewrite Q2R_minus, !F2Q_F2R.
Qed.

Lemma small_elim : forall x,
  small x = true -> is_finite x = true /\ Rabs (F2R x) < 1000.
Proof.
  intros x H. unfold small in H. apply andb_true_iff in H as [Hf H].
  split; [exact Hf|]. apply negb_true_iff in H.
  destruct (Rlt_le_dec (Rabs (F2R x)) 1000) as [|Hge]; [assumption|].
  assert (Hq : Qle_bool 1000 (Qabs (F2Q x)) = true); [|congruence].
  apply Qle_bool_iff. rewrite <- F2Q_F2R in Hge.
  apply Rle_Qle. replace (Q2R 1000) with 1000 by (unfold Q2R; simpl; field).
  apply (Qabs_case (F2Q x) (fun a => 1000 <= Q2R a)); intros Hs;
    apply Qle_Rle in Hs;
    replace (Q2R 0) with 0 in Hs by (unfold Q2R; simpl; field).
  - rewrite Rabs_right in Hge by lra. exact Hge.
  - rewrite Q2R_opp. unfold Rabs in Hge.
    destruct (Rcase_abs (Q2R (F2Q x))); lra.
Qed.

(** A small double, written with twelve digits and read back, moves by
    less than 1e-9: by half a unit of the twelfth digit, at most 5e-10
    below 1000, and by the rounding of the value read. *)
Lemma small_reads_back : forall x,
  small x = true ->
  exists y,
    float_of_string (format_12g x) = Some y
    /\ finite_double y
    /\ Rabs (F2R y - F2R x) <= 7 / 10 ^ 10.
Proof.
  intros x H. apply small_elim in H as [Hf Hx].
  destruct x as [s|s| |s m e]; try discriminate.
  - exists (S754_zero s). split; [destruct s; vm_compute; reflexivity|].
    split; [split; reflexivity|].
    rewrite Rminus_diag, Rabs_R0. lra.
  - assert (H1022 : 1000 < powerRZ 2 1022).
    { apply Rlt_le_trans with (powerRZ 2 10); [simpl; lra|].
      apply (powerRZ_mono 2); lia. }
    destruct (format_12g_reads_back s m e ltac:(lra))
      as (y & Hy & Hfin & Hval & _ & Herr).
    exists y. split; [exact Hy|]. split; [split; assumption|].
    assert (H3 : powerRZ 10 3 = 1000) by (simpl; ring).
    specialize (Herr 3%Z ltac:(rewrite H3; exact Hx)).
    assert (Htiny : powerRZ 2 (-1075) <= 1 / 10 ^ 10).
    { apply Rle_trans with (powerRZ 2 (-40)); [apply (powerRZ_mono 2); lia|].
      simpl. lra. }
    assert (H9 : powerRZ 10 (3 - 12) / 2 = 5 / 10 ^ 10) by (simpl; field).
    pose proof (Rabs_pos (F2R (S754_finite s m e))). lra.
Qed.
Local Close Scope R_scope.

Section RoundTrip.
Context {libm : Libm}.

Lemma matrix_to_svg_unwords : forall a b c d e f r,
  matrix_to_svg ((a, c, e), (b, d, f), r)
  = "matrix" ++ "" ++ "("
    ++ unwords [format_12g a; format_12g b; format_12g c;
                format_12g d; format_12g e; format_12g f] ++ ")".
Proof.
  intros. unfold matrix_to_svg. cbn [unwords].
  rewrite !append_assoc. reflexivity.
Qed.

Lemma parse_matrix_to_svg : forall a b c d e f r a' b' c' d' e' f',
  float_of_string (format_12g a) = Some a' ->
  float_of_string (format_12g b) = Some b' ->
  float_of_string (format_12g c) = Some c' ->
  float_of_string (format_12g d) = Some d' ->
  float_of_string (format_12g e) = Some e' ->
  float_of_string (format_12g f) = Some f' ->
  parse_transform (Some (matrix_to_svg ((a, c, e), (b, d, f), r)))
  = Ok (mat_mul mat_identity ((a', c', e'), (b', d', f'), (zero_, zero_, one_))).
Proof.
  intros a b c d e f r a' b' c' d' e' f' Ha Hb Hc Hd He Hf.
  rewrite matrix_to_svg_unwords.
  assert (Htok : Forall is_token
            [format_12g a; format_12g b; format_12g c;
             format_12g d; format_12g e; format_12g f])
    by (repeat constructor; apply format_12g_token).
  rewrite parse_single_command;
    [| discriminate | reflexivity | reflexivity
     | apply string_forall_unwords;
       [reflexivity | repeat constructor; apply format_12g_token]].
  unfold transform_step. cbn [fst snd].
  rewrite (parse_number_list_unwords _ [a'; b'; c'; d'; e'; f'])
    by (try discriminate; try assumption; repeat constructor; assumption).
  reflexivity.
Qed.

(** Every matrix of small entries is read back from its matrix(...) text
    with each free entry within 1e-9. *)
Lemma serialized_matrix_reads_back : forall M,
  forallb small (free_entries M) = true ->
  exists M',
    parse_transform (Some (matrix_to_svg M)) = Ok M'
    /\ entries_within (1 # 1000000000) M M' = true.
Proof.
  intros [[[[a c] e] [[b d] f]] r] H. cbn [free_entries forallb] in H.
  repeat (apply andb_true_iff in H as [?Hs H]).
  destruct (small_reads_back a Hs) as (a' & Ea & Fa & Da).
  destruct (small_reads_back b Hs0) as (b' & Eb & Fb & Db).
  destruct (small_reads_back c Hs1) as (c' & Ec & Fc & Dc).
  destruct (small_reads_back d Hs2) as (d' & Ed & Fd & Dd).
  destruct (small_reads_back e Hs3) as (e' & Ee & Fe & De).
  destruct (small_reads_back f Hs4) as (f' & Ef & Ff & Df).
  exists (mat_mul mat_identity
            ((a', c', e'), (b', d', f'), (zero_, zero_, one_))).
  split; [now apply parse_matrix_to_svg|].
  pose proof (identity_times a' b' c' d' e' f' Fa Fb Fc Fd Fe Ff) as Hid.
  destruct (mat_mul mat_identity
              ((a', c', e'), (b', d', f'), (zero_, zero_, one_)))
    as [[[[a2 c2] e2] [[b2 d2] f2]] r2].
  destruct Hid as (Sa & Sb & Sc & Sd & Se & Sf).
  assert (Hw : forall x y y2,
             small x = true -> finite_double y -> same_value y2 y ->
             (Rabs (F2R y - F2R x) <= 7 / 10 ^ 10)%R ->
             within (1 # 1000000000) x y2 = true).
  { intros x y y2 Hx [_ Hy] Hsv Hd'. apply within_intro.
    - now apply small_elim in Hx.
    - now apply (same_value_finite y2 y).
    - rewrite (same_value_F2R y2 y Hsv).
      eapply Rle_trans; [exact Hd'|]. unfold Q2R. simpl. lra. }
  unfold entries_within. cbn [free_entries combine forallb fst snd].
  rewrite (Hw a a' a2), (Hw b b' b2), (Hw c c' c2), (Hw d d' d2),
          (Hw e e' e2), (Hw f f' f2) by assumption.
  reflexivity.
Qed.
End RoundTrip.

(** C3, as the code has it.  The spec promises that any string of
    well-formed commands, parsed, written by matrix_to_svg and parsed
    again, gives back each free entry within 1e-9.  matrix_to_svg keeps
    twelve significant digits, so the promise holds for entries of
    bounded size: when the six free entries of the parsed matrix are
    finite and below 1000 in magnitude, the text written parses, and
    each entry read back is finite and within 1e-9 of the one written. *)
Theorem small_matrix_round_trip :
  forall (libm : Libm) (t : string) (M : matrix float),
  parse_transform (Some t) = Ok M ->
  forallb small (free_entries M) = true ->
  exists M',
    parse_transform (Some (matrix_to_svg M)) = Ok M'
    /\ entries_within (1 # 1000000000) M M' = true.
Proof.
  intros libm t M _ H. now apply serialized_matrix_reads_back.
Qed.

Lemma small_matrix_round_trip_witness :
  exists M M',
    parse_transform (libm := example_libm) (Some "translate(10,20) scale(2)")
    = Ok M
    /\ forallb small (free_entries M) = true
    /\ parse_transform (libm := example_libm) (Some (matrix_to_svg M)) = Ok M'
    /\ entries_within (1 # 1000000000) M M' = true.
Proof.
  destruct (parse_transform (libm := example_libm)
              (Some "translate(10,20) scale(2)")) as [M|err] eqn:E;
    [|vm_compute in E; discriminate].
  assert (Hs : forallb small (free_entries M) = true)
    by (vm_compute in E; inversion E; vm_compute; reflexivity).
  destruct (small_matrix_round_trip example_libm _ M E Hs) as (M' & H1 & H2).
  exists M, M'. auto.
Defined.

(** C3 as the spec states it fails: translate(123456789.12345) is one
    well-formed command; its matrix is written as
    matrix(1 0 0 1 123456789.123 0), and the entry read back is
    0.00045 away from the one parsed. *)
Lemma large_translation_drifts :
  ~ (forall (libm : Libm) (t : string) (M : matrix float),
       parse_transform (Some t) = Ok M ->
       exists M',
         parse_transform (Some (matrix_to_svg M)) = Ok M'
         /\ entries_within (1 # 1000000000) M M' = true).
Proof.
  intros H.
  destruct (parse_transform (libm := example_libm)
              (Some "translate(123456789.12345)")) as [M|err] eqn:E;
    [|vm_compute in E; discriminate].
  destruct (H example_libm _ M E) as (M' & H1 & H2).
  vm_compute in E. inversion E; subst M.
  vm_compute in H1. inversion H1; subst M'.
  vm_compute in H2. discriminate.
Qed.

(* what the drift example writes *)
Example drift_text :
  option_map matrix_to_svg
    (match parse_transform (libm := example_libm)
             (Some "translate(123456789.12345)") with
     | Ok M => Some M
     | Raise _ => None
     end)
  = Some "matrix(1 0 0 1 123456789.123 0)".
Proof. vm_compute. reflexivity. Qed.

(** ** The angles of the wrappers *)

Lemma rotate_attribute_unwords : forall a cx cy,
  rotate_attribute a cx cy
  = "rotate" ++ "" ++ "("
    ++ unwords [format_12g a; format_12g cx; format_12g cy] ++ ")" ++ "".
Proof.
  intros. unfold rotate_attribute. cbn [unwords].
  rewrite !append_assoc. reflexivity.
Qed.

Lemma carried_angle_wrapper : forall template cx cy i w,
  is_wrapper template cx cy i w -> carried_angle w = written_angle i.
Proof.
  intros template cx cy i w (star_id & wrapper_id & ->).
  unfold carried_angle, elem_get. cbn [attrib dict_get].
  change (String.eqb "transform" "id") with false.
  change (String.eqb "transform" "transform") with true. cbv iota.
  rewrite rotate_attribute_unwords.
  assert (Htok : Forall is_token
            [format_12g (angle_of i); format_12g cx; format_12g cy])
    by (repeat constructor; apply format_12g_token).
  rewrite findall_command;
    [| discriminate | reflexivity | reflexivity
     | apply string_forall_unwords;
       [reflexivity | repeat constructor; apply format_12g_token]].
  change (findall "") with (@nil (string * string)).
  change (String.eqb (lower "rotate") "rotate") with true. cbv iota.
  destruct (format_12g_token (angle_of i)) as (_ & _ & a' & Ha).
  destruct (format_12g_token cx) as (_ & _ & cx' & Hcx).
  destruct (format_12g_token cy) as (_ & _ & cy' & Hcy).
  rewrite (parse_number_list_unwords _ [a'; cx'; cy'])
    by (try discriminate; try assumption; repeat constructor; assumption).
  unfold written_angle. now rewrite Ha.
Qed.

Lemma carried_angles : forall template cx cy idxs ws,
  Forall2 (is_wrapper template cx cy) idxs ws ->
  map carried_angle ws = map written_angle idxs.
Proof.
  induction 1 as [|i w idxs ws Hw _ IH]; [reflexivity|].
  cbn [map]. now rewrite IH, (carried_angle_wrapper _ _ _ _ _ Hw).
Qed.

(** C4, as the code has it.  The loop computes the double
    DIRECTION * STEP_DEG * i, which is also the double product
    i x (360/27) x direction, and writes it with twelve significant digits
    into the wrapper's rotate command.  For every run that completes, the
    27 wrappers carry, in order, these written numbers: each is within
    5e-10 of i x (360/27) x direction, and the 27 are pairwise distinct
    modulo 360.  They are not the exact products. *)
Theorem wrapper_angles_are_written_with_12_digits :
  forall (libm : Libm) root template parent center,
  find_element_by_id root TEMPLATE_ID = Some template ->
  dict_get path_eqb (fst template) (build_parent_map root) = Some parent ->
  rotation_center parent (build_parent_map root) = Ok center ->
  exists s deleted,
    main root = Ok (Written s center deleted)
    /\ map carried_angle (generated_wrappers s) = map Some rendered_angles
    /\ map written_angle (seq 0 TOTAL_STARS) = map Some rendered_angles
    /\ List.length rendered_angles = 27%nat
    /\ forallb (fun i => feq (angle_of i) (claimed_angle i)) (seq 0 TOTAL_STARS)
       = true
    /\ forallb (fun ia => Qle_bool (Qabs (F2Q (snd ia) - exact_angle (fst ia)))
                                   (5 # 10000000000))
               (combine (seq 0 TOTAL_STARS) rendered_angles)
       = true
    /\ all_distinct (map (fun a => mod360 (F2Q a)) rendered_angles) = true.
Proof.
  intros libm root template parent center Hfind Hpar Hc.
  destruct (main_completes root template parent center Hfind Hpar Hc)
    as (s1 & deleted & s2 & p1 & ws & _ & Hmain & _ & Hp2 & Hws).
  assert (Hlen : List.length ws = TOTAL_STARS).
  { apply Forall2_length in Hws. now rewrite length_seq in Hws. }
  assert (Hw : map written_angle (seq 0 TOTAL_STARS) = map Some rendered_angles)
    by (vm_compute; reflexivity).
  exists s2, deleted. split; [exact Hmain|]. split.
  - rewrite (generated_wrappers_eq s2 p1 ws Hp2 Hlen).
    rewrite (carried_angles _ _ _ _ _ Hws). exact Hw.
  - split; [exact Hw|].
    repeat split; vm_compute; reflexivity.
Qed.

Lemma wrapper_angles_are_written_with_12_digits_witness :
  exists s deleted,
    main (libm := example_libm) scenario_document
    = Ok (Written s (float_of_Q 650, float_of_Q 415) deleted)
    /\ map carried_angle (generated_wrappers s) = map Some rendered_angles.
Proof.
  destruct (wrapper_angles_are_written_with_12_digits example_libm
              scenario_document
              ([0; 0]%nat, element "g" [("id", "g16532")] [])
              ([0%nat],
               element "g" [("transform", "translate(100,100)")]
                 [element "g" [("id", "g16532")] []])
              (float_of_Q 650, float_of_Q 415))
    as (s & deleted & Hmain & Hang & _).
  - reflexivity.
  - vm_compute. reflexivity.
  - vm_compute. reflexivity.
  - exists s, deleted. split; [exact Hmain | exact Hang].
Defined.

(** C4 as the spec states it fails: in the run on the scenario document
    the wrapper of index 1 carries 13.3333333333, which is not the double
    1 x (360/27) x 1 = 13.333333333333334. *)
Lemma wrapper_angle_is_not_the_exact_product :
  ~ (forall (libm : Libm) root s center deleted i w,
       main root = Ok (Written s center deleted) ->
       nth_error (generated_wrappers s) i = Some w ->
       exists a, carried_angle w = Some a /\ feq a (claimed_angle i) = true).
Proof.
  intros H.
  destruct (main (libm := example_libm) scenario_document)
    as [[| |s center deleted]|] eqn:E; try (vm_compute in E; discriminate).
  destruct (nth_error (generated_wrappers s) 1) as [w|] eqn:En.
  - destruct (H example_libm _ s center deleted 1%nat w E En) as (a & Ha & Hf).
    vm_compute in E. inversion E; subst.
    vm_compute in En. inversion En; subst.
    vm_compute in Ha. inversion Ha; subst.
    vm_compute in Hf. discriminate.
  - vm_compute in E. inversion E; subst. vm_compute in En. discriminate.
Qed.

(* the text the wrapper of index 1 gets *)
Example second_wrapper_text :
  rotate_attribute (angle_of 1) (float_of_Q 650) (float_of_Q 415)
  = "rotate(13.3333333333 650 415)".
Proof. vm_compute. reflexivity. Qed.

(** ** Inversion on floats

    What the doubles allow to say of [mat_inv]: the translations, whose
    linear part is the identity, are inverted exactly, up to the sign of
    a zero.  [a == b] is Python's comparison of floats. *)

Lemma fmul_comm_finite : forall s1 m1 e1 s2 m2 e2,
  fmul (S754_finite s1 m1 e1) (S754_finite s2 m2 e2)
  = fmul (S754_finite s2 m2 e2) (S754_finite s1 m1 e1).
Proof.
  intros. unfold fmul, SFmul.
  now rewrite xorb_comm, Pos.mul_comm, Z.add_comm.
Qed.

Lemma fmul_one_r : forall x, finite_double x -> fmul x one_ = x.
Proof.
  intros x [Hv Hf]. rewrite one_float.
  destruct x as [s|s| |s m e]; try discriminate; [now destruct s|].
  rewrite fmul_comm_finite. now apply fmul_one.
Qed.

Lemma fmul_one_l : forall x, finite_double x -> fmul one_ x = x.
Proof. intros x [Hv Hf]. now apply fmul_one_finite. Qed.

Lemma fmul_zero_l : forall z x,
  is_zero z = true -> is_finite x = true -> is_zero (fmul z x) = true.
Proof.
  intros [sz| | |] x Hz Hx; try discriminate.
  destruct x; try discriminate; reflexivity.
Qed.

Lemma fmul_zero_r : forall z x,
  is_zero z = true -> is_finite x = true -> is_zero (fmul x z) = true.
Proof.
  intros [sz| | |] x Hz Hx; try discriminate.
  destruct x; try discriminate; reflexivity.
Qed.

Lemma fadd_zero_zero : forall x y,
  is_zero x = true -> is_zero y = true -> is_zero (fadd x y) = true.
Proof.
  intros [[]| | |] [[]| | |] Hx Hy; try discriminate; reflexivity.
Qed.

Lemma fneg_zero : forall x, is_zero x = true -> is_zero (fneg x) = true.
Proof. intros [s| | |] H; try discriminate; reflexivity. Qed.

Lemma fadd_opposite : forall x,
  finite_double x ->
  is_zero (fadd (fneg x) x) = true /\ is_zero (fadd x (fneg x)) = true.
Proof.
  intros [[]| | |s m e] [_ Hf]; try discriminate; try (split; reflexivity).
  unfold fadd, fneg, SFopp, SFadd. rewrite Z.min_id.
  unfold shl_align. rewrite Z.sub_diag. cbn [fst].
  destruct s; cbn [negb cond_Zopp Z.opp];
    rewrite ?Z.add_opp_diag_r, ?Z.add_opp_diag_l, ?Z.pos_sub_diag;
    cbn [Z.add]; rewrite ?Z.pos_sub_diag; split; reflexivity.
Qed.

Lemma same_value_fneg : forall x y,
  same_value x y -> same_value (fneg x) (fneg y).
Proof.
  intros x y [->|[Hx Hy]]; [now left|].
  right. split; now apply fneg_zero.
Qed.

Lemma same_value_trans : forall x y z,
  same_value x y -> same_value y z -> same_value x z.
Proof.
  intros x y z [->|[Hx Hy]] [->|[Hy' Hz]]; unfold same_value; auto.
Qed.

Lemma same_value_sym : forall x y, same_value x y -> same_value y x.
Proof. intros x y [->|[Hx Hy]]; unfold same_value; auto. Qed.

Lemma fneg_involutive : forall x, fneg (fneg x) = x.
Proof. intros [s|s| |s m e]; simpl; now rewrite ?negb_involutive. Qed.

Lemma finite_double_fneg : forall x, finite_double x -> finite_double (fneg x).
Proof. intros [s|s| |s m e] [Hv Hf]; try discriminate; split; assumption. Qed.

Lemma finite_double_same : forall x y,
  same_value x y -> finite_double y -> finite_double x.
Proof.
  intros x y [->|[Hx Hy]] H; [exact H|].
  destruct x; try discriminate. split; reflexivity.
Qed.

Lemma finite_double_zero : forall x, is_zero x = true -> finite_double x.
Proof. intros [s| | |] H; try discriminate. split; reflexivity. Qed.

Lemma finite_double_one : finite_double one_.
Proof. split; vm_compute; reflexivity. Qed.

(* x + z and z + x have the value of x when z is a zero *)
Lemma same_value_plus_zero : forall x z,
  finite_double x -> is_zero z = true ->
  same_value (fadd x z) x /\ same_value (fadd z x) x.
Proof.
  intros x z [_ Hf] Hz. split.
  - now apply same_value_add_r; [|apply same_value_refl|].
  - now apply same_value_add_l; [|apply same_value_refl|].
Qed.

(* Python's == on two doubles of the same value *)
Lemma same_value_feq : forall x y,
  same_value x y -> finite_double y -> feq x y = true.
Proof.
  intros x y Hs [Hv Hf].
  assert (Hrefl : feq y y = true).
  { destruct y as [s|s| |s m e]; try discriminate; [reflexivity|].
    unfold feq, SFeqb, SFcompare.
    rewrite Z.compare_refl.
    change (PosDef.Pos.compare_cont Eq m m) with (Pos.compare m m).
    rewrite Pos.compare_refl. destruct s; reflexivity. }
  destruct Hs as [->|[Hx Hy]]; [exact Hrefl|].
  destruct x; try discriminate. destruct y; try discriminate. reflexivity.
Qed.

Lemma mat_inv_float : forall a c e b d f r,
  flt (fabs (fsub (fmul a d) (fmul b c))) (float_of_Q (1 # 1000000000000))
  = false ->
  mat_inv ((a, c, e), (b, d, f), r)
  = let inv_det := fdiv one_ (fsub (fmul a d) (fmul b c)) in
    let ai := fmul d inv_det in
    let bi := fmul (fneg b) inv_det in
    let ci := fmul (fneg c) inv_det in
    let di := fmul a inv_det in
    Ok ((ai, ci, fneg (fadd (fmul ai e) (fmul ci f))),
        (bi, di, fneg (fadd (fmul bi e) (fmul di f))),
        (zero_, zero_, one_)).
Proof.
  intros a c e b d f r H. unfold mat_inv.
  cbn [less absolute mul sub add div neg lit float_Number].
  now rewrite H.
Qed.

Lemma unit_linear_part : forall sb sc,
  let det := fsub (fmul one_ one_) (fmul (S754_zero sb) (S754_zero sc)) in
  flt (fabs det) (float_of_Q (1 # 1000000000000)) = false
  /\ fmul one_ (fdiv one_ det) = one_
  /\ fmul (fneg (S754_zero sb)) (fdiv one_ det) = S754_zero (negb sb)
  /\ fmul (fneg (S754_zero sc)) (fdiv one_ det) = S754_zero (negb sc).
Proof. intros [] []; vm_compute; auto. Qed.

(* the inverse of a matrix whose linear part is the identity *)
Lemma inverse_of_shift : forall sc sb e f r,
  finite_double e -> finite_double f ->
  exists e' f',
    mat_inv ((one_, S754_zero sc, e), (S754_zero sb, one_, f), r)
    = Ok ((one_, S754_zero (negb sc), e'),
          (S754_zero (negb sb), one_, f'),
          (zero_, zero_, one_))
    /\ finite_double e' /\ finite_double f'
    /\ same_value e' (fneg e) /\ same_value f' (fneg f).
Proof.
  intros sc sb e f r He Hf.
  destruct (unit_linear_part sb sc) as (Hg & H1 & Hb & Hc).
  rewrite (mat_inv_float _ _ _ _ _ _ _ Hg). cbv zeta.
  rewrite H1, Hb, Hc.
  rewrite (fmul_one_l e He), (fmul_one_l f Hf).
  set (z1 := fmul (S754_zero (negb sc)) f).
  set (z2 := fmul (S754_zero (negb sb)) e).
  assert (Z1 : is_zero z1 = true) by (apply fmul_zero_l; [reflexivity | apply Hf]).
  assert (Z2 : is_zero z2 = true) by (apply fmul_zero_l; [reflexivity | apply He]).
  assert (E1 : same_value (fneg (fadd e z1)) (fneg e))
    by (apply same_value_fneg, (same_value_plus_zero e z1 He Z1)).
  assert (E2 : same_value (fneg (fadd z2 f)) (fneg f))
    by (apply same_value_fneg, (same_value_plus_zero f z2 Hf Z2)).
  exists (fneg (fadd e z1)), (fneg (fadd z2 f)).
  split; [reflexivity|].
  split; [apply (finite_double_same _ _ E1), finite_double_fneg, He|].
  split; [apply (finite_double_same _ _ E2), finite_double_fneg, Hf|].
  split; assumption.
Qed.

Lemma one_plus_zeros : forall z1 z2,
  is_zero z1 = true -> is_zero z2 = true ->
  feq (fadd (fadd one_ z1) z2) one_ = true.
Proof.
  intros [[]| | |] [[]| | |] H1 H2; try discriminate; vm_compute; reflexivity.
Qed.

Lemma zero_plus_one_zero : forall z1 z2,
  is_zero z1 = true -> is_zero z2 = true ->
  feq (fadd (fadd z1 one_) z2) one_ = true.
Proof.
  intros [[]| | |] [[]| | |] H1 H2; try discriminate; vm_compute; reflexivity.
Qed.

Lemma three_zeros : forall z1 z2 z3,
  is_zero z1 = true -> is_zero z2 = true -> is_zero z3 = true ->
  feq (fadd (fadd z1 z2) z3) zero_ = true.
Proof.
  intros [[]| | |] [[]| | |] [[]| | |] H1 H2 H3; try discriminate;
    vm_compute; reflexivity.
Qed.

Lemma zero_feq : forall x, is_zero x = true -> feq x zero_ = true.
Proof. intros [[]| | |] H; try discriminate; reflexivity. Qed.

Lemma cancels : forall u e,
  finite_double e -> same_value u (fneg e) -> is_zero (fadd u e) = true.
Proof.
  intros u e He [->|[Hu Hz]].
  - apply (fadd_opposite e He).
  - apply fadd_zero_zero; [exact Hu|].
    destruct e; try discriminate. reflexivity.
Qed.

(* a matrix with linear part the identity, times the matrix of the
   opposite shift *)
Lemma shift_times_opposite : forall sc sb sc' sb' e f e' f' r r',
  finite_double e -> finite_double f ->
  finite_double e' -> finite_double f' ->
  same_value e' (fneg e) -> same_value f' (fneg f) ->
  r' = (zero_, zero_, one_) ->
  affine_eq
    (mat_mul ((one_, S754_zero sc, e), (S754_zero sb, one_, f), r)
             ((one_, S754_zero sc', e'), (S754_zero sb', one_, f'), r'))
    mat_identity = true.
Proof.
  intros sc sb sc' sb' e f e' f' r r' He Hf He' Hf' Ee Ef ->.
  cbn [mat_mul mat_identity affine_eq add mul float_Number].
  change (@one_ spec_float float_Number) with (@one_ float float_Number).
  change (@zero_ spec_float float_Number) with (@zero_ float float_Number).
  rewrite (fmul_one_l one_ finite_double_one).
  rewrite (fmul_one_l e' He'), (fmul_one_l f' Hf').
  rewrite (fmul_one_r e He), (fmul_one_r f Hf).
  rewrite (fmul_one_l _ (finite_double_zero (S754_zero sc') eq_refl)).
  rewrite (fmul_one_l _ (finite_double_zero (S754_zero sb') eq_refl)).
  rewrite (fmul_one_r _ (finite_double_zero (S754_zero sc) eq_refl)).
  rewrite (fmul_one_r _ (finite_double_zero (S754_zero sb) eq_refl)).
  assert (Ze : is_zero (fmul e zero_) = true)
    by (apply fmul_zero_r; [reflexivity | apply He]).
  assert (Zf : is_zero (fmul f zero_) = true)
    by (apply fmul_zero_r; [reflexivity | apply Hf]).
  assert (Zcf : is_zero (fmul (S754_zero sc) f') = true)
    by (apply fmul_zero_l; [reflexivity | apply Hf']).
  assert (Zbe : is_zero (fmul (S754_zero sb) e') = true)
    by (apply fmul_zero_l; [reflexivity | apply He']).
  assert (Zz : forall a b, is_zero (fmul (S754_zero a) (S754_zero b)) = true)
    by (intros; reflexivity).
  repeat (apply andb_true_iff; split).
  - apply one_plus_zeros; [apply Zz | exact Ze].
  - apply three_zeros; [reflexivity | reflexivity | exact Zf].
  - apply three_zeros; [reflexivity | reflexivity | exact Ze].
  - apply zero_plus_one_zero; [apply Zz | exact Zf].
  - apply zero_feq, cancels; [exact He|].
    apply (same_value_trans _ e'); [|exact Ee].
    apply (same_value_plus_zero e' _ He' Zcf).
  - apply zero_feq, cancels; [exact Hf|].
    apply (same_value_trans _ f'); [|exact Ef].
    apply (same_value_plus_zero f' _ Hf' Zbe).
Qed.

Lemma feq_one : feq one_ one_ = true.
Proof. vm_compute. reflexivity. Qed.

Lemma feq_zeros : forall a b, feq (S754_zero a) (S754_zero b) = true.
Proof. intros [] []; reflexivity. Qed.

Lemma translations_invert : forall tx ty,
  finite_double tx -> finite_double ty ->
  exists Mi Mii,
    mat_inv (mat_translate tx ty) = Ok Mi
    /\ affine_eq Mi (mat_translate (fneg tx) (fneg ty)) = true
    /\ affine_eq (mat_mul (mat_translate tx ty) Mi) mat_identity = true
    /\ mat_inv Mi = Ok Mii
    /\ affine_eq Mii (mat_translate tx ty) = true.
Proof.
  intros tx ty Hx Hy.
  assert (Et : forall x y : float,
            mat_translate x y
            = ((one_, S754_zero false, x), (S754_zero false, one_, y),
               (S754_zero false, S754_zero false, one_)))
    by (intros; unfold mat_translate; now rewrite zero_float).
  destruct (inverse_of_shift false false tx ty
              (S754_zero false, S754_zero false, one_) Hx Hy)
    as (e' & f' & H1 & He' & Hf' & Ee & Ef).
  destruct (inverse_of_shift (negb false) (negb false) e' f'
              (zero_, zero_, one_) He' Hf')
    as (e2 & f2 & H2 & He2 & Hf2 & Ee2 & Ef2).
  exists ((one_, S754_zero (negb false), e'),
          (S754_zero (negb false), one_, f'), (zero_, zero_, one_)),
         ((one_, S754_zero (negb (negb false)), e2),
          (S754_zero (negb (negb false)), one_, f2), (zero_, zero_, one_)).
  rewrite !Et.
  split; [exact H1|]. split; [|split; [|split; [exact H2|]]].
  - cbn [affine_eq negb].
    repeat (apply andb_true_iff; split).
    + apply feq_one.
    + apply feq_zeros.
    + apply feq_zeros.
    + apply feq_one.
    + apply same_value_feq; [exact Ee | apply finite_double_fneg, Hx].
    + apply same_value_feq; [exact Ef | apply finite_double_fneg, Hy].
  - apply shift_times_opposite; auto.
  - cbn [affine_eq negb].
    assert (Ex : same_value e2 tx).
    { apply (same_value_trans _ (fneg e')); [exact Ee2|].
      rewrite <- (fneg_involutive tx). now apply same_value_fneg. }
    assert (Ey : same_value f2 ty).
    { apply (same_value_trans _ (fneg f')); [exact Ef2|].
      rewrite <- (fneg_involutive ty). now apply same_value_fneg. }
    repeat (apply andb_true_iff; split).
    + apply feq_one.
    + apply feq_zeros.
    + apply feq_zeros.
    + apply feq_one.
    + apply same_value_feq; [exact Ex | exact Hx].
    + apply same_value_feq; [exact Ey | exact Hy].
Qed.

(** C6, as the code has it.  On floats, inversion raises NonInvertible
    exactly when abs(det) < 1e-12 for the determinant as the doubles
    compute it, raises nothing else, and returns a matrix otherwise.  For
    a translation by finite offsets the matrix returned is the translation
    by the opposite offsets: multiply(M, invert(M)) == identity and
    invert(invert(M)) == M, entry by entry. *)
Theorem inversion_guard_and_translations :
  (forall M : matrix float,
      mat_inv M = Raise NonInvertible
      <-> flt (fabs (det2 M)) (float_of_Q (1 # 1000000000000)) = true)
  /\ (forall M : matrix float,
        flt (fabs (det2 M)) (float_of_Q (1 # 1000000000000)) = false ->
        exists Mi, mat_inv M = Ok Mi)
  /\ (forall (M : matrix float) err, mat_inv M = Raise err -> err = NonInvertible)
  /\ (forall tx ty : float,
        finite_double tx -> finite_double ty ->
        exists Mi Mii,
          mat_inv (mat_translate tx ty) = Ok Mi
          /\ affine_eq Mi (mat_translate (fneg tx) (fneg ty)) = true
          /\ affine_eq (mat_mul (mat_translate tx ty) Mi) mat_identity = true
          /\ mat_inv Mi = Ok Mii
          /\ affine_eq Mii (mat_translate tx ty) = true).
Proof.
  split; [|split; [|split]].
  - intros M. exact (mat_inv_guard M).
  - intros M. exact (mat_inv_returns M).
  - intros M err. exact (mat_inv_only_error M err).
  - exact translations_invert.
Qed.

(** C6 as the spec states it fails on the doubles the code computes
    with, for matrices whose determinant is well above 1e-12.  The
    scaling by 1e7, of determinant 1e14, is inverted once, but its inverse
    has determinant 1e-14 and the second inversion raises NonInvertible.
    And for a matrix of integers near 2^30 with determinant 984, computed
    as 768, multiply(M, invert(M)) is 1.5 times the identity. *)
Lemma inverse_laws_fail_on_floats :
  ~ (forall M : matrix float,
        SFleb (float_of_Q (1 # 1000000000000)) (fabs (det2 M)) = true ->
        exists Mi Mii, mat_inv M = Ok Mi /\ mat_inv Mi = Ok Mii)
  /\ ~ (forall M : matrix float,
          SFleb (float_of_Q (1 # 1000000000000)) (fabs (det2 M)) = true ->
          exists P,
            product_with_inverse M = Ok P
            /\ entries_within (1 # 4) P mat_identity = true)
  /\ det2 ill_conditioned_matrix = float_of_Q 768
  /\ product_with_inverse ill_conditioned_matrix
     = Ok ((float_of_Q (3 # 2), zero_, zero_),
           (zero_, float_of_Q (3 # 2), zero_),
           (zero_, zero_, one_)).
Proof.
  split; [|split; [|split]].
  - intros H.
    destruct (H (mat_scale (float_of_Q 10000000) (float_of_Q 10000000)))
      as (Mi & Mii & H1 & H2).
    + vm_compute. reflexivity.
    + vm_compute in H1. inversion H1; subst Mi. vm_compute in H2. discriminate.
  - intros H.
    destruct (H ill_conditioned_matrix) as (P & H1 & H2).
    + vm_compute. reflexivity.
    + vm_compute in H1. inversion H1; subst P. vm_compute in H2. discriminate.
  - vm_compute. reflexivity.
  - vm_compute. reflexivity.
Qed.

Lemma inversion_guard_and_translations_witness :
  exists Mi Mii,
    mat_inv (mat_translate (float_of_Q 100) (float_of_Q (-7 # 2))) = Ok Mi
    /\ affine_eq Mi (mat_translate (fneg (float_of_Q 100))
                       (fneg (float_of_Q (-7 # 2)))) = true
    /\ affine_eq (mat_mul (mat_translate (float_of_Q 100) (float_of_Q (-7 # 2))) Mi)
         mat_identity = true
    /\ mat_inv Mi = Ok Mii
    /\ affine_eq Mii (mat_translate (float_of_Q 100) (float_of_Q (-7 # 2))) = true.
Proof.
  apply (proj2 (proj2 (proj2 inversion_guard_and_translations))
           (float_of_Q 100) (float_of_Q (-7 # 2))).
  - split; vm_compute; reflexivity.
  - split; vm_compute; reflexivity.
Defined.

(** * Further properties of the code *)

(** ** The XML helpers *)

Lemma find_split : forall {A} (f : A -> bool) l x,
  List.find f l = Some x ->
  exists before after,
    l = (before ++ x :: after)%list /\ f x = true
    /\ forall y, In y before -> f y = false.
Proof.
  intros A f. induction l as [|a l IH]; intros x H; [discriminate|].
  simpl in H. destruct (f a) eqn:E.
  - inversion H; subst. exists [], l. repeat split; [exact E|]. intros y [].
  - destruct (IH x H) as (before & after & -> & Hx & Hb).
    exists (a :: before), after. repeat split; [exact Hx|].
    intros y [<-|Hy]; auto.
Qed.

Lemma has_id_iff : forall (e : Element) sid,
  match elem_get e "id" with
  | Some v => String.eqb v sid
  | None => false
  end = true <-> elem_get e "id" = Some sid.
Proof.
  intros e sid. destruct (elem_get e "id") as [v|]; split; intros H;
    try discriminate.
  - apply String.eqb_eq in H. now subst.
  - inversion H. apply String.eqb_refl.
Qed.

(** find_element_by_id returns the first element, in document order, that
    carries the identifier: it hangs in the tree at the path returned, no
    element before it carries the identifier, and None is returned exactly
    when no element of the tree carries it. *)
Theorem find_element_by_id_first_match : forall root sid,
  match find_element_by_id root sid with
  | Some (p, e) =>
      get_at root p = Some e
      /\ elem_get e "id" = Some sid
      /\ exists before after,
           iter root = (before ++ (p, e) :: after)%list
           /\ forall q x, In (q, x) before -> elem_get x "id" <> Some sid
  | None =>
      forall p e, get_at root p = Some e -> elem_get e "id" <> Some sid
  end.
Proof.
  intros root sid. destruct (find_element_by_id root sid) as [[p e]|] eqn:E.
  - destruct (find_element_by_id_get_at root sid (p, e) E) as [Hg Hid].
    split; [exact Hg|]. split; [exact Hid|].
    unfold find_element_by_id in E.
    destruct (find_split _ _ _ E) as (before & after & Hi & _ & Hb).
    exists before, after. split; [exact Hi|].
    intros q x Hin Hx. specialize (Hb (q, x) Hin). cbn [snd] in Hb.
    apply has_id_iff in Hx. congruence.
  - intros p e Hg Hx. unfold find_element_by_id in E.
    apply get_at_iter in Hg.
    pose proof (find_none _ _ E (p, e) Hg) as Hn. cbn [snd] in Hn.
    apply has_id_iff in Hx. congruence.
Qed.

Lemma parent_map_child : forall root p i c,
  get_at root (p ++ [i])%list = Some c ->
  exists pe,
    dict_get path_eqb (p ++ [i])%list (build_parent_map root) = Some (p, pe)
    /\ get_at root p = Some pe
    /\ nth_error (children pe) i = Some c.
Proof.
  intros root p i c Hc.
  destruct (dict_get path_eqb (p ++ [i])%list (build_parent_map root))
    as [[q pe]|] eqn:E.
  - destruct (parent_map_get root _ _ E) as (j & c' & Hk & Hq & Hn & Hc').
    cbn [fst snd] in *. apply app_inj_tail in Hk as [<- <-].
    exists pe. split; [reflexivity|]. split; [exact Hq|]. congruence.
  - now apply parent_map_complete in Hc.
Qed.

(** The parent map sends every element below the root to the element it
    is a child of, it has no entry for the root, and its keys are elements
    of the tree. *)
Theorem parent_map_is_the_parent_relation : forall root,
  (forall p i c,
      get_at root (p ++ [i])%list = Some c ->
      exists pe,
        dict_get path_eqb (p ++ [i])%list (build_parent_map root) = Some (p, pe)
        /\ get_at root p = Some pe
        /\ nth_error (children pe) i = Some c)
  /\ dict_get path_eqb [] (build_parent_map root) = None
  /\ (forall k par,
        dict_get path_eqb k (build_parent_map root) = Some par ->
        exists c, get_at root k = Some c).
Proof.
  intros root. split; [|split].
  - apply parent_map_child.
  - apply parent_map_root.
  - intros k par H.
    destruct (parent_map_get root k par H) as (i & c & _ & _ & _ & Hc).
    now exists c.
Qed.

Lemma parent_map_is_the_parent_relation_witness :
  exists pe,
    dict_get path_eqb [0; 0]%nat (build_parent_map scenario_document)
    = Some ([0%nat], pe)
    /\ get_at scenario_document [0%nat] = Some pe
    /\ nth_error (children pe) 0 = Some (element "g" [("id", "g16532")] []).
Proof.
  exact (proj1 (parent_map_is_the_parent_relation scenario_document)
           [0%nat] 0%nat (element "g" [("id", "g16532")] []) eq_refl).
Defined.

Lemma find_all_ids_fold : forall l out sid,
  In sid
    (fold_left
       (fun (out : set string) (pe : path * Element) =>
          match elem_get (snd pe) "id" with
          | Some eid => if is_empty eid then out else set_add string_dec eid out
          | None => out
          end) l out)
  <-> In sid out
      \/ (sid <> EmptyString
          /\ exists pe : path * Element,
               In pe l /\ elem_get (snd pe) "id" = Some sid).
Proof.
  induction l as [|pe l IH]; intros out sid; cbn [fold_left].
  - split; [auto|]. intros [H|(_ & x & [] & _)]. exact H.
  - rewrite IH. destruct (elem_get (snd pe) "id") as [eid|] eqn:E.
    + destruct eid as [|c eid]; cbn [is_empty].
      * split.
        -- intros [H|(Hne & x & Hx & Hid)]; [now left|].
           right. split; [exact Hne|]. exists x. split; [now right | exact Hid].
        -- intros [H|(Hne & x & [<-|Hx] & Hid)]; [now left | congruence |].
           right. split; [exact Hne|]. now exists x.
      * rewrite set_add_iff. split.
        -- intros [[->|H]|(Hne & x & Hx & Hid)].
           ++ right. split; [discriminate|]. exists pe. split; [now left | exact E].
           ++ now left.
           ++ right. split; [exact Hne|]. exists x. split; [now right | exact Hid].
        -- intros [H|(Hne & x & [<-|Hx] & Hid)].
           ++ left. now right.
           ++ left. left. congruence.
           ++ right. split; [exact Hne|]. now exists x.
    + split.
      * intros [H|(Hne & x & Hx & Hid)]; [now left|].
        right. split; [exact Hne|]. exists x. split; [now right | exact Hid].
      * intros [H|(Hne & x & [<-|Hx] & Hid)]; [now left | congruence |].
        right. split; [exact Hne|]. now exists x.
Qed.

Lemma find_all_ids_fold_nodup : forall l out,
  NoDup out ->
  NoDup
    (fold_left
       (fun (out : set string) (pe : path * Element) =>
          match elem_get (snd pe) "id" with
          | Some eid => if is_empty eid then out else set_add string_dec eid out
          | None => out
          end) l out).
Proof.
  induction l as [|pe l IH]; intros out H; cbn [fold_left]; [exact H|].
  apply IH. destruct (elem_get (snd pe) "id") as [eid|]; [|exact H].
  destruct (is_empty eid); [exact H|]. now apply set_add_nodup.
Qed.

Lemma in_find_all_ids : forall root sid,
  In sid (find_all_ids root)
  <-> sid <> EmptyString
      /\ exists p e, get_at root p = Some e /\ elem_get e "id" = Some sid.
Proof.
  intros root sid. unfold find_all_ids. rewrite find_all_ids_fold. split.
  - intros [[]|(Hne & [p e] & Hin & Hid)]. split; [exact Hne|].
    exists p, e. split; [now apply iter_get_at | exact Hid].
  - intros (Hne & p & e & Hg & Hid). right. split; [exact Hne|].
    exists (p, e). split; [now apply get_at_iter | exact Hid].
Qed.

(** find_all_ids collects the identifiers of the tree's elements, each
    once, and leaves out the empty identifier: id="" is not in the set. *)
Theorem find_all_ids_collects_nonempty_ids : forall root,
  NoDup (find_all_ids root)
  /\ ~ In EmptyString (find_all_ids root)
  /\ forall sid,
       In sid (find_all_ids root)
       <-> sid <> EmptyString
           /\ exists p e, get_at root p = Some e /\ elem_get e "id" = Some sid.
Proof.
  intros root.
  split; [unfold find_all_ids; apply find_all_ids_fold_nodup; constructor|].
  split; [|apply in_find_all_ids].
  intros Hin. apply in_find_all_ids in Hin as [Hne _]. now apply Hne.
Qed.

(** ** The lists of numbers *)

Lemma re_split_pieces : forall s cur b,
  (b = true -> cur = EmptyString) ->
  filter (fun p => negb (is_empty p)) (re_split s cur b) = pieces s cur.
Proof.
  induction s as [|c s IH]; intros cur b Hb.
  - cbn [re_split pieces filter]. now destruct (is_empty cur).
  - cbn [re_split pieces]. destruct (is_sep c).
    + destruct b.
      * rewrite (Hb eq_refl). cbn [is_empty]. now apply IH.
      * cbn [filter]. destruct (is_empty cur); cbn [negb]; rewrite IH; auto.
    + apply IH. discriminate.
Qed.

Lemma space_is_sep : forall c, is_space c = true -> is_sep c = true.
Proof. intros c H. unfold is_sep. rewrite H. apply orb_true_r. Qed.

Lemma pieces_lstrip : forall s,
  pieces (lstrip s) EmptyString = pieces s EmptyString.
Proof.
  induction s as [|c s IH]; [reflexivity|]. cbn [lstrip].
  destruct (is_space c) eqn:E; [|reflexivity].
  cbn [pieces]. now rewrite (space_is_sep c E).
Qed.

Lemma pieces_sep_run : forall w cur,
  string_forall is_sep w = true -> pieces w cur = pieces EmptyString cur.
Proof.
  induction w as [|c w IH]; intros cur H; [reflexivity|].
  simpl in H. apply andb_true_iff in H as [Hc Hw]. cbn [pieces]. rewrite Hc.
  rewrite (IH EmptyString Hw). now destruct (is_empty cur).
Qed.

Lemma pieces_trailing : forall s w cur,
  string_forall is_sep w = true -> pieces (s ++ w) cur = pieces s cur.
Proof.
  induction s as [|c s IH]; intros w cur H.
  - now apply pieces_sep_run.
  - cbn [String.append pieces]. now rewrite !(IH w _ H).
Qed.

Lemma rstrip_spec : forall s,
  exists w, s = rstrip s ++ w /\ string_forall is_space w = true.
Proof.
  induction s as [|c s (w & E & Hw)]; [exists EmptyString; now split|].
  cbn [rstrip]. destruct (rstrip s) as [|c' r] eqn:R.
  - simpl in E. destruct (is_space c) eqn:Ec.
    + exists (String c w). split; [now rewrite <- E|]. simpl. now rewrite Ec.
    + exists w. split; [simpl; now rewrite <- E | exact Hw].
  - exists w. split; [|exact Hw]. simpl. simpl in E. now rewrite <- E.
Qed.

Lemma pieces_strip : forall s,
  pieces (strip s) EmptyString = pieces s EmptyString.
Proof.
  intros s. unfold strip. rewrite <- (pieces_lstrip s).
  destruct (rstrip_spec (lstrip s)) as (w & E & Hw).
  rewrite E at 2. symmetry. apply pieces_trailing.
  revert Hw. apply string_forall_impl, space_is_sep.
Qed.

(* parse_number_list converts the maximal runs of characters other than
   commas and white space *)
Lemma parse_number_list_pieces : forall s,
  parse_number_list s = mapM to_float (pieces s EmptyString).
Proof.
  intros s. unfold parse_number_list.
  rewrite re_split_pieces by discriminate. now rewrite pieces_strip.
Qed.

Lemma pieces_leading : forall pre rest,
  string_forall is_sep pre = true ->
  pieces (pre ++ rest) EmptyString = pieces rest EmptyString.
Proof.
  induction pre as [|c pre IH]; intros rest H; [reflexivity|].
  simpl in H. apply andb_true_iff in H as [Hc Hp].
  cbn [String.append pieces is_empty]. rewrite Hc. now apply IH.
Qed.

Lemma pieces_token : forall t rest cur,
  string_forall not_sep t = true ->
  pieces (t ++ rest) cur = pieces rest (cur ++ t).
Proof.
  induction t as [|c t IH]; intros rest cur H.
  - now rewrite append_nil_r.
  - simpl in H. apply andb_true_iff in H as [Hc Ht]. unfold not_sep in Hc.
    cbn [String.append pieces]. destruct (is_sep c); [discriminate|].
    rewrite (IH rest _ Ht), append_assoc. reflexivity.
Qed.

Lemma pieces_spaced : forall items,
  separated items -> pieces (spaced items) EmptyString = map fst items.
Proof.
  induction items as [|[t sep] items IH]; intros H; [reflexivity|].
  cbn [separated] in H. destruct H as ([Hne Ht] & Hsep & Hnz & Hrest).
  cbn [spaced map fst]. rewrite pieces_token by exact Ht. cbn [String.append].
  destruct items as [|item items].
  - cbn [spaced]. rewrite append_nil_r, pieces_sep_run by exact Hsep.
    cbn [pieces]. destruct t; [congruence | reflexivity].
  - destruct sep as [|c sep]; [congruence|].
    simpl in Hsep. apply andb_true_iff in Hsep as [Hc Hs].
    cbn [String.append pieces]. rewrite Hc.
    destruct t; [congruence|]. cbn [is_empty]. f_equal.
    rewrite pieces_leading by exact Hs. now apply IH.
Qed.

Lemma parse_number_list_spaced : forall pre items,
  string_forall is_sep pre = true ->
  separated items ->
  parse_number_list (pre ++ spaced items) = mapM to_float (map fst items).
Proof.
  intros pre items Hpre Hitems.
  rewrite parse_number_list_pieces, pieces_leading by exact Hpre.
  now rewrite pieces_spaced.
Qed.

(** parse_number_list accepts any mix of commas and white space between
    the numbers, and before the first and after the last one: it
    converts the pieces in order, and an argument text made of separators
    only gives the empty list. *)
Theorem number_list_separators : forall pre items,
  string_forall is_sep pre = true ->
  separated items ->
  parse_number_list (pre ++ spaced items) = mapM to_float (map fst items).
Proof.
  exact parse_number_list_spaced.
Qed.

Lemma number_list_separators_witness :
  parse_number_list (" ," ++ spaced [("1", " ,  "); ("2.5", ","); ("-3e2", " ")])
  = mapM to_float ["1"; "2.5"; "-3e2"]
  /\ parse_number_list (" , " ++ spaced []) = Ok [].
Proof.
  split.
  - apply (number_list_separators " ,"
             [("1", " ,  "); ("2.5", ","); ("-3e2", " ")]).
    + reflexivity.
    + cbn [separated]. repeat split; try reflexivity; discriminate.
  - apply (number_list_separators " , " []); [reflexivity | exact I].
Defined.

Lemma mapM_to_float_bad : forall goods bad rest,
  Forall (fun t => float_of_string t <> None) goods ->
  float_of_string bad = None ->
  mapM to_float (goods ++ bad :: rest)%list = Raise (BadNumber bad).
Proof.
  induction goods as [|t goods IH]; intros bad rest Hg Hb.
  - cbn [List.app mapM]. unfold to_float. now rewrite Hb.
  - inversion Hg as [|? ? Ht Hgs]; subst. cbn [List.app mapM].
    unfold to_float at 1. destruct (float_of_string t); [|congruence].
    cbn [bind]. now rewrite (IH bad rest Hgs Hb).
Qed.

(** A piece that float() rejects makes parse_number_list raise the
    conversion error of the first such piece, whatever follows it. *)
Theorem number_list_bad_piece : forall pre items goods bad rest,
  string_forall is_sep pre = true ->
  separated items ->
  map fst items = (goods ++ bad :: rest)%list ->
  Forall (fun t => float_of_string t <> None) goods ->
  float_of_string bad = None ->
  parse_number_list (pre ++ spaced items) = Raise (BadNumber bad).
Proof.
  intros pre items goods bad rest Hpre Hitems E Hg Hb.
  rewrite (parse_number_list_spaced pre items Hpre Hitems), E.
  now apply mapM_to_float_bad.
Qed.

Lemma number_list_bad_piece_witness :
  parse_number_list ("" ++ spaced [("1", ", "); ("1px", " "); ("x", "")])
  = Raise (BadNumber "1px").
Proof.
  apply (number_list_bad_piece "" [("1", ", "); ("1px", " "); ("x", "")]
           ["1"] "1px" ["x"]).
  - reflexivity.
  - cbn [separated]. repeat split; try reflexivity; discriminate.
  - reflexivity.
  - constructor; [vm_compute; discriminate | constructor].
  - vm_compute. reflexivity.
Defined.

(** ** The guard of mat_inv on floats *)

Lemma fmul_nan_r : forall x, fmul x S754_nan = S754_nan.
Proof. intros [s|s| |s m e]; reflexivity. Qed.

Lemma fmul_nan_l : forall x, fmul S754_nan x = S754_nan.
Proof. intros [s|s| |s m e]; reflexivity. Qed.

Lemma fadd_nan_l : forall x, fadd S754_nan x = S754_nan.
Proof. intros [s|s| |s m e]; reflexivity. Qed.

(** A determinant that is NaN passes the guard of mat_inv, since
    abs(nan) < 1e-12 is false: no error is raised and the six free
    entries of the matrix returned are NaN. *)
Theorem nan_determinant_passes_the_guard :
  forall M : matrix float,
  det2 M = S754_nan ->
  exists Mi,
    mat_inv M = Ok Mi /\ forallb is_nan (free_entries Mi) = true.
Proof.
  intros [[[[a c] e] [[b d] f]] r2] H. unfold det2 in H. unfold mat_inv.
  rewrite H. cbn [less absolute lit float_Number].
  change (flt (fabs S754_nan) (float_of_Q (1 # 1000000000000))) with false.
  cbv iota. eexists. split; [reflexivity|].
  cbn [free_entries forallb mul add div neg float_Number].
  change (fdiv one_ S754_nan) with S754_nan.
  rewrite !fmul_nan_r, !fmul_nan_l, !fadd_nan_l. reflexivity.
Qed.

Lemma nan_determinant_passes_the_guard_witness :
  exists M Mi,
    parse_transform (libm := example_libm) (Some "scale(nan)") = Ok M
    /\ mat_inv M = Ok Mi /\ forallb is_nan (free_entries Mi) = true.
Proof.
  destruct (parse_transform (libm := example_libm) (Some "scale(nan)"))
    as [M|err] eqn:E; [|vm_compute in E; discriminate].
  assert (Hd : det2 M = S754_nan)
    by (vm_compute in E; inversion E; vm_compute; reflexivity).
  destruct (nan_determinant_passes_the_guard M Hd) as (Mi & H1 & H2).
  exists M, Mi. auto.
Defined.

(** ** The errors of parse_transform *)

Section ParserErrors.
Context {libm : Libm}.

Lemma first_error_wins : forall t pre c post acc e,
  findall t = (pre ++ c :: post)%list ->
  run_commands mat_identity pre = Ok acc ->
  transform_step acc c = Raise e ->
  parse_transform (Some t) = Raise e.
Proof.
  intros t pre c post acc e Hf Hpre Hc.
  rewrite parse_transform_findall, Hf, run_commands_app, Hpre.
  cbn [bind run_commands]. now rewrite Hc.
Qed.

Lemma command_matrix_count : forall cmd vals,
  known_command cmd = true ->
  if accepted_count (lower cmd) (List.length vals)
  then if infinite_rotation (lower cmd) vals
       then command_matrix cmd vals = Raise MathDomainError
       else exists m, command_matrix cmd vals = Ok m
  else command_matrix cmd vals
       = Raise (InvalidArguments (lower cmd) (List.length vals)).
Proof.
  intros cmd vals Hk. unfold known_command in Hk.
  unfold command_matrix, accepted_count, infinite_rotation.
  destruct (String.eqb_spec (lower cmd) "matrix") as [->|_].
  { destruct vals as [|a [|b [|c [|d [|e [|f [|g vals]]]]]]];
      cbn [List.length Nat.eqb String.eqb Ascii.eqb Bool.eqb andb]; eauto. }
  destruct (String.eqb_spec (lower cmd) "translate") as [->|_].
  { destruct vals as [|a [|b [|c vals]]];
      cbn [List.length Nat.eqb orb String.eqb Ascii.eqb Bool.eqb andb]; eauto. }
  destruct (String.eqb_spec (lower cmd) "rotate") as [->|_].
  { destruct vals as [|a [|b [|c [|d vals]]]];
      cbn [List.length Nat.eqb orb String.eqb Ascii.eqb Bool.eqb andb];
      try reflexivity;
      destruct (mat_rotate_cases a) as [[Hi E]|[Hi E]]; rewrite Hi, E;
      cbn [bind]; eauto. }
  destruct (String.eqb_spec (lower cmd) "scale") as [->|_].
  { destruct vals as [|a [|b [|c vals]]];
      cbn [List.length Nat.eqb orb String.eqb Ascii.eqb Bool.eqb andb]; eauto. }
  discriminate.
Qed.

(** matrix takes 6 values, translate 1 or 2, rotate 1 or 3, scale 1 or 2.
    With any other number of values the command raises the error that
    names it and the number found, also in the middle of an attribute
    whose earlier commands are fine.  With an accepted number it gives a
    matrix, except for a rotate whose angle is infinite: there the cosine
    raises the math domain error. *)
Theorem wrong_argument_count_is_refused :
  (forall cmd vals,
      known_command cmd = true ->
      accepted_count (lower cmd) (List.length vals) = false ->
      command_matrix cmd vals
      = Raise (InvalidArguments (lower cmd) (List.length vals)))
  /\ (forall cmd vals,
        known_command cmd = true ->
        accepted_count (lower cmd) (List.length vals) = true ->
        if infinite_rotation (lower cmd) vals
        then command_matrix cmd vals = Raise MathDomainError
        else exists m, command_matrix cmd vals = Ok m)
  /\ (forall t pre cmd args post acc vals,
        findall t = (pre ++ (cmd, args) :: post)%list ->
        run_commands mat_identity pre = Ok acc ->
        parse_number_list args = Ok vals ->
        known_command cmd = true ->
        accepted_count (lower cmd) (List.length vals) = false ->
        parse_transform (Some t)
        = Raise (InvalidArguments (lower cmd) (List.length vals)))
  /\ (forall t pre cmd args post acc vals,
        findall t = (pre ++ (cmd, args) :: post)%list ->
        run_commands mat_identity pre = Ok acc ->
        parse_number_list args = Ok vals ->
        known_command cmd = true ->
        accepted_count (lower cmd) (List.length vals) = true ->
        infinite_rotation (lower cmd) vals = true ->
        parse_transform (Some t) = Raise MathDomainError).
Proof.
  split; [|split; [|split]].
  - intros cmd vals Hk Ha. pose proof (command_matrix_count cmd vals Hk) as H.
    now rewrite Ha in H.
  - intros cmd vals Hk Ha. pose proof (command_matrix_count cmd vals Hk) as H.
    now rewrite Ha in H.
  - intros t pre cmd args post acc vals Hf Hpre Hargs Hk Ha.
    apply (first_error_wins t pre (cmd, args) post acc _ Hf Hpre).
    unfold transform_step. cbn [fst snd]. rewrite Hargs. cbn [bind].
    pose proof (command_matrix_count cmd vals Hk) as H.
    rewrite Ha in H. now rewrite H.
  - intros t pre cmd args post acc vals Hf Hpre Hargs Hk Ha Hi.
    apply (first_error_wins t pre (cmd, args) post acc _ Hf Hpre).
    unfold transform_step. cbn [fst snd]. rewrite Hargs. cbn [bind].
    pose proof (command_matrix_count cmd vals Hk) as H.
    rewrite Ha, Hi in H. now rewrite H.
Qed.

(** The numbers of a command are converted before its name is looked
    at: when the argument text of a command does not convert, the
    attribute raises that conversion error, whether the command is one of
    the four or not, and whatever follows. *)
Theorem bad_number_is_reported_first :
  forall t pre cmd args post acc e,
  findall t = (pre ++ (cmd, args) :: post)%list ->
  run_commands mat_identity pre = Ok acc ->
  parse_number_list args = Raise e ->
  parse_transform (Some t) = Raise e.
Proof.
  intros t pre cmd args post acc e Hf Hpre Hargs.
  apply (first_error_wins t pre (cmd, args) post acc _ Hf Hpre).
  unfold transform_step. cbn [fst snd]. now rewrite Hargs.
Qed.

(** Whatever the matrix, the text matrix_to_svg writes is accepted by
    parse_transform: it is one matrix command with six numbers, also when
    entries are infinite or NaN. *)
Theorem matrix_to_svg_always_parses : forall M : matrix float,
  exists a b c d e f,
    findall (matrix_to_svg M)
    = [("matrix",
        unwords (map format_12g (free_entries M)))]
    /\ parse_number_list (unwords (map format_12g (free_entries M)))
       = Ok [a; b; c; d; e; f]
    /\ parse_transform (Some (matrix_to_svg M))
       = Ok (mat_mul mat_identity ((a, c, e), (b, d, f), (zero_, zero_, one_))).
Proof.
  intros [[[[a c] e] [[b d] f]] r].
  destruct (format_12g_token a) as (Ta & Ca & a' & Ha).
  destruct (format_12g_token b) as (Tb & Cb & b' & Hb).
  destruct (format_12g_token c) as (Tc & Cc & c' & Hc).
  destruct (format_12g_token d) as (Td & Cd & d' & Hd).
  destruct (format_12g_token e) as (Te & Ce & e' & He).
  destruct (format_12g_token f) as (Tf & Cf & f' & Hf).
  exists a', b', c', d', e', f'. cbn [free_entries map]. split; [|split].
  - rewrite matrix_to_svg_unwords.
    rewrite <- (append_nil_r ")") at 1. rewrite <- !append_assoc.
    rewrite !append_assoc.
    rewrite findall_command;
      [reflexivity | discriminate | reflexivity | reflexivity |].
    apply string_forall_unwords; [reflexivity|]. repeat constructor; assumption.
  - apply parse_number_list_unwords; [discriminate | |].
    + repeat (apply Forall_cons; [assumption|]). apply Forall_nil.
    + repeat (apply Forall2_cons; [assumption|]). apply Forall2_nil.
  - now apply parse_matrix_to_svg.
Qed.
End ParserErrors.

Lemma wrong_argument_count_is_refused_witness :
  parse_transform (libm := example_libm) (Some "translate(1,2) rotate(30, 5)")
  = Raise (InvalidArguments "rotate" 2)
  /\ parse_transform (libm := example_libm) (Some "scale(2) Rotate(-inf 1 1)")
     = Raise MathDomainError.
Proof.
  split.
  - refine (proj1 (proj2 (proj2
              (wrong_argument_count_is_refused (libm := example_libm))))
              "translate(1,2) rotate(30, 5)" [("translate", "1,2")]
              "rotate" "30, 5" []
              (mat_mul mat_identity
                 (mat_translate (float_of_Q 1) (float_of_Q 2)))
              [float_of_Q 30; float_of_Q 5] _ _ _ _ _).
    + vm_compute. reflexivity.
    + vm_compute. reflexivity.
    + vm_compute. reflexivity.
    + reflexivity.
    + reflexivity.
  - refine (proj2 (proj2 (proj2
              (wrong_argument_count_is_refused (libm := example_libm))))
              "scale(2) Rotate(-inf 1 1)" [("scale", "2")]
              "Rotate" "-inf 1 1" []
              (mat_mul mat_identity
                 (mat_scale (float_of_Q 2) (float_of_Q 2)))
              [S754_infinity true; float_of_Q 1; float_of_Q 1] _ _ _ _ _ _).
    + vm_compute. reflexivity.
    + vm_compute. reflexivity.
    + vm_compute. reflexivity.
    + reflexivity.
    + reflexivity.
    + vm_compute. reflexivity.
Defined.

Lemma bad_number_is_reported_first_witness :
  parse_transform (libm := example_libm) (Some "skewX(10px) scale(2)")
  = Raise (BadNumber "10px").
Proof.
  apply (bad_number_is_reported_first (libm := example_libm)
           "skewX(10px) scale(2)" [] "skewX" "10px" [("scale", "2")]
           mat_identity).
  - vm_compute. reflexivity.
  - reflexivity.
  - vm_compute. reflexivity.
Defined.

(** ** Twelve significant digits *)

Local Open Scope R_scope.

Lemma Q2R_Qabs : forall q, Q2R (Qabs q) = Rabs (Q2R q).
Proof.
  intros q. apply (Qabs_case q (fun a => Q2R a = Rabs (Q2R q))); intros H;
    apply Qle_Rle in H;
    replace (Q2R 0) with 0 in H by (unfold Q2R; simpl; field).
  - now rewrite Rabs_right by lra.
  - rewrite Q2R_opp. unfold Rabs. destruct (Rcase_abs (Q2R q)); lra.
Qed.

Lemma moderate_elim : forall x,
  moderate x = true -> is_finite x = true /\ Rabs (F2R x) < powerRZ 2 1022.
Proof.
  intros x H. unfold moderate in H. apply andb_true_iff in H as [Hf H].
  split; [exact Hf|]. apply negb_true_iff in H.
  destruct (Rlt_le_dec (Rabs (F2R x)) (powerRZ 2 1022)) as [|Hge]; [assumption|].
  assert (Hq : Qle_bool (inject_Z (2 ^ 1022)) (Qabs (F2Q x)) = true);
    [|congruence].
  apply Qle_bool_iff, Rle_Qle. rewrite Q2R_Qabs, F2Q_F2R.
  unfold Q2R. cbn [Qnum Qden inject_Z].
  rewrite (powerRZ_IZR 2 1022) by lia. lra.
Qed.

Lemma Q2R_tiny : Q2R (1 # 2 ^ 1075) = powerRZ 2 (-1075).
Proof.
  unfold Q2R. cbn [Qnum Qden]. rewrite Pos2Z.inj_pow.
  rewrite (powerRZ_IZR 2 1075) by lia.
  change (-1075)%Z with (- (1075))%Z. rewrite powerRZ_neg'. lra.
Qed.

Lemma within_12_digits_intro : forall x y,
  is_finite x = true -> is_finite y = true ->
  Rabs (F2R y - F2R x) <= Rabs (F2R x) * (6 / 10 ^ 12) + powerRZ 2 (-1075) ->
  within_12_digits x y = true.
Proof.
  intros x y Hx Hy H. unfold within_12_digits. rewrite Hx, Hy. cbn [andb].
  apply Qabs_le_R.
  rewrite Q2R_minus, Q2R_plus, Q2R_mult, Q2R_Qabs, !F2Q_F2R, Q2R_tiny.
  replace (Q2R (6 # 1000000000000)) with (6 / 10 ^ 12)
    by (unfold Q2R; simpl; field).
  exact H.
Qed.

Lemma moderate_reads_back : forall x,
  moderate x = true ->
  exists y,
    float_of_string (format_12g x) = Some y
    /\ finite_double y
    /\ Rabs (F2R y - F2R x)
       <= Rabs (F2R x) * (6 / 10 ^ 12) + powerRZ 2 (-1075).
Proof.
  intros x H. apply moderate_elim in H as [Hf Hx].
  destruct x as [s|s| |s m e]; try discriminate.
  - exists (S754_zero s). split; [destruct s; vm_compute; reflexivity|].
    split; [split; reflexivity|].
    rewrite Rminus_diag, Rabs_R0. cbn [F2R]. rewrite Rabs_R0.
    pose proof (powerRZ_pos 2 (-1075) ltac:(lia)). lra.
  - destruct (format_12g_reads_back s m e Hx)
      as (y & Hy & Hfin & Hval & Herr & _).
    exists y. split; [exact Hy|]. split; [split; assumption | exact Herr].
Qed.
Local Close Scope R_scope.

Section TwelveDigits.
Context {libm : Libm}.

(** matrix_to_svg keeps twelve significant digits of every entry: when
    the six free entries are finite and below 2^1022 in magnitude, the
    matrix read back from the text has finite entries, each within six
    parts in 10^12 of the entry written (up to half the least positive
    double for the entries that underflow). *)
Theorem matrix_text_keeps_12_digits : forall M : matrix float,
  forallb moderate (free_entries M) = true ->
  exists M',
    parse_transform (Some (matrix_to_svg M)) = Ok M'
    /\ forallb (fun xy => within_12_digits (fst xy) (snd xy))
               (combine (free_entries M) (free_entries M')) = true.
Proof.
  intros [[[[a c] e] [[b d] f]] r] H. cbn [free_entries forallb] in H.
  repeat (apply andb_true_iff in H as [?Hs H]).
  destruct (moderate_reads_back a Hs) as (a' & Ea & Fa & Da).
  destruct (moderate_reads_back b Hs0) as (b' & Eb & Fb & Db).
  destruct (moderate_reads_back c Hs1) as (c' & Ec & Fc & Dc).
  destruct (moderate_reads_back d Hs2) as (d' & Ed & Fd & Dd).
  destruct (moderate_reads_back e Hs3) as (e' & Ee & Fe & De).
  destruct (moderate_reads_back f Hs4) as (f' & Ef & Ff & Df).
  exists (mat_mul mat_identity
            ((a', c', e'), (b', d', f'), (zero_, zero_, one_))).
  split; [now apply parse_matrix_to_svg|].
  pose proof (identity_times a' b' c' d' e' f' Fa Fb Fc Fd Fe Ff) as Hid.
  destruct (mat_mul mat_identity
              ((a', c', e'), (b', d', f'), (zero_, zero_, one_)))
    as [[[[a2 c2] e2] [[b2 d2] f2]] r2].
  destruct Hid as (Sa & Sb & Sc & Sd & Se & Sf).
  assert (Hw : forall x y y2,
             moderate x = true -> finite_double y -> same_value y2 y ->
             (Rabs (F2R y - F2R x)
              <= Rabs (F2R x) * (6 / 10 ^ 12) + powerRZ 2 (-1075))%R ->
             within_12_digits x y2 = true).
  { intros x y y2 Hx [_ Hy] Hsv Hd'. apply within_12_digits_intro.
    - now apply moderate_elim in Hx.
    - now apply (same_value_finite y2 y).
    - now rewrite (same_value_F2R y2 y Hsv). }
  cbn [free_entries combine forallb fst snd].
  rewrite (Hw a a' a2), (Hw b b' b2), (Hw c c' c2), (Hw d d' d2),
          (Hw e e' e2), (Hw f f' f2) by assumption.
  reflexivity.
Qed.
End TwelveDigits.

Lemma matrix_text_keeps_12_digits_witness :
  exists M M',
    parse_transform (libm := example_libm)
      (Some "translate(123456789.12345, 1e-320) scale(1e300)") = Ok M
    /\ parse_transform (libm := example_libm) (Some (matrix_to_svg M)) = Ok M'
    /\ forallb (fun xy => within_12_digits (fst xy) (snd xy))
               (combine (free_entries M) (free_entries M')) = true.
Proof.
  destruct (parse_transform (libm := example_libm)
              (Some "translate(123456789.12345, 1e-320) scale(1e300)"))
    as [M|err] eqn:E; [|vm_compute in E; discriminate].
  assert (Hs : forallb moderate (free_entries M) = true)
    by (vm_compute in E; inversion E; vm_compute; reflexivity).
  destruct (matrix_text_keeps_12_digits (libm := example_libm) M Hs)
    as (M' & H1 & H2).
  exists M, M'. auto.
Defined.

(** ** Cumulative transforms *)

Section Cumulative.
Context {libm : Libm}.

Lemma ancestors_snoc : forall q prefix e i pe c,
  get_at e q = Some pe ->
  nth_error (children pe) i = Some c ->
  ancestors prefix e (q ++ [i])%list
  = (ancestors prefix e q ++ [((prefix ++ q ++ [i])%list, c)])%list.
Proof.
  induction q as [|j q IH]; intros prefix e i pe c Hg Hc.
  - cbn [get_at] in Hg. inversion Hg; subst pe.
    cbn [List.app ancestors]. now rewrite Hc.
  - cbn [get_at] in Hg. cbn [List.app ancestors].
    destruct (nth_error (children e) j) as [x|]; [|discriminate].
    rewrite (IH (prefix ++ [j])%list x i pe c Hg Hc).
    now rewrite <- !app_assoc.
Qed.

Lemma get_at_snoc_inv : forall q e i c,
  get_at e (q ++ [i])%list = Some c ->
  exists pe, get_at e q = Some pe /\ nth_error (children pe) i = Some c.
Proof.
  induction q as [|j q IH]; intros e i c H.
  - cbn [List.app get_at] in H. exists e. split; [reflexivity|].
    now destruct (nth_error (children e) i).
  - cbn [List.app get_at] in *.
    destruct (nth_error (children e) j) as [x|]; [|discriminate].
    now apply IH.
Qed.

Lemma chain_to_root_step : forall fuel pmap c chain,
  chain_to_root (S fuel) pmap (Some c) chain
  = chain_to_root fuel pmap (dict_get path_eqb (fst c) pmap) (chain ++ [c])%list.
Proof. reflexivity. Qed.

(* the while loop ends, and the reversed chain is the way from the root
   down to the element *)
Lemma chain_to_root_ancestors : forall root q x acc,
  get_at root q = Some x ->
  chain_to_root (S (List.length q)) (build_parent_map root)
    (@Some ref (q, x)) acc
  = Ok (ancestors [] root q ++ rev acc)%list.
Proof.
  intros root q. induction q as [|i q IH] using rev_ind; intros x acc Hg.
  - cbn [get_at] in Hg. inversion Hg; subst x.
    rewrite chain_to_root_step. cbn [fst]. rewrite parent_map_root.
    cbn [List.length chain_to_root ancestors]. now rewrite rev_app_distr.
  - destruct (parent_map_child root q i x Hg) as (pe & Hd & Hpe & Hc).
    rewrite length_app. cbn [List.length]. rewrite Nat.add_1_r.
    rewrite chain_to_root_step. cbn [fst]. rewrite Hd.
    rewrite (IH pe _ Hpe), rev_app_distr. cbn [rev List.app].
    rewrite (ancestors_snoc q [] root i pe x Hpe Hc).
    now rewrite <- app_assoc.
Qed.

Lemma compose_chain_app : forall l1 l2 m,
  compose_chain m (l1 ++ l2)%list
  = (m' <- compose_chain m l1 ;; compose_chain m' l2).
Proof.
  induction l1 as [|node l1 IH]; intros l2 m; [reflexivity|].
  cbn [List.app compose_chain].
  destruct (parse_transform (elem_get (snd node) "transform")); cbn [bind];
    [apply IH | reflexivity].
Qed.

Lemma cumulative_transform_ancestors : forall root p e,
  get_at root p = Some e ->
  cumulative_transform_to_element (p, e) (build_parent_map root)
  = compose_chain mat_identity (ancestors [] root p).
Proof.
  intros root p e Hg. unfold cumulative_transform_to_element. cbn [fst].
  rewrite (chain_to_root_ancestors root p e [] Hg). cbn [rev bind].
  now rewrite app_nil_r.
Qed.

(** On the parent map of a tree the climb from an element of the tree to
    the root ends with the chain of the elements from the root down to
    the element, and the cumulative transform is the product, from the
    identity on, of their transform attributes in that order; the two
    functions compute the same. *)
Theorem cumulative_transform_follows_the_path : forall root p e,
  get_at root p = Some e ->
  chain_to_root (S (List.length p)) (build_parent_map root)
    (@Some ref (p, e)) []
  = Ok (ancestors [] root p)
  /\ cumulative_transform_to_element (p, e) (build_parent_map root)
     = compose_chain mat_identity (ancestors [] root p)
  /\ cumulative_transform_to_parent (p, e) (build_parent_map root)
     = cumulative_transform_to_element (p, e) (build_parent_map root).
Proof.
  intros root p e Hg. split; [|split].
  - rewrite (chain_to_root_ancestors root p e [] Hg). cbn [rev].
    now rewrite app_nil_r.
  - now apply cumulative_transform_ancestors.
  - reflexivity.
Qed.

(** The cumulative transform of a child is the cumulative transform of
    its parent multiplied on the right by the child's own transform
    attribute, and it fails when either of them fails. *)
Theorem cumulative_transform_of_child : forall root p i pe c,
  get_at root p = Some pe ->
  nth_error (children pe) i = Some c ->
  cumulative_transform_to_element ((p ++ [i])%list : path, c)
    (build_parent_map root)
  = (m <- cumulative_transform_to_element (p, pe) (build_parent_map root) ;;
     t <- parse_transform (elem_get c "transform") ;;
     Ok (mat_mul m t)).
Proof.
  intros root p i pe c Hpe Hc.
  assert (Hg : get_at root (p ++ [i])%list = Some c).
  { clear - Hpe Hc. revert root Hpe.
    induction p as [|j p IH]; intros root Hpe; cbn [List.app get_at] in *.
    - inversion Hpe; subst. now rewrite Hc.
    - destruct (nth_error (children root) j); [now apply IH | discriminate]. }
  rewrite (cumulative_transform_ancestors root _ c Hg).
  rewrite (cumulative_transform_ancestors root p pe Hpe).
  rewrite (ancestors_snoc p [] root i pe c Hpe Hc), compose_chain_app.
  destruct (compose_chain mat_identity (ancestors [] root p)) as [m|err];
    cbn [bind compose_chain snd]; [|reflexivity].
  now destruct (parse_transform (elem_get c "transform")).
Qed.

Lemma compose_chain_identity : forall chain,
  Forall (fun r : ref =>
            parse_transform (elem_get (snd r) "transform") = Ok mat_identity)
         chain ->
  compose_chain mat_identity chain = Ok mat_identity.
Proof.
  induction 1 as [|r chain Hr _ IH]; [reflexivity|].
  cbn [compose_chain]. rewrite Hr. cbn [bind].
  replace (mat_mul (@mat_identity float _) mat_identity)
    with (@mat_identity float _) by (vm_compute; reflexivity).
  exact IH.
Qed.

(** When every transform attribute from the root down to the template's
    parent is absent, or parses to the identity matrix, the rotation
    centre in the parent's coordinates is the global centre itself,
    (750.0, 515.0) exactly, and it is the centre a completed run
    reports. *)
Theorem untransformed_path_keeps_the_center :
  forall (root : Element) (template parent : ref),
  find_element_by_id root TEMPLATE_ID = Some template ->
  dict_get path_eqb (fst template) (build_parent_map root) = Some parent ->
  Forall (fun r : ref =>
            parse_transform (elem_get (snd r) "transform") = Ok mat_identity)
         (ancestors [] root (fst parent)) ->
  rotation_center parent (build_parent_map root)
  = Ok (GLOBAL_CENTER_X, GLOBAL_CENTER_Y)
  /\ (forall s c d,
        main root = Ok (Written s c d) -> c = (GLOBAL_CENTER_X, GLOBAL_CENTER_Y)).
Proof.
  intros root template [q pe] Hfind Hpar Hpath.
  destruct (parent_map_get root _ _ Hpar) as (i & c & _ & Hq & _).
  cbn [fst snd] in *.
  assert (Hc : rotation_center (q, pe) (build_parent_map root)
               = Ok (GLOBAL_CENTER_X, GLOBAL_CENTER_Y)).
  { unfold rotation_center.
    change (cumulative_transform_to_parent (q, pe) (build_parent_map root))
      with (cumulative_transform_to_element (q, pe) (build_parent_map root)).
    rewrite (cumulative_transform_ancestors root q pe Hq).
    rewrite (compose_chain_identity _ Hpath). cbn [bind].
    vm_compute. reflexivity. }
  split; [exact Hc|].
  intros s c0 d Hmain. unfold main in Hmain. rewrite Hfind, Hpar, Hc in Hmain.
  cbn [bind] in Hmain.
  destruct (delete_phase _ _) as [[s1 n]|]; cbn [bind] in Hmain; [|discriminate].
  destruct (stamp_phase _ _ _ _); cbn [bind] in Hmain; [|discriminate].
  now inversion Hmain.
Qed.
End Cumulative.

Lemma cumulative_transform_follows_the_path_witness :
  cumulative_transform_to_element (libm := example_libm)
    ([0; 0]%nat, element "g" [("id", "g16532")] [])
    (build_parent_map scenario_document)
  = compose_chain (libm := example_libm) mat_identity
      (ancestors [] scenario_document [0; 0]%nat).
Proof.
  exact (proj1 (proj2 (cumulative_transform_follows_the_path
                         (libm := example_libm) scenario_document [0; 0]%nat
                         (element "g" [("id", "g16532")] []) eq_refl))).
Defined.

Lemma cumulative_transform_of_child_witness :
  cumulative_transform_to_element (libm := example_libm)
    ([0; 0]%nat, element "g" [("id", "g16532")] [])
    (build_parent_map scenario_document)
  = Ok (mat_mul
          (mat_mul (mat_mul mat_identity mat_identity)
             (mat_mul mat_identity
                (mat_translate (float_of_Q 100) (float_of_Q 100))))
          mat_identity).
Proof.
  etransitivity.
  - exact (cumulative_transform_of_child (libm := example_libm)
             scenario_document [0%nat] 0%nat
             (element "g" [("transform", "translate(100,100)")]
                [element "g" [("id", "g16532")] []])
             (element "g" [("id", "g16532")] []) eq_refl eq_refl).
  - vm_compute. reflexivity.
Defined.

(* <svg><g><g id="g16532" transform="translate(5,5)"/></g></svg> *)
Lemma untransformed_path_keeps_the_center_witness :
  rotation_center (libm := example_libm)
    ([0%nat],
     element "g" []
       [element "g" [("id", "g16532"); ("transform", "translate(5,5)")] []])
    (build_parent_map
       (element "svg" []
          [element "g" []
             [element "g" [("id", "g16532"); ("transform", "translate(5,5)")]
                []]]))
  = Ok (GLOBAL_CENTER_X, GLOBAL_CENTER_Y).
Proof.
  refine (proj1 (untransformed_path_keeps_the_center (libm := example_libm)
                   _ ([0; 0]%nat,
                      element "g" [("id", "g16532");
                                   ("transform", "translate(5,5)")] [])
                   _ _ _ _)).
  - reflexivity.
  - vm_compute. reflexivity.
  - cbn. repeat constructor.
Defined.

(** ** A parent removed with the old stars *)

Lemma after_removal_prefix : forall q r,
  q <> [] -> after_removal q (q ++ r)%list = None.
Proof.
  induction q as [|i q IH]; intros r Hq; [congruence|].
  cbn [List.app after_removal]. rewrite Nat.eqb_refl.
  destruct q as [|j q]; [reflexivity|].
  now rewrite (IH r ltac:(discriminate)).
Qed.

Section RemovedParent.
Context {libm : Libm}.

Lemma stamp_one_detached : forall template cx cy s existing i s' existing' f p,
  star_parent s = Detached f p ->
  stamp_one template cx cy (s, existing) i = Ok (s', existing') ->
  doc s' = doc s /\ exists f', star_parent s' = Detached f' p.
Proof.
  intros template cx cy s existing i s' existing' f p Hd H.
  unfold stamp_one in H.
  destruct (fresh_star_id _ _ _ _ _) as [star_id|]; cbn [bind] in H;
    [|discriminate].
  destruct (fresh_wrapper_id _ _ _) as [wrapper_id|]; cbn [bind] in H;
    [|discriminate].
  inversion H; subst. unfold append_to_parent. rewrite Hd. cbn [doc star_parent].
  split; [reflexivity | eauto].
Qed.

Lemma stamp_loop_detached : forall template cx cy idxs s existing s' existing' f p,
  star_parent s = Detached f p ->
  stamp_loop template cx cy (s, existing) idxs = Ok (s', existing') ->
  doc s' = doc s /\ exists f', star_parent s' = Detached f' p.
Proof.
  intros template cx cy. induction idxs as [|i idxs IH];
    intros s existing s' existing' f p Hd H.
  - cbn [stamp_loop] in H. inversion H; subst. eauto.
  - cbn [stamp_loop] in H.
    destruct (stamp_one template cx cy (s, existing) i) as [[s1 e1]|] eqn:E;
      cbn [bind] in H; [|discriminate].
    destruct (stamp_one_detached _ _ _ _ _ _ _ _ _ _ Hd E) as [Hdoc [f1 Hd1]].
    destruct (IH _ _ _ _ _ _ Hd1 H) as [Hdoc' Hd'].
    split; [congruence | exact Hd'].
Qed.

Lemma stamp_phase_detached : forall template cx cy s s' f p,
  star_parent s = Detached f p ->
  stamp_phase template cx cy s = Ok s' ->
  doc s' = doc s /\ exists f', star_parent s' = Detached f' p.
Proof.
  intros template cx cy s s' f p Hd H. unfold stamp_phase in H.
  destruct (stamp_loop _ _ _ _ _) as [[s2 e2]|] eqn:E; cbn [bind] in H;
    [|discriminate].
  inversion H; subst. cbn [fst].
  exact (stamp_loop_detached _ _ _ _ _ _ _ _ _ _ Hd E).
Qed.

(** When a listed element that is deleted is the template's parent or one
    of its ancestors, star_parent goes on naming the removed object; the
    stamping phase then appends to the removed subtree and leaves the
    document as the deletions left it, so that the document written has
    none of the 27 wrappers. *)
Theorem removed_parent_keeps_the_wrappers :
  (forall s n sid par i q fragment,
      star_parent s = Attached ((par ++ [i]) ++ q)%list ->
      find_element_by_id (doc s) sid = Some ((par ++ [i])%list, fragment) ->
      exists s',
        delete_one (s, n) sid = Ok (s', S n)
        /\ star_parent s' = Detached fragment q)
  /\ (forall template cx cy s s' f p,
        star_parent s = Detached f p ->
        stamp_phase template cx cy s = Ok s' ->
        doc s' = doc s /\ exists f', star_parent s' = Detached f' p)
  /\ (forall root template parent center s1 deleted f p,
        find_element_by_id root TEMPLATE_ID = Some template ->
        dict_get path_eqb (fst template) (build_parent_map root) = Some parent ->
        rotation_center parent (build_parent_map root) = Ok center ->
        delete_phase (mkStore root (Attached (fst parent)))
          (STAR_IDS_TO_DELETE ++ [TEMPLATE_ID])%list = Ok (s1, deleted) ->
        star_parent s1 = Detached f p ->
        exists s2,
          main root = Ok (Written s2 center deleted) /\ doc s2 = doc s1).
Proof.
  split; [|split].
  - intros s n sid par i q fragment Hsp Hfind. unfold delete_one. rewrite Hfind.
    destruct (find_element_by_id_get_at _ _ _ Hfind) as [Hg _].
    cbn [fst snd] in *.
    destruct (parent_map_child (doc s) par i fragment Hg) as (pe & Hd & Hpe & Hc).
    rewrite Hd. cbn [fst]. unfold remove_elem.
    rewrite (proj2 (child_index_app par (par ++ [i])%list i) eq_refl), Hpe, Hg.
    rewrite Hsp, after_removal_prefix by (now destruct par).
    cbn [bind]. eexists. split; [reflexivity|]. cbn [star_parent].
    now rewrite skipn_app, skipn_all, Nat.sub_diag.
  - apply stamp_phase_detached.
  - intros root template parent [cx cy] s1 deleted f p Hfind Hpar Hc Hdel Hd.
    destruct (main_completes root template parent (cx, cy) Hfind Hpar Hc)
      as (s1' & deleted' & s2 & p1 & ws & Hdel' & Hmain & _).
    rewrite Hdel in Hdel'. inversion Hdel'; subst s1' deleted'.
    exists s2. split; [exact Hmain|].
    unfold main in Hmain. rewrite Hfind, Hpar, Hc in Hmain. cbn [bind] in Hmain.
    rewrite Hdel in Hmain. cbn [bind] in Hmain.
    destruct (stamp_phase (snd template) cx cy s1) as [s2'|] eqn:E;
      cbn [bind] in Hmain; [|discriminate].
    inversion Hmain; subst s2'.
    exact (proj1 (stamp_phase_detached (snd template) cx cy s1 s2 f p Hd E)).
Qed.
End RemovedParent.

(* <svg><g id="g16722"><g id="g16532"/></g></svg>: the template's parent is
   one of the old stars, and the document written is <svg/> *)
Lemma removed_parent_keeps_the_wrappers_witness :
  exists s2 center deleted,
    main (libm := example_libm)
      (element "svg" []
         [element "g" [("id", "g16722")] [element "g" [("id", "g16532")] []]])
    = Ok (Written s2 center deleted)
    /\ doc s2 = element "svg" [] [].
Proof.
  destruct (delete_phase
              (mkStore
                 (element "svg" []
                    [element "g" [("id", "g16722")]
                       [element "g" [("id", "g16532")] []]])
                 (Attached [0%nat]))
              (STAR_IDS_TO_DELETE ++ [TEMPLATE_ID])%list)
    as [[s1 deleted]|] eqn:Hdel; [|vm_compute in Hdel; discriminate].
  destruct (proj2 (proj2 (removed_parent_keeps_the_wrappers
                            (libm := example_libm)))
              (element "svg" []
                 [element "g" [("id", "g16722")]
                    [element "g" [("id", "g16532")] []]])
              ([0; 0]%nat, element "g" [("id", "g16532")] [])
              ([0%nat],
               element "g" [("id", "g16722")]
                 [element "g" [("id", "g16532")] []])
              (GLOBAL_CENTER_X, GLOBAL_CENTER_Y) s1 deleted
              (element "g" [("id", "g16722")]
                 [element "g" [("id", "g16532")] []]) [])
    as (s2 & Hmain & Hdoc).
  - reflexivity.
  - vm_compute. reflexivity.
  - vm_compute. reflexivity.
  - exact Hdel.
  - vm_compute in Hdel. inversion Hdel. reflexivity.
  - exists s2, (GLOBAL_CENTER_X, GLOBAL_CENTER_Y), deleted.
    split; [exact Hmain|]. rewrite Hdoc.
    vm_compute in Hdel. inversion Hdel. reflexivity.
Defined.

(** ** The number of deletions *)

Lemma delete_loop_app : forall l1 l2 st,
  delete_loop st (l1 ++ l2)%list
  = (st' <- delete_loop st l1 ;; delete_loop st' l2).
Proof.
  induction l1 as [|sid l1 IH]; intros l2 st; [reflexivity|].
  cbn [List.app delete_loop].
  destruct (delete_one st sid); cbn [bind]; [apply IH | reflexivity].
Qed.

Lemma delete_loop_count : forall ids s n s' n',
  delete_loop (s, n) ids = Ok (s', n') ->
  (n <= n' <= n + List.length ids)%nat /\ (n' = n -> s' = s).
Proof.
  induction ids as [|sid ids IH]; intros s n s' n' H.
  - cbn [delete_loop] in H. inversion H; subst. cbn [List.length]. split; [lia|auto].
  - cbn [delete_loop] in H.
    destruct (delete_one (s, n) sid) as [[s1 n1]|] eqn:E; cbn [bind] in H;
      [|discriminate].
    destruct (IH _ _ _ _ H) as [Hb Hs]. cbn [List.length].
    destruct (delete_one_effect _ _ _ _ _ E)
      as [(-> & -> & _)|(par & i & fragment & _ & _ & _ & ->)].
    + split; [lia | exact Hs].
    + split; [lia | intros ->; lia].
Qed.

Section DeletedCount.
Context {libm : Libm}.

(** The number of deletions a completed run reports is at least 1 and at
    most 20: each listed identifier removes at most one element, and the
    template, or something it hangs under, is removed. *)
Theorem deleted_count_bounds : forall root s center deleted,
  main root = Ok (Written s center deleted) ->
  (1 <= deleted <= 20)%nat.
Proof.
  intros root s center deleted H. unfold main in H.
  destruct (find_element_by_id root TEMPLATE_ID) as [template|] eqn:Hfind;
    [|discriminate].
  destruct (dict_get path_eqb (fst template) (build_parent_map root))
    as [parent|] eqn:Hpar; [|discriminate].
  destruct (rotation_center parent (build_parent_map root)) as [[cx cy]|];
    cbn [bind] in H; [|discriminate].
  destruct (delete_phase _ _) as [[s1 n]|] eqn:Hdel; cbn [bind] in H;
    [|discriminate].
  destruct (stamp_phase _ _ _ _); cbn [bind] in H; [|discriminate].
  inversion H; subst. clear H.
  unfold delete_phase in Hdel.
  destruct (delete_loop_count _ _ _ _ _ Hdel) as [Hb _].
  split; [|exact (proj2 Hb)].
  rewrite delete_loop_app in Hdel.
  destruct (delete_loop _ STAR_IDS_TO_DELETE) as [[sa na]|] eqn:Ha;
    cbn [bind] in Hdel; [|discriminate].
  destruct (delete_loop_count _ _ _ _ _ Ha) as [Hba Hsa].
  destruct (delete_loop_count _ _ _ _ _ Hdel) as [Hbt _].
  destruct na as [|na]; [|lia].
  specialize (Hsa eq_refl). subst sa.
  cbn [delete_loop] in Hdel.
  destruct (delete_one _ TEMPLATE_ID) as [[s2 n2]|] eqn:E; cbn [bind] in Hdel;
    [|discriminate].
  inversion Hdel; subst.
  destruct (delete_one_effect _ _ _ _ _ E)
    as [(_ & _ & Hset)|(par & i & fragment & _ & _ & _ & ->)]; [|lia].
  exfalso. cbn [doc] in Hset. destruct Hset as [Hn|[e He]]; [congruence|].
  rewrite Hfind in He. inversion He; subst. cbn [fst] in Hpar.
  now rewrite parent_map_root in Hpar.
Qed.
End DeletedCount.

Lemma deleted_count_bounds_witness :
  exists s center deleted,
    main (libm := example_libm) scenario_document = Ok (Written s center deleted)
    /\ (1 <= deleted <= 20)%nat.
Proof.
  destruct (main (libm := example_libm) scenario_document)
    as [[| |s center deleted]|] eqn:E; try (vm_compute in E; discriminate).
  exists s, center, deleted. split; [reflexivity|].
  exact (deleted_count_bounds (libm := example_libm) _ _ _ _ E).
Defined.

(** ** The identifiers minted by the stamping loop *)

Lemma fresh_star_id_shape : forall fuel existing base cand suffix r,
  fresh_star_id fuel existing base cand suffix = Ok r ->
  ~ In r existing
  /\ (r = cand
      \/ (In cand existing
          /\ exists k,
               (suffix <= k)%nat
               /\ r = base ++ "_" ++ str_of_nat k
               /\ forall j, (suffix <= j < k)%nat ->
                            In (base ++ "_" ++ str_of_nat j) existing)).
Proof.
  induction fuel as [|fuel IH]; intros existing base cand suffix r H;
    cbn [fresh_star_id] in H;
    destruct (set_mem string_dec cand existing) eqn:E;
    try discriminate.
  - inversion H; subst. apply set_mem_false in E. auto.
  - apply set_mem_true in E.
    destruct (IH _ _ _ _ _ H) as [Hr [->|(Hin & k & Hk & -> & Hall)]].
    + split; [exact Hr|]. right. split; [exact E|].
      exists suffix. split; [lia|]. split; [reflexivity|]. intros j Hj. lia.
    + split; [exact Hr|]. right. split; [exact E|].
      exists k. split; [lia|]. split; [reflexivity|].
      intros j Hj. destruct (Nat.eq_dec j suffix) as [->|Hne]; [exact Hin|].
      apply Hall. lia.
  - inversion H; subst. apply set_mem_false in E. auto.
Qed.

Lemma fresh_wrapper_id_shape : forall fuel existing cand r,
  fresh_wrapper_id fuel existing cand = Ok r ->
  exists k,
    r = cand ++ x_suffix k
    /\ ~ In r existing
    /\ forall j, (j < k)%nat -> In (cand ++ x_suffix j) existing.
Proof.
  induction fuel as [|fuel IH]; intros existing cand r H;
    cbn [fresh_wrapper_id] in H;
    destruct (set_mem string_dec cand existing) eqn:E;
    try discriminate.
  - inversion H; subst. apply set_mem_false in E. exists 0%nat.
    cbn [x_suffix]. rewrite append_nil_r. split; [reflexivity|].
    split; [exact E|]. intros j Hj. lia.
  - apply set_mem_true in E.
    destruct (IH _ _ _ H) as (k & -> & Hr & Hall).
    exists (S k). cbn [x_suffix]. rewrite <- !append_assoc.
    split; [reflexivity|]. split; [exact Hr|].
    intros [|j] Hj.
    + cbn [x_suffix]. now rewrite append_nil_r.
    + cbn [x_suffix]. rewrite <- append_assoc. apply Hall. lia.
  - inversion H; subst. apply set_mem_false in E. exists 0%nat.
    cbn [x_suffix]. rewrite append_nil_r. split; [reflexivity|].
    split; [exact E|]. intros j Hj. lia.
Qed.

Lemma fresh_star_id_returns : forall existing base,
  exists r, fresh_star_id (S (List.length existing)) existing base base 2 = Ok r.
Proof.
  intros existing base.
  destruct (fresh_star_id_ok (S (List.length existing)) existing base base 2 [])
    as (r & Hr & _).
  - constructor.
  - intros x [].
  - intros [].
  - intros j Hj. split; [intros []|]. apply append_longer. discriminate.
  - simpl. lia.
  - now exists r.
Qed.

Lemma fresh_wrapper_id_returns : forall existing wrapper_id,
  exists r,
    fresh_wrapper_id (S (List.length existing)) existing wrapper_id = Ok r.
Proof.
  intros existing wrapper_id.
  destruct (fresh_wrapper_id_ok (S (List.length existing)) existing
              wrapper_id []) as (r & Hr & _).
  - constructor.
  - intros x [].
  - intros t [].
  - simpl. lia.
  - now exists r.
Qed.

(** The loop that names a star ends, whatever the identifiers in use,
    with the first free name among base, base_2, base_3, ...: the name
    returned is not in use, and every candidate before it is. *)
Theorem star_id_is_the_first_free_name : forall existing base,
  exists r,
    fresh_star_id (S (List.length existing)) existing base base 2 = Ok r
    /\ ~ In r existing
    /\ (r = base
        \/ (In base existing
            /\ exists k,
                 (2 <= k)%nat
                 /\ r = base ++ "_" ++ str_of_nat k
                 /\ forall j, (2 <= j < k)%nat ->
                              In (base ++ "_" ++ str_of_nat j) existing)).
Proof.
  intros existing base.
  destruct (fresh_star_id_returns existing base) as [r Hr].
  exists r. split; [exact Hr|]. exact (fresh_star_id_shape _ _ _ _ _ _ Hr).
Qed.

(** The loop that names a wrapper ends, whatever the identifiers in use,
    with the first free name among id, id_x, id_x_x, ...: the name
    returned is not in use, and every shorter candidate is. *)
Theorem wrapper_id_is_the_first_free_name : forall existing wrapper_id,
  exists r k,
    fresh_wrapper_id (S (List.length existing)) existing wrapper_id = Ok r
    /\ r = wrapper_id ++ x_suffix k
    /\ ~ In r existing
    /\ forall j, (j < k)%nat -> In (wrapper_id ++ x_suffix j) existing.
Proof.
  intros existing wrapper_id.
  destruct (fresh_wrapper_id_returns existing wrapper_id) as [r Hr].
  destruct (fresh_wrapper_id_shape _ _ _ _ Hr) as (k & Hk).
  exists r, k. split; [exact Hr | exact Hk].
Qed.

Section Minting.
Context {libm : Libm}.

Lemma stamp_one_fresh : forall template cx cy s existing i,
  exists star_id wrapper_id,
    stamp_one template cx cy (s, existing) i
    = Ok (append_to_parent s (wrapper_of template cx cy i (star_id, wrapper_id)),
          set_add string_dec wrapper_id (set_add string_dec star_id existing))
    /\ ~ In star_id existing
    /\ ~ In wrapper_id existing
    /\ star_id <> wrapper_id
    /\ star_id <> EmptyString /\ wrapper_id <> EmptyString.
Proof.
  intros template cx cy s existing i. unfold stamp_one.
  set (base := TEMPLATE_ID ++ "_new" ++ format_02d i).
  destruct (fresh_star_id_ok (S (List.length existing)) existing base base 2 [])
    as (star_id & Hs & Hfresh).
  - constructor.
  - intros x [].
  - intros [].
  - intros j Hj. split; [intros []|]. apply append_longer. discriminate.
  - simpl. lia.
  - rewrite Hs. cbn [bind].
    set (existing1 := set_add string_dec star_id existing).
    destruct (fresh_wrapper_id_ok (S (List.length existing1)) existing1
                (star_id ++ "_wrap") [])
      as (wrapper_id & Hw & Hfresh').
    + constructor.
    + intros x [].
    + intros t [].
    + simpl. lia.
    + rewrite Hw. cbn [bind]. exists star_id, wrapper_id.
      split; [reflexivity|]. split; [exact Hfresh|].
      unfold existing1 in Hfresh'. rewrite set_add_iff in Hfresh'.
      split; [tauto|]. split; [intros E; apply Hfresh'; now left|].
      destruct (fresh_star_id_shape _ _ _ _ _ _ Hs)
        as [_ [->|(_ & k & _ & -> & _)]];
        (split; [discriminate|]);
        (destruct (fresh_wrapper_id_shape _ _ _ _ Hw) as (j & -> & _);
         discriminate).
Qed.

Lemma stamp_loop_fresh : forall template cx cy idxs s existing pe,
  parent_element s = Some pe ->
  exists s' existing' ids,
    stamp_loop template cx cy (s, existing) idxs = Ok (s', existing')
    /\ parent_element s'
       = Some (with_children pe
                 (children pe
                  ++ map (fun x => wrapper_of template cx cy (fst x) (snd x))
                       (combine idxs ids))%list)
    /\ List.length ids = List.length idxs
    /\ NoDup (minted ids)
    /\ (forall id, In id (minted ids) -> ~ In id existing /\ id <> EmptyString)
    /\ (forall id, In id existing' <-> In id existing \/ In id (minted ids)).
Proof.
  intros template cx cy. induction idxs as [|i idxs IH]; intros s existing pe Hpe.
  - exists s, existing, []. cbn [stamp_loop combine map minted flat_map].
    rewrite app_nil_r.
    assert (E : with_children pe (children pe) = pe) by now destruct pe.
    rewrite E. repeat split; auto; try constructor; try tauto;
      try (intros [H|[]]; exact H); contradiction.
  - cbn [stamp_loop].
    destruct (stamp_one_fresh template cx cy s existing i)
      as (star_id & wrapper_id & H1 & Hs & Hw & Hne & Hs0 & Hw0).
    rewrite H1. cbn [bind].
    set (w := wrapper_of template cx cy i (star_id, wrapper_id)).
    assert (Hpe1 : parent_element (append_to_parent s w) = Some (append pe w))
      by now apply parent_after_append.
    destruct (IH (append_to_parent s w)
                 (set_add string_dec wrapper_id (set_add string_dec star_id existing))
                 (append pe w) Hpe1)
      as (s' & existing' & ids & H & Hp & Hlen & Hnd & Hfresh & Hex).
    exists s', existing', ((star_id, wrapper_id) :: ids).
    assert (Hold : forall id, In id (minted ids) ->
                     id <> star_id /\ id <> wrapper_id /\ ~ In id existing).
    { intros id Hin. destruct (Hfresh id Hin) as [Hf _].
      rewrite !set_add_iff in Hf. tauto. }
    split; [exact H|]. split; [|split; [|split; [|split]]].
    + rewrite Hp. cbn [combine map fst snd]. fold w.
      now rewrite with_children_append.
    + cbn [List.length]. now rewrite Hlen.
    + cbn [minted flat_map fst snd List.app]. fold (minted ids).
      constructor; [|constructor; [|exact Hnd]].
      * intros [E|Hin]; [now apply Hne|]. now apply Hold in Hin.
      * intros Hin. now apply Hold in Hin.
    + cbn [minted flat_map fst snd List.app]. fold (minted ids).
      intros id [<-|[<-|Hin]]; [now split | now split |].
      split; [now apply Hold in Hin | now apply Hfresh in Hin].
    + cbn [minted flat_map fst snd List.app]. fold (minted ids).
      intros id. rewrite Hex, !set_add_iff. cbn [In]. intuition.
Qed.

(** In a completed run the 27 star identifiers and the 27 wrapper
    identifiers minted by the stamping loop are 54 pairwise distinct
    identifiers, none of which is carried by an element of the document
    as the deletions left it; the wrappers appended carry them in order. *)
Theorem minted_ids_are_fresh : forall root template parent center,
  find_element_by_id root TEMPLATE_ID = Some template ->
  dict_get path_eqb (fst template) (build_parent_map root) = Some parent ->
  rotation_center parent (build_parent_map root) = Ok center ->
  exists s1 deleted s2 ids,
    delete_phase (mkStore root (Attached (fst parent)))
      (STAR_IDS_TO_DELETE ++ [TEMPLATE_ID])%list = Ok (s1, deleted)
    /\ main root = Ok (Written s2 center deleted)
    /\ generated_wrappers s2
       = map (fun x => wrapper_of (snd template) (fst center) (snd center)
                         (fst x) (snd x))
           (combine (seq 0 TOTAL_STARS) ids)
    /\ List.length ids = 27%nat
    /\ NoDup (minted ids)
    /\ (forall id p e,
          In id (minted ids) -> get_at (doc s1) p = Some e ->
          elem_get e "id" <> Some id).
Proof.
  intros root template parent [cx cy] Hfind Hpar Hc.
  assert (Hres : parent_resolves (mkStore root (Attached (fst parent)))).
  { apply parent_map_get in Hpar as (i & c & _ & Hg & _). now exists (snd parent). }
  destruct (delete_loop_ok (STAR_IDS_TO_DELETE ++ [TEMPLATE_ID])%list _ 0%nat Hres)
    as (s1 & deleted & Hdel & [p1 Hp1]).
  destruct (stamp_loop_fresh (snd template) cx cy (seq 0 TOTAL_STARS) s1
              (find_all_ids (doc s1)) p1 Hp1)
    as (s2 & existing & ids & Hstamp & Hp2 & Hlen & Hnd & Hfresh & _).
  exists s1, deleted, s2, ids.
  split; [exact Hdel|]. split; [|split; [|split; [|split]]].
  - unfold main. rewrite Hfind, Hpar, Hc. cbn [bind].
    unfold delete_phase in *. rewrite Hdel. cbn [bind].
    unfold stamp_phase. rewrite Hstamp. reflexivity.
  - apply (generated_wrappers_eq s2 p1); [exact Hp2|].
    rewrite length_map, length_combine, Hlen, length_seq. apply Nat.min_id.
  - now rewrite Hlen, length_seq.
  - exact Hnd.
  - intros id p e Hin Hg Hid. destruct (Hfresh id Hin) as [Hf Hne].
    apply Hf. apply in_find_all_ids. split; [exact Hne|]. now exists p, e.
Qed.
End Minting.

Lemma minted_ids_are_fresh_witness :
  exists s1 deleted s2 ids,
    delete_phase (mkStore scenario_document (Attached [0%nat]))
      (STAR_IDS_TO_DELETE ++ [TEMPLATE_ID])%list = Ok (s1, deleted)
    /\ main (libm := example_libm) scenario_document
       = Ok (Written s2 (float_of_Q 650, float_of_Q 415) deleted)
    /\ List.length ids = 27%nat
    /\ NoDup (minted ids).
Proof.
  destruct (minted_ids_are_fresh (libm := example_libm) scenario_document
              ([0; 0]%nat, element "g" [("id", "g16532")] [])
              ([0%nat],
               element "g" [("transform", "translate(100,100)")]
                 [element "g" [("id", "g16532")] []])
              (float_of_Q 650, float_of_Q 415))
    as (s1 & deleted & s2 & ids & Hdel & Hmain & _ & Hlen & Hnd & _).
  - reflexivity.
  - vm_compute. reflexivity.
  - vm_compute. reflexivity.
  - exists s1, deleted, s2, ids. auto.
Defined.

(** ** What the deletion phase leaves *)

Lemma all_ids_split : forall l1 (pe : path * Element) l2,
  flat_map (fun x : path * Element => id_of (snd x)) (l1 ++ pe :: l2)%list
  = (flat_map (fun x : path * Element => id_of (snd x)) l1
     ++ id_of (snd pe)
     ++ flat_map (fun x : path * Element => id_of (snd x)) l2)%list.
Proof. intros. now rewrite flat_map_app. Qed.

Lemma in_ids_of : forall (l : list (path * Element)) q e sid,
  In (q, e) l -> elem_get e "id" = Some sid ->
  In sid (flat_map (fun x : path * Element => id_of (snd x)) l).
Proof.
  intros l q e sid Hin Hid. apply in_flat_map. exists (q, e).
  split; [exact Hin|]. unfold id_of. cbn [snd]. rewrite Hid. now left.
Qed.

(* with pairwise distinct identifiers, an identifier names one place *)
Lemma unique_id_path : forall root p q e e' sid,
  NoDup (all_ids root) ->
  get_at root p = Some e -> get_at root q = Some e' ->
  elem_get e "id" = Some sid -> elem_get e' "id" = Some sid ->
  p = q.
Proof.
  intros root p q e e' sid Hnd Hp Hq He He'.
  apply get_at_iter in Hp. apply get_at_iter in Hq.
  destruct (in_split _ _ Hp) as (l1 & l2 & E).
  unfold all_ids in Hnd. rewrite E in Hnd, Hq. rewrite all_ids_split in Hnd.
  unfold id_of in Hnd at 2. cbn [snd] in Hnd. rewrite He in Hnd.
  apply in_app_or in Hq as [Hq|[Hq|Hq]].
  - exfalso. apply (in_ids_of _ _ _ _ Hq) in He'.
    apply NoDup_remove_2 in Hnd. apply Hnd. apply in_or_app. now left.
  - now inversion Hq.
  - exfalso. apply (in_ids_of _ _ _ _ Hq) in He'.
    apply NoDup_remove_2 in Hnd. apply Hnd. apply in_or_app. now right.
Qed.

(** When the identifiers of the document are pairwise distinct, the
    deletion phase leaves no element that carries a listed identifier,
    except the root, which is never removed; the identifiers stay
    pairwise distinct. *)
Theorem listed_ids_are_removed : forall s ids s' deleted,
  NoDup (all_ids (doc s)) ->
  delete_phase s ids = Ok (s', deleted) ->
  NoDup (all_ids (doc s'))
  /\ forall sid p e,
       In sid ids -> get_at (doc s') p = Some e ->
       elem_get e "id" = Some sid -> p = [].
Proof.
  intros s ids s' deleted Hnd H. unfold delete_phase in H.
  destruct (delete_loop_settles ids s 0%nat s' deleted Hnd H) as [Hnd' Hset].
  split; [exact Hnd'|].
  intros sid p e Hin Hg Hid.
  destruct (Hset sid (or_intror Hin)) as [Hnone|[e0 Hroot]].
  - exfalso. apply find_none_iff in Hnone. apply Hnone. apply in_all_ids.
    exists (p, e). split; [now apply get_at_iter | exact Hid].
  - destruct (find_element_by_id_get_at _ _ _ Hroot) as [Hg0 Hid0].
    cbn [fst snd] in *.
    exact (unique_id_path (doc s') p [] e e0 sid Hnd' Hg Hg0 Hid Hid0).
Qed.

Lemma listed_ids_are_removed_witness :
  exists s' deleted,
    delete_phase
      (mkStore
         (element "svg" []
            [element "g" [("id", "g16722")] [element "g" [("id", "g16712")] []];
             element "g" [("id", "keep")] []])
         (Attached []))
      ["g16712"; "g16722"] = Ok (s', deleted)
    /\ doc s' = element "svg" [] [element "g" [("id", "keep")] []]
    /\ forall sid p e,
         In sid ["g16712"; "g16722"] -> get_at (doc s') p = Some e ->
         elem_get e "id" = Some sid -> p = [].
Proof.
  destruct (delete_phase
              (mkStore
                 (element "svg" []
                    [element "g" [("id", "g16722")]
                       [element "g" [("id", "g16712")] []];
                     element "g" [("id", "keep")] []])
                 (Attached []))
              ["g16712"; "g16722"]) as [[s' deleted]|] eqn:E;
    [|vm_compute in E; discriminate].
  assert (Hnd : NoDup
            (all_ids
               (element "svg" []
                  [element "g" [("id", "g16722")]
                     [element "g" [("id", "g16712")] []];
                   element "g" [("id", "keep")] []]))).
  { vm_compute. repeat constructor; simpl; intuition discriminate. }
  exists s', deleted. split; [reflexivity|]. split.
  - vm_compute in E. inversion E. reflexivity.
  - exact (proj2 (listed_ids_are_removed
                    (mkStore
                       (element "svg" []
                          [element "g" [("id", "g16722")]
                             [element "g" [("id", "g16712")] []];
                           element "g" [("id", "keep")] []])
                       (Attached []))
                    _ _ _ Hnd E)).
Defined.

(** ** How a run ends *)

Section Outcomes.
Context {libm : Libm}.

Lemma mapM_to_float_error : forall ts e,
  mapM to_float ts = Raise e -> is_value_error e = true.
Proof.
  induction ts as [|t ts IH]; intros e H; [discriminate|].
  cbn [mapM] in H. unfold to_float at 1 in H.
  destruct (float_of_string t); cbn [bind] in H.
  - destruct (mapM to_float ts) eqn:E; cbn [bind] in H; [discriminate|].
    inversion H; subst. now apply IH.
  - inversion H. reflexivity.
Qed.

Lemma command_matrix_error : forall cmd vals e,
  command_matrix cmd vals = Raise e -> is_value_error e = true.
Proof.
  intros cmd vals e H. unfold command_matrix in H.
  repeat match type of H with
         | (if ?b then _ else _) = _ => destruct b
         | match ?l with _ => _ end = _ => destruct l
         end;
    try (inversion H; reflexivity);
    match type of H with
    | context [mat_rotate ?a] =>
        destruct (mat_rotate_cases a) as [[_ E]|[_ E]]; rewrite E in H;
        cbn [bind] in H; inversion H; reflexivity
    end.
Qed.

Lemma run_commands_error : forall cmds acc e,
  run_commands acc cmds = Raise e -> is_value_error e = true.
Proof.
  induction cmds as [|[cmd args] cmds IH]; intros acc e H; [discriminate|].
  cbn [run_commands] in H. unfold transform_step in H. cbn [fst snd] in H.
  unfold parse_number_list in H.
  destruct (mapM to_float _) as [vals|e1] eqn:E1; cbn [bind] in H.
  - destruct (command_matrix cmd vals) as [m|e2] eqn:E2; cbn [bind] in H.
    + now apply IH in H.
    + inversion H; subst. now apply command_matrix_error in E2.
  - inversion H; subst. now apply mapM_to_float_error in E1.
Qed.

Lemma parse_transform_error : forall t e,
  parse_transform t = Raise e -> is_value_error e = true.
Proof.
  intros [t|] e H; [|discriminate].
  rewrite parse_transform_findall in H. now apply run_commands_error in H.
Qed.

Lemma compose_chain_error : forall chain m e,
  compose_chain m chain = Raise e -> is_value_error e = true.
Proof.
  induction chain as [|node chain IH]; intros m e H; [discriminate|].
  cbn [compose_chain] in H.
  destruct (parse_transform (elem_get (snd node) "transform")) as [t|e1] eqn:E;
    cbn [bind] in H.
  - now apply IH in H.
  - inversion H; subst. now apply parse_transform_error in E.
Qed.

Lemma rotation_center_error : forall root parent e,
  get_at root (fst parent) = Some (snd parent) ->
  rotation_center parent (build_parent_map root) = Raise e ->
  is_value_error e = true.
Proof.
  intros root [q pe] e Hg H. cbn [fst snd] in Hg. unfold rotation_center in H.
  change (cumulative_transform_to_parent (q, pe) (build_parent_map root))
    with (cumulative_transform_to_element (q, pe) (build_parent_map root)) in H.
  rewrite (cumulative_transform_ancestors root q pe Hg) in H.
  destruct (compose_chain mat_identity (ancestors [] root q)) as [M|e1] eqn:E;
    cbn [bind] in H.
  - destruct (mat_inv M) as [Mi|e2] eqn:E2; cbn [bind] in H; [discriminate|].
    inversion H; subst. apply mat_inv_only_error in E2. now subst.
  - inversion H; subst. now apply compose_chain_error in E.
Qed.

(** A run ends in one of four ways.  It returns 1 with "template not
    found" exactly when no element carries the template's identifier,
    and with "template has no parent" exactly when the root carries it.
    Otherwise the outcome is the one of the rotation-centre computation:
    when that gives a centre the run completes with it, and when that
    raises, the run raises the same error, which is one of the ValueErrors
    of the transform code.  The deletion and stamping phases never fail
    and never loop for ever. *)
Theorem main_outcomes : forall root,
  (main root = Ok TemplateNotFound
   <-> forall p e, get_at root p = Some e ->
                   elem_get e "id" <> Some TEMPLATE_ID)
  /\ (main root = Ok TemplateHasNoParent
      <-> elem_get root "id" = Some TEMPLATE_ID)
  /\ (forall template parent,
        find_element_by_id root TEMPLATE_ID = Some template ->
        dict_get path_eqb (fst template) (build_parent_map root) = Some parent ->
        match rotation_center parent (build_parent_map root) with
        | Ok center => exists s deleted, main root = Ok (Written s center deleted)
        | Raise e => main root = Raise e /\ is_value_error e = true
        end).
Proof.
  intros root.
  assert (H3 : forall template parent,
             find_element_by_id root TEMPLATE_ID = Some template ->
             dict_get path_eqb (fst template) (build_parent_map root)
             = Some parent ->
             match rotation_center parent (build_parent_map root) with
             | Ok center =>
                 exists s deleted, main root = Ok (Written s center deleted)
             | Raise e => main root = Raise e /\ is_value_error e = true
             end).
  { intros template parent Hfind Hpar.
    destruct (rotation_center parent (build_parent_map root))
      as [center|e] eqn:Hc.
    - destruct (main_completes root template parent center Hfind Hpar Hc)
        as (s1 & deleted & s2 & p1 & ws & _ & Hmain & _).
      now exists s2, deleted.
    - split; [unfold main; now rewrite Hfind, Hpar, Hc|].
      apply parent_map_get in Hpar as (i & c & _ & Hq & _).
      exact (rotation_center_error root parent e Hq Hc). }
  assert (H1 : find_element_by_id root TEMPLATE_ID = None ->
               main root = Ok TemplateNotFound).
  { intros Hfind. unfold main. now rewrite Hfind. }
  assert (H2 : forall template,
             find_element_by_id root TEMPLATE_ID = Some template ->
             dict_get path_eqb (fst template) (build_parent_map root) = None ->
             main root = Ok TemplateHasNoParent).
  { intros template Hfind Hpar. unfold main. now rewrite Hfind, Hpar. }
  assert (Hcases :
            (find_element_by_id root TEMPLATE_ID = None
             /\ main root = Ok TemplateNotFound)
            \/ (exists template,
                  find_element_by_id root TEMPLATE_ID = Some template
                  /\ fst template = []
                  /\ main root = Ok TemplateHasNoParent)
            \/ (exists template,
                  find_element_by_id root TEMPLATE_ID = Some template
                  /\ fst template <> []
                  /\ main root <> Ok TemplateNotFound
                  /\ main root <> Ok TemplateHasNoParent)).
  { destruct (find_element_by_id root TEMPLATE_ID) as [template|] eqn:Hfind;
      [|left; auto].
    right. destruct (find_element_by_id_get_at _ _ _ Hfind) as [Hg _].
    destruct (dict_get path_eqb (fst template) (build_parent_map root))
      as [parent|] eqn:Hpar.
    - right. exists template. split; [reflexivity|]. split.
      + intros E. rewrite E, parent_map_root in Hpar. discriminate.
      + specialize (H3 template parent eq_refl Hpar).
        destruct (rotation_center parent (build_parent_map root)).
        * destruct H3 as (s & d & ->). split; discriminate.
        * destruct H3 as [-> _]. split; discriminate.
    - left. exists template. split; [reflexivity|].
      split; [exact (parentless_is_root _ _ _ Hg Hpar) | now apply (H2 template)]. }
  split; [|split; [|exact H3]].
  - split.
    + intros Hmain p e Hg Hid.
      destruct Hcases as [[Hfind _]|[(t & _ & _ & Hm)|(t & _ & _ & Hm & _)]];
        [|congruence|congruence].
      apply find_none_iff in Hfind. apply Hfind. apply in_all_ids.
      exists (p, e). split; [now apply get_at_iter | exact Hid].
    + intros Hno. apply H1.
      destruct (find_element_by_id root TEMPLATE_ID) as [template|] eqn:Hfind;
        [|reflexivity].
      destruct (find_element_by_id_get_at _ _ _ Hfind) as [Hg Hid].
      now apply Hno in Hg.
  - split.
    + intros Hmain.
      destruct Hcases as [[_ Hm]|[(t & Hfind & Ht & _)|(t & _ & _ & _ & Hm)]];
        [congruence| |congruence].
      destruct (find_element_by_id_get_at _ _ _ Hfind) as [Hg Hid].
      rewrite Ht in Hg. cbn [get_at] in Hg. congruence.
    + intros Hid. apply (H2 ([], root)); [now apply find_root|].
      apply parent_map_root.
Qed.
End Outcomes.

Lemma main_outcomes_witness :
  main (libm := example_libm)
    (element "svg" []
       [element "g" [("transform", "scale(0)")]
          [element "g" [("id", "g16532")] []]])
  = Raise NonInvertible.
Proof.
  refine (proj1 (proj2 (proj2 (main_outcomes (libm := example_libm)
                     (element "svg" []
                        [element "g" [("transform", "scale(0)")]
                           [element "g" [("id", "g16532")] []]])))
            ([0; 0]%nat, element "g" [("id", "g16532")] [])
            ([0%nat],
             element "g" [("transform", "scale(0)")]
               [element "g" [("id", "g16532")] []])
            _ _)).
  - reflexivity.
  - vm_compute. reflexivity.
Defined.

(** ** The document a run writes *)

Section WrittenDocument.
Context {libm : Libm}.

(* the stamping loop while star_parent hangs in the document *)
Lemma stamp_loop_attached : forall template cx cy idxs s existing p,
  star_parent s = Attached p ->
  exists s' existing' ids,
    stamp_loop template cx cy (s, existing) idxs = Ok (s', existing')
    /\ star_parent s' = Attached p
    /\ doc s'
       = update_at
           (with_appended
              (map (fun x => wrapper_of template cx cy (fst x) (snd x))
                 (combine idxs ids)))
           (doc s) p
    /\ List.length ids = List.length idxs
    /\ NoDup (minted ids)
    /\ (forall id, In id (minted ids) -> ~ In id existing /\ id <> EmptyString).
Proof.
  intros template cx cy. induction idxs as [|i idxs IH]; intros s existing p Hp.
  - exists s, existing, []. cbn [stamp_loop combine map minted flat_map].
    split; [reflexivity|]. split; [exact Hp|]. split.
    + rewrite (update_at_ext _ (fun e => e)) by apply with_appended_nil.
      now rewrite update_at_same.
    + repeat split; try constructor; contradiction.
  - cbn [stamp_loop].
    destruct (stamp_one_fresh template cx cy s existing i)
      as (star_id & wrapper_id & H1 & Hs & Hw & Hne & Hs0 & Hw0).
    rewrite H1. cbn [bind].
    set (w := wrapper_of template cx cy i (star_id, wrapper_id)).
    assert (Hp1 : star_parent (append_to_parent s w) = Attached p)
      by (unfold append_to_parent; now rewrite Hp).
    assert (Hd1 : doc (append_to_parent s w)
                  = update_at (fun e => append e w) (doc s) p)
      by (unfold append_to_parent; now rewrite Hp).
    destruct (IH (append_to_parent s w)
                 (set_add string_dec wrapper_id (set_add string_dec star_id existing))
                 p Hp1)
      as (s' & existing' & ids & H & Hp' & Hdoc & Hlen & Hnd & Hfresh).
    exists s', existing', ((star_id, wrapper_id) :: ids).
    assert (Hold : forall id, In id (minted ids) ->
                     id <> star_id /\ id <> wrapper_id /\ ~ In id existing).
    { intros id Hin. destruct (Hfresh id Hin) as [Hf _].
      rewrite !set_add_iff in Hf. tauto. }
    split; [exact H|]. split; [exact Hp'|]. split; [|split; [|split]].
    + rewrite Hdoc, Hd1, update_at_compose. cbn [combine map fst snd]. fold w.
      apply update_at_ext. intros e. apply with_appended_cons.
    + cbn [List.length]. now rewrite Hlen.
    + cbn [minted flat_map fst snd List.app]. fold (minted ids).
      constructor; [|constructor; [|exact Hnd]].
      * intros [E|Hin]; [now apply Hne|]. now apply Hold in Hin.
      * intros Hin. now apply Hold in Hin.
    + cbn [minted flat_map fst snd List.app]. fold (minted ids).
      intros id [<-|[<-|Hin]]; [now split | now split |].
      split; [now apply Hold in Hin | now apply Hfresh in Hin].
Qed.

(* a completed run whose star_parent still hangs in the document after
   the deletions *)
Lemma main_attached : forall root template parent center s1 deleted p,
  find_element_by_id root TEMPLATE_ID = Some template ->
  dict_get path_eqb (fst template) (build_parent_map root) = Some parent ->
  rotation_center parent (build_parent_map root) = Ok center ->
  delete_phase (mkStore root (Attached (fst parent)))
    (STAR_IDS_TO_DELETE ++ [TEMPLATE_ID])%list = Ok (s1, deleted) ->
  star_parent s1 = Attached p ->
  exists s2 ids,
    main root = Ok (Written s2 center deleted)
    /\ star_parent s2 = Attached p
    /\ doc s2
       = update_at
           (with_appended
              (map (fun x => wrapper_of (snd template) (fst center) (snd center)
                                (fst x) (snd x))
                 (combine (seq 0 TOTAL_STARS) ids)))
           (doc s1) p
    /\ List.length ids = 27%nat
    /\ NoDup (minted ids)
    /\ (forall id, In id (minted ids) -> ~ In id (all_ids (doc s1))).
Proof.
  intros root template parent [cx cy] s1 deleted p Hfind Hpar Hc Hdel Hp.
  destruct (stamp_loop_attached (snd template) cx cy (seq 0 TOTAL_STARS) s1
              (find_all_ids (doc s1)) p Hp)
    as (s2 & existing & ids & Hstamp & Hsp & Hdoc & Hlen & Hnd & Hfresh).
  exists s2, ids.
  split; [|split; [exact Hsp|split; [exact Hdoc|split; [|split; [exact Hnd|]]]]].
  - unfold main. rewrite Hfind, Hpar, Hc. cbn [bind].
    rewrite Hdel. cbn [bind]. unfold stamp_phase. rewrite Hstamp. reflexivity.
  - now rewrite Hlen, length_seq.
  - intros id Hin Hall. destruct (Hfresh id Hin) as [Hf Hne]. apply Hf.
    apply in_find_all_ids. split; [exact Hne|].
    apply in_all_ids in Hall as ([q e] & Hq & Hid).
    exists q, e. split; [now apply iter_get_at | exact Hid].
Qed.

(** When star_parent still hangs in the document after the deletions,
    the document written is the document the deletions left with the 27
    wrappers appended, in order, to the children of star_parent; nothing
    else is changed. *)
Theorem stamping_only_appends : forall root template parent center s1 deleted p,
  find_element_by_id root TEMPLATE_ID = Some template ->
  dict_get path_eqb (fst template) (build_parent_map root) = Some parent ->
  rotation_center parent (build_parent_map root) = Ok center ->
  delete_phase (mkStore root (Attached (fst parent)))
    (STAR_IDS_TO_DELETE ++ [TEMPLATE_ID])%list = Ok (s1, deleted) ->
  star_parent s1 = Attached p ->
  exists s2,
    main root = Ok (Written s2 center deleted)
    /\ doc s2 = update_at (with_appended (generated_wrappers s2)) (doc s1) p.
Proof.
  intros root template parent center s1 deleted p Hfind Hpar Hc Hdel Hp.
  destruct (main_attached root template parent center s1 deleted p
              Hfind Hpar Hc Hdel Hp) as (s2 & ids & Hmain & Hsp & Hdoc & Hlen & _).
  exists s2. split; [exact Hmain|].
  assert (Hres : parent_resolves (mkStore root (Attached (fst parent)))).
  { apply parent_map_get in Hpar as (i & c & _ & Hg & _). now exists (snd parent). }
  unfold delete_phase in Hdel.
  destruct (delete_loop_ok (STAR_IDS_TO_DELETE ++ [TEMPLATE_ID])%list _ 0%nat Hres)
    as (s1' & deleted' & Hdel' & [p1 Hp1]).
  rewrite Hdel in Hdel'. inversion Hdel'; subst s1' deleted'.
  unfold parent_element in Hp1. rewrite Hp in Hp1.
  rewrite Hdoc. f_equal. f_equal. symmetry.
  apply (generated_wrappers_eq s2 p1).
  - unfold parent_element. rewrite Hsp, Hdoc.
    rewrite (get_at_update_at _ p (doc s1) p1 Hp1). reflexivity.
  - now rewrite length_map, length_combine, Hlen, length_seq.
Qed.
End WrittenDocument.

Lemma stamping_only_appends_witness :
  exists s2,
    main (libm := example_libm) scenario_document
    = Ok (Written s2 (float_of_Q 650, float_of_Q 415) 1%nat)
    /\ doc s2
       = update_at (with_appended (generated_wrappers s2))
           (element "svg" []
              [element "g" [("transform", "translate(100,100)")] []])
           [0%nat].
Proof.
  apply (stamping_only_appends (libm := example_libm) scenario_document
           ([0; 0]%nat, element "g" [("id", "g16532")] [])
           ([0%nat],
            element "g" [("transform", "translate(100,100)")]
              [element "g" [("id", "g16532")] []])
           (float_of_Q 650, float_of_Q 415)
           (mkStore
              (element "svg" []
                 [element "g" [("transform", "translate(100,100)")] []])
              (Attached [0%nat]))
           1%nat [0%nat]).
  - reflexivity.
  - vm_compute. reflexivity.
  - vm_compute. reflexivity.
  - vm_compute. reflexivity.
  - reflexivity.
Defined.

(** ** The identifiers of the document a run writes *)

Lemma elem_get_set_same : forall e k v, elem_get (elem_set e k v) k = Some v.
Proof.
  intros e k v. unfold elem_get, elem_set. cbn [attrib].
  induction (attrib e) as [|[k' v'] d IH]; cbn [dict_set dict_get].
  - now rewrite String.eqb_refl.
  - destruct (String.eqb k k') eqn:E; cbn [dict_get].
    + now rewrite String.eqb_refl.
    + now rewrite E.
Qed.

Lemma all_ids_wrapper : forall template cx cy i ids,
  all_ids (wrapper_of template cx cy i ids)
  = (snd ids :: fst ids :: descendant_ids template)%list.
Proof.
  intros template cx cy i [sid wid]. unfold wrapper_of. cbn [fst snd].
  rewrite all_ids_unfold. cbn [children flat_map].
  rewrite (all_ids_unfold (elem_set _ _ _)).
  unfold id_of at 2. rewrite elem_get_set_same.
  rewrite app_nil_r. reflexivity.
Qed.

(** Appending children to one element inserts their identifiers into
    the document order and leaves the others as they stand. *)
Lemma all_ids_appended : forall ws p e pe,
  get_at e p = Some pe ->
  exists A B,
    all_ids e = (A ++ B)%list
    /\ all_ids (update_at (with_appended ws) e p)
       = (A ++ flat_map all_ids ws ++ B)%list.
Proof.
  intros ws. induction p as [|k p IH]; intros e pe H; cbn [get_at] in H.
  - exists (all_ids e), []. cbn [update_at]. unfold with_appended.
    rewrite (all_ids_unfold (with_children _ _)), id_of_with_children.
    cbn [children with_children].
    rewrite !app_nil_r, flat_map_app, app_assoc, <- all_ids_unfold.
    split; reflexivity.
  - destruct (nth_error (children e) k) as [c|] eqn:Hn; [|discriminate].
    destruct (IH c pe H) as (A & B & E1 & E2).
    destruct (nth_error_split_update
                (fun c => update_at (with_appended ws) c p) _ _ _ Hn)
      as (l1 & l2 & El & Eu).
    exists (id_of e ++ flat_map all_ids l1 ++ A)%list,
           (B ++ flat_map all_ids l2)%list.
    cbn [update_at].
    rewrite (all_ids_unfold e),
            (all_ids_unfold (with_children _ _)), id_of_with_children.
    cbn [children with_children].
    rewrite Eu, El, !flat_map_app. cbn [flat_map]. rewrite E1, E2.
    now rewrite <- !app_assoc.
Qed.

Lemma nodup_insert : forall {A} (l1 m l2 : list A),
  NoDup (l1 ++ l2) -> NoDup m ->
  (forall x, In x m -> ~ In x (l1 ++ l2)) ->
  NoDup (l1 ++ m ++ l2).
Proof.
  intros A l1 m l2 H12 Hm Hfree.
  induction m as [|y m IH]; [exact H12|].
  apply NoDup_cons_iff in Hm as [Hy Hm].
  cbn [List.app]. apply NoDup_Add with (a := y) (l := (l1 ++ m ++ l2)%list).
  - apply Add_app.
  - split.
    + apply IH; [exact Hm|]. intros x Hx. apply Hfree. now right.
    + intros Hin. apply in_app_or in Hin as [Hin|Hin].
      * apply (Hfree y); [now left | apply in_or_app; now left].
      * apply in_app_or in Hin as [Hin|Hin]; [now apply Hy|].
        apply (Hfree y); [now left | apply in_or_app; now right].
Qed.

Lemma wrapper_ids_bare : forall template cx cy idxs ids,
  descendant_ids template = [] ->
  List.length ids = List.length idxs ->
  NoDup (minted ids) ->
  let ws := map (fun x => wrapper_of template cx cy (fst x) (snd x))
              (combine idxs ids) in
  NoDup (flat_map all_ids ws)
  /\ forall x, In x (flat_map all_ids ws) -> In x (minted ids).
Proof.
  intros template cx cy idxs ids Hbare. revert idxs.
  induction ids as [|[sid wid] ids IH]; intros [|i idxs] Hlen Hnd;
    cbn [List.length] in Hlen; try discriminate; cbn zeta;
    cbn [combine map flat_map fst snd].
  - split; [constructor | intros x []].
  - rewrite all_ids_wrapper, Hbare. cbn [fst snd List.app].
    cbn [minted flat_map fst snd List.app] in Hnd. fold (minted ids) in Hnd.
    apply NoDup_cons_iff in Hnd as [Hs Hnd].
    apply NoDup_cons_iff in Hnd as [Hw Hnd].
    destruct (IH idxs ltac:(lia) Hnd) as [IH1 IH2].
    split.
    + constructor; [|constructor; [|exact IH1]].
      * intros [E|Hin]; [apply Hs; now left|]. now apply Hw, IH2.
      * intros Hin. apply Hs. right. now apply IH2.
    + cbn [minted flat_map fst snd List.app]. fold (minted ids).
      intros x [<-|[<-|Hin]]; [right; now left | now left |].
      right; right. now apply IH2.
Qed.

Lemma repeated_id : forall {A} (d : A) (l1 x m y l2 : list A),
  In d x -> In d y -> ~ NoDup (l1 ++ (x ++ m ++ y) ++ l2).
Proof.
  intros A d l1 x m y l2 Hx Hy Hnd.
  apply NoDup_app_remove_l in Hnd. apply NoDup_app_remove_r in Hnd.
  apply in_split in Hx as (x1 & x2 & ->).
  rewrite <- app_assoc in Hnd. apply NoDup_app_remove_l in Hnd.
  cbn [List.app] in Hnd. apply NoDup_cons_iff in Hnd as [Hd _].
  apply Hd. apply in_or_app. right. apply in_or_app. right. exact Hy.
Qed.

Section WrittenIdentifiers.
Context {libm : Libm}.

(** With pairwise distinct identifiers in the input and star_parent
    still hanging in the document after the deletions, the identifiers
    of the document written are pairwise distinct exactly when no
    element below the template carries an identifier. *)
Theorem written_ids_distinct_iff :
  forall root template parent center s1 deleted p,
  find_element_by_id root TEMPLATE_ID = Some template ->
  dict_get path_eqb (fst template) (build_parent_map root) = Some parent ->
  rotation_center parent (build_parent_map root) = Ok center ->
  delete_phase (mkStore root (Attached (fst parent)))
    (STAR_IDS_TO_DELETE ++ [TEMPLATE_ID])%list = Ok (s1, deleted) ->
  star_parent s1 = Attached p ->
  NoDup (all_ids root) ->
  exists s2,
    main root = Ok (Written s2 center deleted)
    /\ (NoDup (all_ids (doc s2)) <-> descendant_ids (snd template) = []).
Proof.
  intros root template parent center s1 deleted p Hfind Hpar Hc Hdel Hp Hnd.
  destruct (main_attached root template parent center s1 deleted p
              Hfind Hpar Hc Hdel Hp)
    as (s2 & ids & Hmain & Hsp & Hdoc & Hlen & Hmint & Hfresh).
  exists s2. split; [exact Hmain|].
  assert (Hres : parent_resolves (mkStore root (Attached (fst parent)))).
  { apply parent_map_get in Hpar as (i & c & _ & Hg & _). now exists (snd parent). }
  pose proof Hdel as Hdel0. unfold delete_phase in Hdel0.
  destruct (delete_loop_ok (STAR_IDS_TO_DELETE ++ [TEMPLATE_ID])%list _ 0%nat Hres)
    as (s1' & deleted' & Hdel' & [p1 Hp1]).
  rewrite Hdel0 in Hdel'. inversion Hdel'; subst s1' deleted'.
  unfold parent_element in Hp1. rewrite Hp in Hp1.
  destruct (delete_loop_settles _ (mkStore root (Attached (fst parent))) _ _ _
              Hnd Hdel0) as [Hnd1 _].
  set (ws := map (fun x => wrapper_of (snd template) (fst center) (snd center)
                             (fst x) (snd x))
               (combine (seq 0 TOTAL_STARS) ids)) in *.
  destruct (all_ids_appended ws p (doc s1) p1 Hp1) as (A & B & E1 & E2).
  rewrite Hdoc, E2. split.
  - intros Hout.
    destruct (descendant_ids (snd template)) as [|d D] eqn:ED; [reflexivity|].
    exfalso.
    destruct ids as [|x0 [|x1 ids]]; try discriminate Hlen.
    subst ws. unfold TOTAL_STARS in Hout.
    cbn [seq combine map flat_map fst snd] in Hout.
    rewrite !all_ids_wrapper, ED in Hout.
    set (R := flat_map all_ids _) in Hout.
    change ((snd x0 :: fst x0 :: d :: D) ++ (snd x1 :: fst x1 :: d :: D) ++ R)%list
      with ((snd x0 :: fst x0 :: d :: D)
              ++ [snd x1; fst x1] ++ (d :: D ++ R))%list in Hout.
    apply (repeated_id d) in Hout; [exact Hout | | now left].
    right; right; now left.
  - intros Hbare.
    destruct (wrapper_ids_bare (snd template) (fst center) (snd center)
                (seq 0 TOTAL_STARS) ids Hbare)
      as [Hw1 Hw2]; [now rewrite Hlen, length_seq | exact Hmint |].
    fold ws in Hw1, Hw2.
    apply nodup_insert; [now rewrite <- E1 | exact Hw1 |].
    intros x Hx. rewrite <- E1. apply Hfresh, Hw2, Hx.
Qed.
End WrittenIdentifiers.

Lemma written_ids_distinct_iff_witness :
  exists s2,
    main (libm := example_libm) scenario_document
    = Ok (Written s2 (float_of_Q 650, float_of_Q 415) 1%nat)
    /\ (NoDup (all_ids (doc s2))
        <-> descendant_ids (element "g" [("id", "g16532")] []) = []).
Proof.
  apply (written_ids_distinct_iff (libm := example_libm) scenario_document
           ([0; 0]%nat, element "g" [("id", "g16532")] [])
           ([0%nat],
            element "g" [("transform", "translate(100,100)")]
              [element "g" [("id", "g16532")] []])
           (float_of_Q 650, float_of_Q 415)
           (mkStore
              (element "svg" []
                 [element "g" [("transform", "translate(100,100)")] []])
              (Attached [0%nat]))
           1%nat [0%nat]).
  - reflexivity.
  - vm_compute. reflexivity.
  - vm_compute. reflexivity.
  - vm_compute. reflexivity.
  - reflexivity.
  - vm_compute. constructor; [intros [] | constructor].
Defined.
